(** * Sophist pipeline: classification, aggregation, dominance and passages

    A shallow embedding of the pipeline modules of the repository
    ([lib/pipeline/taxonomy.ts], [classifier.ts], [classify-media-llm.ts],
    [aggregators.ts], [dominance.ts], [passage-extractor.ts] and the media
    classification step of [refresh.ts]) together with the properties that
    the specification states about them.

    Conventions of the embedding.
    - A JavaScript [number] that carries a share, a score, a weight or a
      confidence is a rational ([Q]); the arithmetic is exact, and [NaN] and
      the infinities have no counterpart.  Character offsets and counts are
      [nat]; epoch milliseconds are [Z].
    - A JavaScript string is a [string] of bytes; texts are taken to be
      ASCII, so that [toLowerCase], [\w] and [\s] act on single bytes.
    - A [Map] is an association list in insertion order: iteration order is
      observable through the stable [Array.prototype.sort].
    - [new Date()] and [Date.now()] are explicit arguments. *)

From Stdlib Require Import List String Ascii Bool Arith ZArith QArith Qabs.
From Stdlib Require Import Lia Lqa Permutation Sorted OrderedTypeEx.
Import ListNotations.

Close Scope Q_scope.
Local Open Scope nat_scope.

(* ------------------------------------------------------------------ *)
(** * Stable sorting, as [Array.prototype.sort] with a consistent comparator *)

Section StableSort.

Variable A : Type.

(** [before y x] holds when the comparator puts [y] strictly ahead of [x],
    that is when [cmp(y, x) < 0]. *)
Variable before : A -> A -> bool.

Fixpoint insert_by (x : A) (l : list A) : list A :=
  match l with
  | [] => [x]
  | y :: ys => if before y x then y :: insert_by x ys else x :: y :: ys
  end.

Definition sort_by (l : list A) : list A := fold_right insert_by [] l.

Lemma insert_by_perm (x : A) (l : list A) : Permutation (x :: l) (insert_by x l).
Proof.
  induction l as [|y ys IH]; simpl.
  - apply Permutation_refl.
  - destruct (before y x).
    + eapply perm_trans; [apply perm_swap|]. now apply perm_skip.
    + apply Permutation_refl.
Qed.

Lemma sort_by_perm (l : list A) : Permutation l (sort_by l).
Proof.
  induction l as [|x xs IH]; simpl.
  - constructor.
  - eapply perm_trans; [apply perm_skip, IH|]. apply insert_by_perm.
Qed.

Lemma sort_by_length (l : list A) : List.length (sort_by l) = List.length l.
Proof. symmetry. apply Permutation_length, sort_by_perm. Qed.

Lemma sort_by_In (l : list A) (x : A) : In x (sort_by l) <-> In x l.
Proof.
  split; intro H.
  - eapply Permutation_in; [apply Permutation_sym, sort_by_perm|exact H].
  - eapply Permutation_in; [apply sort_by_perm|exact H].
Qed.

Lemma sort_by_nil_inv (l : list A) : sort_by l = [] -> l = [].
Proof.
  intro H. apply length_zero_iff_nil.
  rewrite <- sort_by_length, H. reflexivity.
Qed.

(** Stability: a class of elements that the comparator cannot tell apart
    keeps its original relative order. *)
Section Stability.

Variable same : A -> bool.
Hypothesis same_not_before :
  forall x y, same x = true -> same y = true -> before y x = false.

Lemma insert_by_filter_same (x : A) (l : list A) :
  same x = true -> filter same (insert_by x l) = x :: filter same l.
Proof.
  intro Hx. induction l as [|y ys IH]; simpl.
  - now rewrite Hx.
  - destruct (before y x) eqn:Hb; simpl.
    + destruct (same y) eqn:Hy.
      * now rewrite (same_not_before x y Hx Hy) in Hb.
      * exact IH.
    + now rewrite Hx.
Qed.

Lemma insert_by_filter_other (x : A) (l : list A) :
  same x = false -> filter same (insert_by x l) = filter same l.
Proof.
  intro Hx. induction l as [|y ys IH]; simpl.
  - now rewrite Hx.
  - destruct (before y x); simpl.
    + now rewrite IH.
    + now rewrite Hx.
Qed.

Lemma sort_by_stable (l : list A) : filter same (sort_by l) = filter same l.
Proof.
  induction l as [|x xs IH]; simpl; [reflexivity|].
  destruct (same x) eqn:Hx.
  - now rewrite insert_by_filter_same, IH.
  - now rewrite insert_by_filter_other, IH.
Qed.

End Stability.

(** Sortedness for any transitive relation that [before] decides. *)
Section Sortedness.

Variable R : A -> A -> Prop.
Hypothesis R_trans : forall x y z, R x y -> R y z -> R x z.
Hypothesis before_R : forall x y, before y x = true -> R y x.
Hypothesis not_before_R : forall x y, before y x = false -> R x y.

Lemma insert_by_sorted (x : A) (l : list A) :
  StronglySorted R l -> StronglySorted R (insert_by x l).
Proof.
  induction 1 as [|y ys Hs IH Hall]; simpl.
  - repeat constructor.
  - destruct (before y x) eqn:Hb.
    + constructor; [exact IH|].
      apply Forall_forall. intros z Hz.
      apply (Permutation_in z (Permutation_sym (insert_by_perm x ys))) in Hz.
      destruct Hz as [<-|Hz]; [now apply before_R|].
      rewrite Forall_forall in Hall. now apply Hall.
    + constructor; [now constructor|].
      constructor; [now apply not_before_R|].
      apply Forall_forall. intros z Hz.
      rewrite Forall_forall in Hall.
      eapply R_trans; [apply not_before_R, Hb|now apply Hall].
Qed.

Lemma sort_by_sorted (l : list A) : StronglySorted R (sort_by l).
Proof.
  induction l as [|x xs IH]; simpl; [constructor|].
  now apply insert_by_sorted.
Qed.

End Sortedness.

End StableSort.

Arguments insert_by {A} before x l.
Arguments sort_by {A} before l.

(* ------------------------------------------------------------------ *)
(** * Array helpers *)

(** [l.map(f).filter((y) => y != null)], also a loop that pushes an element
    for some of the items only. *)
Fixpoint keep_found {A B : Type} (f : A -> option B) (l : list A) : list B :=
  match l with
  | [] => []
  | x :: rest =>
      match f x with
      | Some y => y :: keep_found f rest
      | None => keep_found f rest
      end
  end.

Lemma keep_found_length {A B : Type} (f : A -> option B) (l : list A) :
  List.length (keep_found f l) <= List.length l.
Proof.
  induction l as [|x rest IH]; simpl; [lia|].
  destruct (f x); simpl; lia.
Qed.

Lemma keep_found_all {A B : Type} (f : A -> option B) (g : A -> B) (l : list A) :
  (forall x, In x l -> f x = Some (g x)) -> keep_found f l = map g l.
Proof.
  induction l as [|x rest IH]; intro H; simpl; [reflexivity|].
  rewrite (H x (or_introl eq_refl)). f_equal.
  apply IH. intros y Hy. apply H. now right.
Qed.

Lemma keep_found_In {A B : Type} (f : A -> option B) (l : list A) (y : B) :
  In y (keep_found f l) -> exists x, In x l /\ f x = Some y.
Proof.
  induction l as [|x rest IH]; simpl; [tauto|].
  destruct (f x) eqn:E.
  - intros [<-|H].
    + exists x. auto.
    + destruct (IH H) as [x' [Hx' Hf]]. exists x'. auto.
  - intro H. destruct (IH H) as [x' [Hx' Hf]]. exists x'. auto.
Qed.

(* ------------------------------------------------------------------ *)
(** * Rational helpers for [Math.max], [Math.min] and comparisons *)

Module Num.

Local Open Scope Q_scope.

Definition Qltb (x y : Q) : bool := negb (Qle_bool y x).

Definition Qmax2 (x y : Q) : Q := if Qle_bool x y then y else x.
Definition Qmin2 (x y : Q) : Q := if Qle_bool x y then x else y.

(** [x || 1] on a number: zero is falsy. *)
Definition or_one (x : Q) : Q := if Qeq_bool x 0 then 1 else x.

Definition Qsum (l : list Q) : Q := fold_left Qplus l 0.

Lemma Qltb_lt (x y : Q) : Qltb x y = true <-> x < y.
Proof.
  unfold Qltb. rewrite negb_true_iff. split; intro H.
  - apply Qnot_le_lt. intro Hle. apply Qle_bool_iff in Hle. congruence.
  - destruct (Qle_bool y x) eqn:E; [|reflexivity].
    apply Qle_bool_iff in E. exfalso. eapply Qlt_not_le; eassumption.
Qed.

Lemma Qltb_ge (x y : Q) : Qltb x y = false <-> y <= x.
Proof.
  unfold Qltb. rewrite negb_false_iff. apply Qle_bool_iff.
Qed.

Lemma Qmax2_lub_l (x y : Q) : x <= Qmax2 x y.
Proof.
  unfold Qmax2. destruct (Qle_bool x y) eqn:E.
  - now apply Qle_bool_iff.
  - apply Qle_refl.
Qed.

Lemma Qmax2_lub_r (x y : Q) : y <= Qmax2 x y.
Proof.
  unfold Qmax2. destruct (Qle_bool x y) eqn:E.
  - apply Qle_refl.
  - apply Qlt_le_weak, Qnot_le_lt. intro H. apply Qle_bool_iff in H. congruence.
Qed.

Lemma Qmin2_glb_l (x y : Q) : Qmin2 x y <= x.
Proof.
  unfold Qmin2. destruct (Qle_bool x y) eqn:E.
  - apply Qle_refl.
  - apply Qlt_le_weak, Qnot_le_lt. intro H. apply Qle_bool_iff in H. congruence.
Qed.

Lemma Qmin2_glb (x y z : Q) : z <= x -> z <= y -> z <= Qmin2 x y.
Proof. unfold Qmin2. now destruct (Qle_bool x y). Qed.

Lemma Qsum_from (l : list Q) (a : Q) : fold_left Qplus l a == a + Qsum l.
Proof.
  unfold Qsum. revert a. induction l as [|x xs IH]; intro a; simpl.
  - ring.
  - rewrite IH, (IH (0 + x)). ring.
Qed.

Lemma Qsum_cons (x : Q) (l : list Q) : Qsum (x :: l) == x + Qsum l.
Proof. unfold Qsum at 1. simpl. rewrite Qsum_from. ring. Qed.

Lemma Qsum_app (l1 l2 : list Q) : Qsum (l1 ++ l2) == Qsum l1 + Qsum l2.
Proof.
  induction l1 as [|x xs IH]; simpl.
  - unfold Qsum at 2. simpl. ring.
  - rewrite !Qsum_cons, IH. ring.
Qed.

Lemma Qsum_perm (l1 l2 : list Q) : Permutation l1 l2 -> Qsum l1 == Qsum l2.
Proof.
  induction 1.
  - reflexivity.
  - rewrite !Qsum_cons. now rewrite IHPermutation.
  - rewrite !Qsum_cons. ring.
  - now rewrite IHPermutation1.
Qed.

End Num.

(* ------------------------------------------------------------------ *)
(** * String operations of the JavaScript runtime, on ASCII text *)

Module Text.

Local Open Scope string_scope.
Local Open Scope nat_scope.

Definition is_upper (c : ascii) : bool :=
  let n := nat_of_ascii c in (65 <=? n) && (n <=? 90).

Definition is_lower (c : ascii) : bool :=
  let n := nat_of_ascii c in (97 <=? n) && (n <=? 122).

Definition is_digit (c : ascii) : bool :=
  let n := nat_of_ascii c in (48 <=? n) && (n <=? 57).

(** [\s]: tab, line feed, vertical tab, form feed, carriage return, space. *)
Definition is_space (c : ascii) : bool :=
  let n := nat_of_ascii c in ((9 <=? n) && (n <=? 13)) || (n =? 32).

(** [\w]: letters, digits and the underscore. *)
Definition is_word (c : ascii) : bool :=
  is_upper c || is_lower c || is_digit c || (nat_of_ascii c =? 95).

Definition lower_char (c : ascii) : ascii :=
  if is_upper c then ascii_of_nat (nat_of_ascii c + 32) else c.

Fixpoint map_chars (f : ascii -> ascii) (s : string) : string :=
  match s with
  | EmptyString => EmptyString
  | String c r => String (f c) (map_chars f r)
  end.

Definition toLowerCase (s : string) : string := map_chars lower_char s.

(** [s.replace(/[^\w\s]/g, " ")] *)
Definition blank_punctuation (s : string) : string :=
  map_chars (fun c => if is_word c || is_space c then c else " "%char) s.

(** [s.split(/\s+/)]: the pieces between maximal runs of white space; a
    leading or trailing run leaves an empty piece at that end. *)
Fixpoint split_ws_from (s cur : string) (in_run : bool) : list string :=
  match s with
  | EmptyString => [cur]
  | String c r =>
      if is_space c
      then if in_run then split_ws_from r "" true
           else cur :: split_ws_from r "" true
      else split_ws_from r (cur ++ String c "")%string false
  end.

Definition split_ws (s : string) : list string := split_ws_from s "" false.

(** [s.includes(sub)] *)
Fixpoint includes (s sub : string) : bool :=
  prefix sub s ||
  match s with
  | EmptyString => false
  | String _ r => includes r sub
  end.

Definition nonempty (s : string) : bool :=
  match s with EmptyString => false | String _ _ => true end.

Fixpoint trimStart (s : string) : string :=
  match s with
  | EmptyString => EmptyString
  | String c r => if is_space c then trimStart r else s
  end.

Fixpoint trimEnd (s : string) : string :=
  match s with
  | EmptyString => EmptyString
  | String c r =>
      let r' := trimEnd r in
      if is_space c && negb (nonempty r') then EmptyString else String c r'
  end.

Definition trim (s : string) : string := trimEnd (trimStart s).

(** [s.slice(from, to)] for [0 <= from] and [0 <= to]. *)
Definition slice (s : string) (from to : nat) : string :=
  substring from (to - from) s.

(** [s.indexOf(sub, from)], [None] standing for [-1]. *)
Definition indexOf (s sub : string) (from : nat) : option nat :=
  index from sub s.

(** [l.join(sep)] *)
Definition join (sep : string) (l : list string) : string := concat sep l.

(** A case-insensitive regular expression that is an alternation of literal
    words, [/w1|w2|.../i], given by its words; [pattern.test(s)]. *)
Definition test_any (words : list string) (s : string) : bool :=
  existsb (fun w => includes (toLowerCase s) (toLowerCase w)) words.

Lemma substring_nothing (n : nat) (s : string) : substring n 0 s = "".
Proof.
  revert n. induction s as [|c r IH]; intros [|n]; simpl; auto.
Qed.

Lemma slice_nonempty (s : string) (from to : nat) :
  nonempty (trim (slice s from to)) = true -> from < to.
Proof.
  unfold slice. intro H.
  destruct (Nat.lt_ge_cases from to) as [Hlt|Hge]; [exact Hlt|].
  replace (to - from) with 0 in H by lia.
  rewrite substring_nothing in H. discriminate.
Qed.

Lemma index_bounds (sub s : string) (from m : nat) :
  index from sub s = Some m -> from <= m /\ m <= String.length s.
Proof.
  revert from m. induction s as [|c r IH]; intros from m;
    cbn [index String.length].
  - destruct from; [destruct sub|]; intro H; inversion H; lia.
  - destruct from as [|from].
    + destruct (prefix sub (String c r)).
      * intro H; inversion H; lia.
      * destruct (index 0 sub r) eqn:E; intro H; inversion H; subst.
        apply IH in E. lia.
    + destruct (index from sub r) eqn:E; intro H; inversion H; subst.
      apply IH in E. lia.
Qed.

End Text.

(* ------------------------------------------------------------------ *)
(** * [taxonomy.ts]: the static catalog of political respects *)

Module Taxonomy.

Local Open Scope string_scope.

Inductive PipelineRespectId : Set :=
| security_border
| humanitarian
| rule_of_law
| sovereignty_control
| capacity_delivery
| economy_prosperity
| fairness_distribution
| stability_risk
| environment_sustainability
| national_interest_global.

Definition respect_eqb (a b : PipelineRespectId) : bool :=
  match a, b with
  | security_border, security_border
  | humanitarian, humanitarian
  | rule_of_law, rule_of_law
  | sovereignty_control, sovereignty_control
  | capacity_delivery, capacity_delivery
  | economy_prosperity, economy_prosperity
  | fairness_distribution, fairness_distribution
  | stability_risk, stability_risk
  | environment_sustainability, environment_sustainability
  | national_interest_global, national_interest_global => true
  | _, _ => false
  end.

Lemma respect_eqb_eq (a b : PipelineRespectId) : respect_eqb a b = true <-> a = b.
Proof. destruct a, b; simpl; split; congruence. Qed.

Lemma respect_eqb_refl (a : PipelineRespectId) : respect_eqb a a = true.
Proof. now apply respect_eqb_eq. Qed.

Lemma respect_eqb_neq (a b : PipelineRespectId) : respect_eqb a b = false <-> a <> b.
Proof. destruct a, b; simpl; split; congruence. Qed.

(** The string that the identifier is at run time. *)
Definition respect_name (r : PipelineRespectId) : string :=
  match r with
  | security_border => "security_border"
  | humanitarian => "humanitarian"
  | rule_of_law => "rule_of_law"
  | sovereignty_control => "sovereignty_control"
  | capacity_delivery => "capacity_delivery"
  | economy_prosperity => "economy_prosperity"
  | fairness_distribution => "fairness_distribution"
  | stability_risk => "stability_risk"
  | environment_sustainability => "environment_sustainability"
  | national_interest_global => "national_interest_global"
  end.

Record PipelineRespect : Set := {
  r_id : PipelineRespectId;
  label : string;
  judgement_question : string;
  keyword_seeds : list string
}.

Definition PIPELINE_RESPECTS : list PipelineRespect :=
  [ {| r_id := security_border;
       label := "Security / Border control";
       judgement_question := "Is migration primarily a threat to be controlled?";
       keyword_seeds :=
         ["stop"; "deter"; "secure"; "crackdown"; "illegal"; "enforcement";
          "threat"; "gangs"; "border"; "boats"; "crossings";
          "stop the boats"; "tougher measures"; "deterrence"; "intercept";
          "trafficker"; "smuggler"; "channel crossing"; "border force"] |};
    {| r_id := humanitarian;
       label := "Humanitarian / Moral responsibility";
       judgement_question := "Are migrants primarily vulnerable persons owed protection?";
       keyword_seeds :=
         ["dignity"; "safety"; "refuge"; "compassion"; "harm"; "rescue";
          "welfare"; "humanity"; "protect"; "vulnerable";
          "safe routes"; "safe passage"; "deaths at sea"; "drowning";
          "charity"; "refugee"; "asylum seeker"; "human rights"] |};
    {| r_id := rule_of_law;
       label := "Rule of law / Legal process";
       judgement_question := "Must migration be governed strictly by legal process and rights?";
       keyword_seeds :=
         ["due process"; "lawful"; "ECHR"; "HRA"; "courts"; "obligations";
          "procedures"; "legal"; "convention"; "rights";
          "legal challenge"; "judicial review"; "ruling"; "appeal";
          "human rights act"; "court blocks"; "lawful route"] |};
    {| r_id := sovereignty_control;
       label := "Sovereignty / Democratic control";
       judgement_question := "Who has the authority to decide migration policy?";
       keyword_seeds :=
         ["control"; "sovereignty"; "mandate"; "Parliament";
          "external constraint"; "take back control";
          "take back control"; "uk border"; "british border";
          "national border"] |};
    {| r_id := capacity_delivery;
       label := "Capacity / System performance";
       judgement_question := "Is the problem state capacity and system failure?";
       keyword_seeds :=
         ["backlog"; "processing"; "hotels"; "inefficiency"; "cost";
          "capacity"; "system"; "delivery";
          "asylum backlog"; "processing delays"; "hotel accommodation";
          "clearing the backlog"; "casework"] |};
    {| r_id := economy_prosperity;
       label := "Economy / Prosperity";
       judgement_question := "Is migration primarily an economic input/output issue?";
       keyword_seeds :=
         ["workforce"; "productivity"; "skills"; "growth";
          "pressure on services"; "economy"; "jobs"] |};
    {| r_id := fairness_distribution;
       label := "Fairness / Distribution";
       judgement_question := "Is the issue fair treatment and distribution of resources?";
       keyword_seeds :=
         ["fair"; "fairness"; "distribution"; "equity"; "access";
          "disadvantaged"] |};
    {| r_id := stability_risk;
       label := "Stability / Risk";
       judgement_question := "Is the issue stability and risk management?";
       keyword_seeds :=
         ["stability"; "risk"; "uncertainty"; "volatility"; "crisis"] |};
    {| r_id := environment_sustainability;
       label := "Environment / Sustainability";
       judgement_question := "Is the issue environmental or sustainability impact?";
       keyword_seeds := ["environment"; "climate"; "sustainability"; "green"] |};
    {| r_id := national_interest_global;
       label := "National interest / Global";
       judgement_question := "Is the issue national interest and global standing?";
       keyword_seeds :=
         ["national interest"; "global"; "international"; "reputation";
          "standing"] |} ].

(** [PIPELINE_RESPECT_IDS], also [RESPECT_IDS] of the oracle module. *)
Definition PIPELINE_RESPECT_IDS : list PipelineRespectId :=
  map r_id PIPELINE_RESPECTS.

(** [RESPECT_IDS.includes(s)] on a string of unknown origin, with the
    identifier it then is. *)
Definition respect_of_name (s : string) : option PipelineRespectId :=
  find (fun r => String.eqb (respect_name r) s) PIPELINE_RESPECT_IDS.

End Taxonomy.

(* ------------------------------------------------------------------ *)
(** * [types.ts]: raw and classified items *)

Module Types.

Import Taxonomy.

Inductive MediaType : Set := broadcast | broadsheet | tabloid | online | wire.

Inductive ItemType : Set := media | poll | metric.

Definition is_media (t : ItemType) : bool :=
  match t with media => true | _ => false end.

Definition is_poll (t : ItemType) : bool :=
  match t with poll => true | _ => false end.

(** [published_ms] is [new Date(published_at).getTime()] of the ISO string
    the item carries: the time stamp is taken to be parseable. *)
Record RawMediaItem : Type := {
  m_id : string;
  outlet : string;
  media_type : option MediaType;
  title : string;
  lede : option string;
  url : option string;
  published_ms : Z;
  m_respect_id : option PipelineRespectId
}.

Record RawPollItem : Type := {
  p_id : string;
  pollster : string;
  question : string;
  options : list string;
  results : list Q;
  fieldwork_dates : string;
  p_published_at : string;
  p_url : option string;
  sample_size : option Q
}.

Record RawMetricItem : Type := {
  metric_id : string;
  metric_label : string;
  unit : string;
  latest_value : Q;
  previous_value : Q;
  period : string;
  updated_at : string;
  source_ref : option string
}.

Record ClassifiedItem : Type := {
  item_type : ItemType;
  subject_id : string;
  item_id : string;
  respect_id : PipelineRespectId;
  confidence : Q;
  rationale : list string;
  extracted_phrases : list string;
  timestamp : string
}.

End Types.

(* ------------------------------------------------------------------ *)
(** * [classifier.ts]: the keyword classification path *)

Module Classifier.

Import Taxonomy Types Text Num.

Local Open Scope string_scope.
Local Open Scope Q_scope.

Definition tokenize (text : string) : list string :=
  filter (fun t => (1 <? String.length t)%nat)
         (split_ws (blank_punctuation (toLowerCase text))).

Record Scored : Type := {
  sc_respect : PipelineRespectId;
  score : Q;
  matched : list string
}.

(** One turn of the loop over [r.keyword_seeds], on the pair
    [(score, matched)]. *)
Definition score_seed (text : string) (tokens : list string)
    (acc : Q * list string) (seed : string) : Q * list string :=
  let seedNorm := toLowerCase seed in
  let acc1 :=
    if existsb (fun t => includes t seedNorm || includes seedNorm t) tokens
    then (fst acc + 1, (snd acc ++ [seed])%list)
    else acc in
  if includes (toLowerCase text) (toLowerCase seed)
  then (fst acc1 + 0.5,
        if existsb (String.eqb seed) (snd acc1) then snd acc1
        else (snd acc1 ++ [seed])%list)
  else acc1.

Definition score_respect (text : string) (tokens : list string)
    (r : PipelineRespect) : Scored :=
  let res := fold_left (score_seed text tokens) (keyword_seeds r) (0, []) in
  {| sc_respect := r_id r; score := fst res; matched := snd res |}.

(** The comparator [(a, b) => b.score - a.score]: the higher score first. *)
Definition higher_score (y x : Scored) : bool := Qltb (score x) (score y).

Definition scoreText (text : string) : list Scored :=
  let tokens := tokenize text in
  let scores := map (score_respect text tokens) PIPELINE_RESPECTS in
  sort_by higher_score (filter (fun s => Qltb 0 (score s)) scores).

Definition normalizeConfidence (score maxScore : Q) : Q :=
  if Qle_bool maxScore 0 then 0.5
  else
    let raw := score / Qmax2 maxScore 3 in
    Qmin2 0.95 (Qmax2 0.3 raw).

(** [[item.title, item.lede].filter(Boolean).join(" ")] *)
Definition media_text (item : RawMediaItem) : string :=
  let lede_text := match lede item with Some l => l | None => "" end in
  join " " (filter nonempty [title item; lede_text]).

Definition classifyMediaItem (now_iso : string) (subject : string)
    (item : RawMediaItem) : ClassifiedItem :=
  let text := media_text item in
  let scored := scoreText text in
  let top := hd_error scored in
  let maxScore := match scored with s :: _ => score s | [] => 0 end in
  {| item_type := media;
     subject_id := subject;
     item_id := m_id item;
     respect_id :=
       match top with Some t => sc_respect t | None => security_border end;
     confidence :=
       match top with
       | Some t => normalizeConfidence (score t) maxScore
       | None => 0.5
       end;
     rationale :=
       match top with
       | Some t =>
           match matched t with
           | _ :: _ => ["Matched: " ++ join ", " (firstn 5 (matched t))]
           | [] => ["No keyword match; default security_border"]
           end
       | None => ["No keyword match; default security_border"]
       end;
     extracted_phrases :=
       match top with Some t => matched t | None => [] end;
     timestamp := now_iso |}.

(** Each pattern of [POLL_RESPECT_MAP] is an alternation of literals under
    the [i] flag, kept as the list of its literals. *)
Definition POLL_RESPECT_MAP : list (list string * PipelineRespectId) :=
  [ (["tough"; "stop"; "deter"; "crackdown"; "reduce numbers"; "boats"],
     security_border);
    (["humane"; "dignity"; "protect"; "refugee"; "safe route"], humanitarian);
    (["ECHR"; "HRA"; "legal"; "court"; "due process"; "law"], rule_of_law);
    (["sovereignty"; "control"; "take back"], sovereignty_control) ].

Definition poll_text (item : RawPollItem) : string :=
  question item ++ " " ++ join " " (options item).

Definition classifyPollItem (now_iso : string) (subject : string)
    (item : RawPollItem) : ClassifiedItem :=
  let text := poll_text item in
  let scored := scoreText text in
  match find (fun e => test_any (fst e) text) POLL_RESPECT_MAP with
  | Some (_, respect) =>
      {| item_type := poll;
         subject_id := subject;
         item_id := p_id item;
         respect_id := respect;
         confidence := 0.65;
         rationale := ["Pattern match: " ++ respect_name respect];
         extracted_phrases := [];
         timestamp := now_iso |}
  | None =>
      let top := hd_error scored in
      {| item_type := poll;
         subject_id := subject;
         item_id := p_id item;
         respect_id :=
           match top with Some t => sc_respect t | None => security_border end;
         confidence :=
           match top with
           | Some t => normalizeConfidence (score t) (score t)
           | None => 0.5
           end;
         rationale :=
           match top with
           | Some t =>
               match matched t with
               | _ :: _ => ["Matched: " ++ join ", " (matched t)]
               | [] => ["Default security_border"]
               end
           | None => ["Default security_border"]
           end;
         extracted_phrases :=
           match top with Some t => matched t | None => [] end;
         timestamp := now_iso |}
  end.

Definition metric_text (item : RawMetricItem) : string :=
  metric_label item ++ " " ++
  match source_ref item with Some s => s | None => "" end.

Definition classifyMetricItem (now_iso : string) (subject : string)
    (item : RawMetricItem) : ClassifiedItem :=
  let text := metric_text item in
  let scored := scoreText text in
  let top := hd_error scored in
  {| item_type := metric;
     subject_id := subject;
     item_id := metric_id item;
     respect_id :=
       match top with Some t => sc_respect t | None => capacity_delivery end;
     confidence := match top with Some _ => 0.7 | None => 0.5 end;
     rationale :=
       match top with
       | Some t =>
           match matched t with
           | _ :: _ => ["Matched: " ++ join ", " (matched t)]
           | [] => ["Metric label; default capacity"]
           end
       | None => ["Metric label; default capacity"]
       end;
     extracted_phrases :=
       match top with Some t => matched t | None => [] end;
     timestamp := now_iso |}.

(** [clamp(x, lo, hi)] as the specification writes it. *)
Definition clamp (x lo hi : Q) : Q := Qmin2 hi (Qmax2 lo x).

End Classifier.

(* ------------------------------------------------------------------ *)
(** * [classify-media-llm.ts] and the media step of [refresh_small_boats] *)

Module Oracle.

Import Taxonomy Types Text Classifier.

Local Open Scope string_scope.
Local Open Scope Q_scope.

(** What the [await openai.chat.completions.create(...)] call and the
    [JSON.parse] of its content can come to.  The oracle itself is outside
    the program; its reply is an input. *)
Inductive OracleReply : Type :=
| TransportError
    (** the request rejects: the [await] throws *)
| Unparseable
    (** the content is not JSON: [JSON.parse] throws, caught locally *)
| BadShape
    (** the content parses to a value such as [null], or to an object whose
        [classifications] is not an array: reading it throws a [TypeError] *)
| Parsed (classifications : option (list (Z * string)))
    (** an object; [classifications] is absent or is an array of
        [{index, respect_id}] *).

(** A call either throws or returns. *)
Inductive Outcome (A : Type) : Type :=
| Thrown
| Returned (a : A).

Arguments Thrown {A}.
Arguments Returned {A} a.

(** [new Map(entries).get(i)]: the last entry with the key wins. *)
Fixpoint byIndex_get (entries : list (Z * string)) (i : Z) : option string :=
  match entries with
  | [] => None
  | (k, v) :: rest =>
      match byIndex_get rest i with
      | Some v' => Some v'
      | None => if Z.eqb k i then Some v else None
      end
  end.

(** The framing of item [i]: the replied one when it is in [RESPECT_IDS],
    otherwise [security_border]. *)
Definition oracle_respect (entries : list (Z * string)) (i : nat)
    : PipelineRespectId :=
  match byIndex_get entries (Z.of_nat i) with
  | Some name =>
      match respect_of_name name with
      | Some r => r
      | None => security_border
      end
  | None => security_border
  end.

Fixpoint oracle_items (now_iso subject : string) (entries : list (Z * string))
    (i : nat) (items : list RawMediaItem) : list ClassifiedItem :=
  match items with
  | [] => []
  | m :: rest =>
      {| item_type := media;
         subject_id := subject;
         item_id := m_id m;
         respect_id := oracle_respect entries i;
         confidence := 0.8;
         rationale := ["LLM classification"];
         extracted_phrases := [];
         timestamp := now_iso |}
      :: oracle_items now_iso subject entries (S i) rest
  end.

(** [classifyMediaWithLLM({subject_id, items})], with the API key being set
    or not and the reply of the oracle as arguments. *)
Definition classifyMediaWithLLM (api_key : bool) (reply : OracleReply)
    (now_iso subject : string) (items : list RawMediaItem)
    : Outcome (list ClassifiedItem) :=
  match items with
  | [] => Returned []
  | _ :: _ =>
      if negb api_key then Returned []
      else
        match reply with
        | TransportError => Thrown
        | Unparseable => Returned []
        | BadShape => Thrown
        | Parsed classifications =>
            let entries :=
              match classifications with Some l => l | None => [] end in
            Returned (oracle_items now_iso subject entries 0 items)
        end
  end.

Definition has_label (m : RawMediaItem) : bool :=
  match m_respect_id m with Some _ => true | None => false end.

Definition prelabelled (now_iso subject : string) (m : RawMediaItem)
    : list ClassifiedItem :=
  match m_respect_id m with
  | Some r =>
      [ {| item_type := media;
           subject_id := subject;
           item_id := m_id m;
           respect_id := r;
           confidence := 0.9;
           rationale := ["Pre-labelled (curated)"];
           extracted_phrases := [];
           timestamp := now_iso |} ]
  | None => []
  end.

(** The batch [mediaToClassify] of [refresh_small_boats]. *)
Definition mediaToClassify (rawMedia : list RawMediaItem) : list RawMediaItem :=
  filter (fun m => negb (has_label m)) rawMedia.

(** What [refresh_small_boats] pushes on [classified] for the batch. *)
Definition classify_batch (api_key : bool) (reply : OracleReply)
    (now_iso subject : string) (batch : list RawMediaItem)
    : list ClassifiedItem :=
  match batch with
  | [] => []
  | _ :: _ =>
      if api_key then
        match classifyMediaWithLLM api_key reply now_iso subject batch with
        | Returned llmClassified => llmClassified
        | Thrown => map (classifyMediaItem now_iso subject) batch
        end
      else map (classifyMediaItem now_iso subject) batch
  end.

(** The media part of [classified] in [refresh_small_boats]: the
    pre-labelled items first, then the batch. *)
Definition classify_media (api_key : bool) (reply : OracleReply)
    (now_iso subject : string) (rawMedia : list RawMediaItem)
    : list ClassifiedItem :=
  flat_map (prelabelled now_iso subject) (filter has_label rawMedia)
  ++ classify_batch api_key reply now_iso subject (mediaToClassify rawMedia).

End Oracle.

(* ------------------------------------------------------------------ *)
(** * A [Map<PipelineRespectId, number>] in insertion order *)

Module RespectMap.

Import Taxonomy Num.

Local Open Scope Q_scope.

Definition t : Type := list (PipelineRespectId * Q).

Fixpoint get (k : PipelineRespectId) (m : t) : option Q :=
  match m with
  | [] => None
  | (k', v) :: rest => if respect_eqb k' k then Some v else get k rest
  end.

(** [m.set(k, v)]: a present key keeps its place, a new key goes last. *)
Fixpoint set (k : PipelineRespectId) (v : Q) (m : t) : t :=
  match m with
  | [] => [(k, v)]
  | (k', v') :: rest =>
      if respect_eqb k' k then (k', v) :: rest else (k', v') :: set k v rest
  end.

(** [m.set(k, (m.get(k) ?? 0) + v)] *)
Definition bump (k : PipelineRespectId) (v : Q) (m : t) : t :=
  set k (match get k m with Some x => x | None => 0 end + v) m.

(** [Array.from(m.values())] *)
Definition values (m : t) : list Q := map snd m.

(** The value under [k], with [0] for an absent key. *)
Definition at_key (k : PipelineRespectId) (m : t) : Q :=
  match get k m with Some x => x | None => 0 end.

Lemma get_set_same (k : PipelineRespectId) (v : Q) (m : t) :
  get k (set k v m) = Some v.
Proof.
  induction m as [|[k' v'] rest IH]; simpl.
  - now rewrite respect_eqb_refl.
  - destruct (respect_eqb k' k) eqn:E; simpl; now rewrite E.
Qed.

Lemma get_set_other (k j : PipelineRespectId) (v : Q) (m : t) :
  j <> k -> get j (set k v m) = get j m.
Proof.
  intro Hjk. induction m as [|[k' v'] rest IH]; simpl.
  - assert (respect_eqb k j = false) as ->
      by (apply respect_eqb_neq; congruence).
    reflexivity.
  - destruct (respect_eqb k' k) eqn:E; simpl.
    + apply respect_eqb_eq in E. subst k'.
      assert (respect_eqb k j = false) as ->
        by (apply respect_eqb_neq; congruence).
      reflexivity.
    + destruct (respect_eqb k' j); [reflexivity|exact IH].
Qed.

Lemma at_key_bump_same (k : PipelineRespectId) (v : Q) (m : t) :
  at_key k (bump k v m) = at_key k m + v.
Proof. unfold at_key, bump. now rewrite get_set_same. Qed.

Lemma at_key_bump_other (k j : PipelineRespectId) (v : Q) (m : t) :
  j <> k -> at_key j (bump k v m) = at_key j m.
Proof. intro H. unfold at_key, bump. now rewrite get_set_other. Qed.

Lemma values_set_sum (k : PipelineRespectId) (v : Q) (m : t) :
  Qsum (values (set k v m)) == Qsum (values m) - at_key k m + v.
Proof.
  unfold values, at_key. induction m as [|[k' v'] rest IH]; simpl.
  - rewrite Qsum_cons. unfold Qsum; simpl. ring.
  - destruct (respect_eqb k' k) eqn:E; simpl.
    + rewrite !Qsum_cons. ring.
    + rewrite !Qsum_cons, IH. ring.
Qed.

Lemma values_bump_sum (k : PipelineRespectId) (v : Q) (m : t) :
  Qsum (values (bump k v m)) == Qsum (values m) + v.
Proof.
  unfold bump. rewrite values_set_sum. unfold at_key. ring.
Qed.

End RespectMap.

(* ------------------------------------------------------------------ *)
(** * [aggregators.ts]: media framing and public polling *)

Module Aggregators.

Import Taxonomy Types Text Num.

Local Open Scope string_scope.
Local Open Scope Q_scope.

Definition Share : Type := (PipelineRespectId * Q)%type.

(** The comparator [(a, b) => b.share - a.share], also
    [(a, b) => b.weight - a.weight] and [(a, b) => b[1] - a[1]]. *)
Definition higher {K : Type} (y x : K * Q) : bool := Qltb (snd x) (snd y).

Definition recencyDecay (daysAgo : Q) : Q := Qmax2 0.1 (1 - daysAgo / 14).

Record MediaExemplar : Type := {
  source_id : string;
  ex_outlet : string;
  ex_title : string;
  ex_url : option string;
  ex_published_ms : Z;
  ex_respect_id : option PipelineRespectId;
  ex_confidence : option Q
}.

(** The fields of the aggregate that depend on the classification; the
    display fields [window], [top_phrases] and [media_type_breakdown] are
    computed apart from them and are left out. *)
Record MediaFramingAggregate : Type := {
  dominant : Share;
  shares : list Share;
  exemplars : list MediaExemplar;
  source_ids : list string;
  volume : nat
}.

(** [rawMedia.find((m) => m.id === id)] *)
Definition find_media (rawMedia : list RawMediaItem) (id : string)
    : option RawMediaItem :=
  find (fun m => String.eqb (m_id m) id) rawMedia.

(** The weight of a classified item at time [now] (epoch milliseconds). *)
Definition item_weight (now : Z) (rawMedia : list RawMediaItem)
    (c : ClassifiedItem) : Q :=
  let published :=
    match find_media rawMedia (item_id c) with
    | Some raw => published_ms raw
    | None => now
    end in
  let daysAgo := inject_Z (now - published) / inject_Z (24 * 60 * 60 * 1000) in
  recencyDecay daysAgo * confidence c.

Definition mediaClassified (classified : list ClassifiedItem)
    : list ClassifiedItem :=
  filter (fun c => is_media (item_type c)) classified.

(** The map [byRespect] after the loop over [mediaClassified]. *)
Definition media_byRespect (now : Z) (rawMedia : list RawMediaItem)
    (items : list ClassifiedItem) : RespectMap.t :=
  fold_left
    (fun m c => RespectMap.bump (respect_id c) (item_weight now rawMedia c) m)
    items [].

(** The array [itemWeights] after the same loop. *)
Definition media_itemWeights (now : Z) (rawMedia : list RawMediaItem)
    (items : list ClassifiedItem) : list (string * Q) :=
  map (fun c => (item_id c, item_weight now rawMedia c)) items.

(** [Array.from(byRespect.entries()).map(... sum / total).sort(...)] with
    [total = sum of the values || 1]. *)
Definition shares_of (byRespect : RespectMap.t) : list Share :=
  let total := or_one (Qsum (RespectMap.values byRespect)) in
  sort_by higher (map (fun e => (fst e, snd e / total)) byRespect).

(** [new Map(items.map((c) => [c.item_id, c])).get(id)]: the last item with
    the identifier. *)
Fixpoint classifiedByItem_get (items : list ClassifiedItem) (id : string)
    : option ClassifiedItem :=
  match items with
  | [] => None
  | c :: rest =>
      match classifiedByItem_get rest id with
      | Some c' => Some c'
      | None => if String.eqb (item_id c) id then Some c else None
      end
  end.

Definition exemplar_of (items : list ClassifiedItem) (m : RawMediaItem)
    : MediaExemplar :=
  let c := classifiedByItem_get items (m_id m) in
  {| source_id := m_id m;
     ex_outlet := outlet m;
     ex_title := title m;
     ex_url := url m;
     ex_published_ms := published_ms m;
     ex_respect_id := option_map respect_id c;
     ex_confidence := option_map confidence c |}.

(** [Array.from(new Set(ids))]: the first occurrence of each. *)
Fixpoint dedup (seen : list string) (ids : list string) : list string :=
  match ids with
  | [] => []
  | x :: rest =>
      if existsb (String.eqb x) seen then dedup seen rest
      else x :: dedup (x :: seen) rest
  end.

Definition default_share : Share := (security_border, 0.5).

Definition aggregate_media_framing (now : Z) (subject : string)
    (classified : list ClassifiedItem) (rawMedia : list RawMediaItem)
    (window_days : nat) : MediaFramingAggregate :=
  let items := mediaClassified classified in
  let byRespect := media_byRespect now rawMedia items in
  let itemWeights := media_itemWeights now rawMedia items in
  let shares := shares_of byRespect in
  let dominant := match shares with s :: _ => s | [] => default_share end in
  let sortedWeights := sort_by higher itemWeights in
  let exemplars :=
    map (exemplar_of items)
      (firstn 6
         (keep_found (fun w => find_media rawMedia (fst w))
            (firstn 5 sortedWeights))) in
  {| dominant := dominant;
     shares := shares;
     exemplars := exemplars;
     source_ids := dedup [] (map m_id rawMedia);
     volume := List.length rawMedia |}.

(** Each pattern of [POLL_OPTION_TO_RESPECT], by its literals. *)
Definition POLL_OPTION_TO_RESPECT : list (list string * PipelineRespectId) :=
  [ (["tough"; "stop"; "reduce"; "control"; "border"; "crackdown"],
     security_border);
    (["humane"; "protect"; "refugee"; "dignity"; "safe"], humanitarian);
    (["legal"; "law"; "ECHR"; "process"], rule_of_law);
    (["sovereignty"; "take back"], sovereignty_control) ].

(** The framing of an option: the first pattern that matches it. *)
Definition option_respect (opt : string) : option PipelineRespectId :=
  option_map snd (find (fun e => test_any (fst e) opt) POLL_OPTION_TO_RESPECT).

(** [existing ? existing.share += pct : out.push({respect_id, share: pct})] *)
Fixpoint add_share (r : PipelineRespectId) (pct : Q) (out : list Share)
    : list Share :=
  match out with
  | [] => [(r, pct)]
  | (r', s) :: rest =>
      if respect_eqb r' r then (r', s + pct) :: rest
      else (r', s) :: add_share r pct rest
  end.

(** The loop of [mapPollToRespectShare] from option [i] on. *)
Fixpoint map_options (results : list Q) (i : nat) (opts : list string)
    (out : list Share) : list Share :=
  match opts with
  | [] => out
  | opt :: rest =>
      let pct := nth i results 0 in
      let out' :=
        match option_respect opt with
        | Some r => add_share r pct out
        | None => out
        end in
      map_options results (S i) rest out'
  end.

Definition mapPollToRespectShare (poll : RawPollItem) : list Share :=
  match map_options (results poll) 0 (options poll) [] with
  | [] => [(security_border, 0.5)]
  | out => out
  end.

Record PublicPollingAggregate : Type := {
  public_prior : Share;
  pp_shares : list Share;
  pp_source_ids : list string
}.

Definition find_poll (rawPolls : list RawPollItem) (id : string)
    : option RawPollItem :=
  find (fun p => String.eqb (p_id p) id) rawPolls.

Definition pollClassified (classified : list ClassifiedItem)
    : list ClassifiedItem :=
  filter (fun c => is_poll (item_type c)) classified.

(** One turn of the loop over [pollClassified]. *)
Definition poll_step (rawPolls : list RawPollItem) (m : RespectMap.t)
    (c : ClassifiedItem) : RespectMap.t :=
  match find_poll rawPolls (item_id c) with
  | None => m
  | Some found =>
      fold_left
        (fun m' e => RespectMap.bump (fst e) (snd e * confidence c) m')
        (mapPollToRespectShare found) m
  end.

(** The fields [public_prior], [shares] and [source_ids] of the aggregate;
    the summaries and the question table are display fields. *)
Definition aggregate_public_polling (subject : string)
    (classified : list ClassifiedItem) (rawPolls : list RawPollItem)
    (window_months : nat) : PublicPollingAggregate :=
  let byRespect := fold_left (poll_step rawPolls) (pollClassified classified) [] in
  let sorted := shares_of byRespect in
  {| public_prior := match sorted with s :: _ => s | [] => default_share end;
     pp_shares := firstn 5 sorted;
     pp_source_ids := dedup [] (map p_id rawPolls) |}.

End Aggregators.

(* ------------------------------------------------------------------ *)
(** * [dominance.ts]: the weighted vote *)

Module Dominance.

Import Taxonomy Types Num Aggregators.

Local Open Scope string_scope.
Local Open Scope Q_scope.

Definition MEDIA_WEIGHT : Q := 0.45.
Definition PUBLIC_WEIGHT : Q := 0.35.
Definition INSTITUTIONAL_WEIGHT : Q := 0.2.

Record Institutional : Type := {
  inst_respect : PipelineRespectId;
  inst_note : string;
  inst_source_ids : list string
}.

(** The table has the one own key [small_boats]. *)
Definition INSTITUTIONAL_RESPECT_BY_SUBJECT (subject : string)
    : option Institutional :=
  if String.eqb subject "small_boats" then
    Some {| inst_respect := security_border;
            inst_note :=
              "Legal and incumbent sources emphasise deterrence and control.";
            inst_source_ids :=
              ["institutional_illegal_migration_act";
               "institutional_home_office_strategy"] |}
  else None.

Inductive ContributorType : Set := by_media | by_public | by_institutional.

Record DominanceContributor : Type := {
  c_type : ContributorType;
  c_respect_id : PipelineRespectId;
  c_weight : Q;
  value_share : option Q;
  note : option string;
  c_source_ids : list string
}.

Inductive Status : Set := proposed | validated.

Record DominanceSnapshot : Type := {
  as_of : string;
  snap_dominant : PipelineRespectId * Q;
  contributors : list DominanceContributor;
  status : Status;
  split_dominance : bool;
  alternative : list (PipelineRespectId * Q)
}.

(** The map [scores] once the three sources have voted.  The aggregates
    always carry [dominant] and [public_prior], so both guards pass. *)
Definition vote_scores (media : MediaFramingAggregate)
    (publicAgg : PublicPollingAggregate) (subject : string) : RespectMap.t :=
  let s1 :=
    RespectMap.bump (fst (dominant media))
      (snd (dominant media) * MEDIA_WEIGHT) [] in
  let s2 :=
    RespectMap.bump (fst (public_prior publicAgg))
      (snd (public_prior publicAgg) * PUBLIC_WEIGHT) s1 in
  match INSTITUTIONAL_RESPECT_BY_SUBJECT subject with
  | Some inst => RespectMap.bump (inst_respect inst) INSTITUTIONAL_WEIGHT s2
  | None => s2
  end.

(** [Array.from(scores.entries()).sort((a, b) => b[1] - a[1])] *)
Definition ranked (media : MediaFramingAggregate)
    (publicAgg : PublicPollingAggregate) (subject : string)
    : list (PipelineRespectId * Q) :=
  sort_by higher (vote_scores media publicAgg subject).

Definition vote_contributors (media : MediaFramingAggregate)
    (publicAgg : PublicPollingAggregate) (subject : string)
    : list DominanceContributor :=
  [ {| c_type := by_media;
       c_respect_id := fst (dominant media);
       c_weight := MEDIA_WEIGHT;
       value_share := Some (snd (dominant media));
       note := None;
       c_source_ids := firstn 5 (source_ids media) |};
    {| c_type := by_public;
       c_respect_id := fst (public_prior publicAgg);
       c_weight := PUBLIC_WEIGHT;
       value_share := Some (snd (public_prior publicAgg));
       note := None;
       c_source_ids := firstn 5 (pp_source_ids publicAgg) |} ]
  ++ match INSTITUTIONAL_RESPECT_BY_SUBJECT subject with
     | Some inst =>
         [ {| c_type := by_institutional;
              c_respect_id := inst_respect inst;
              c_weight := INSTITUTIONAL_WEIGHT;
              value_share := None;
              note := Some (inst_note inst);
              c_source_ids := inst_source_ids inst |} ]
     | None => []
     end.

(** The test [sorted.length >= 2 && Math.abs(sorted[0][1] - sorted[1][1]) < 0.1] *)
Definition split_of (sorted : list (PipelineRespectId * Q)) : bool :=
  match sorted with
  | a :: b :: _ => Qltb (Qabs (snd a - snd b)) 0.1
  | _ => false
  end.

(** [sorted] holds the media entry at least, so the fall-back value of
    [dominant] is never taken. *)
Definition weightedVote (now_iso : string) (media : MediaFramingAggregate)
    (publicAgg : PublicPollingAggregate) (subject : string)
    : DominanceSnapshot :=
  let sorted := ranked media publicAgg subject in
  {| as_of := now_iso;
     snap_dominant :=
       match sorted with e :: _ => e | [] => (security_border, 0.5) end;
     contributors := vote_contributors media publicAgg subject;
     status := proposed;
     split_dominance := split_of sorted;
     alternative := firstn 3 (skipn 1 sorted) |}.

Definition compute_dominant_respect_now (now_iso subject : string)
    (mediaAgg : MediaFramingAggregate) (publicAgg : PublicPollingAggregate)
    : DominanceSnapshot :=
  weightedVote now_iso mediaAgg publicAgg subject.

End Dominance.

(* ------------------------------------------------------------------ *)
(** * [passage-extractor.ts]: subject passages of a manifesto text *)

Module Passages.

Import Text.

Local Open Scope string_scope.
Local Open Scope nat_scope.

(** The own keys of [SUBJECT_TRIGGER_PHRASES]. *)
Definition SUBJECT_TRIGGER_PHRASES (subject : string) : option (list string) :=
  if String.eqb subject "migration" then
    Some ["migration"; "immigration"; "immigrate"; "migrant"; "migrants";
          "border"; "borders"; "asylum"; "refugee"; "refugees"; "visa";
          "visas"; "entry"; "settlement"; "citizenship"; "channel crossing";
          "channel crossings"; "small boat"; "small boats"; "dinghy";
          "boats crossing"; "illegal migration"; "legal migration";
          "irregular crossing"; "english channel"; "crossing the channel"]
  else if String.eqb subject "small_boats" then
    Some ["small boat"; "small boats"; "channel crossing";
          "channel crossings"; "dinghy"; "dinghies"; "boats crossing";
          "english channel"; "crossing the channel"; "irregular crossing";
          "illegal migration"; "migrant"; "migrants"; "asylum"; "refugee"]
  else None.

Record ExtractedPassage : Type := {
  p_start : nat;
  p_end : nat;
  p_text : string;
  triggerMatched : string;
  subjectId : string
}.

Record PassageExtractorOptions : Type := {
  sentenceWindow : option nat;
  useParagraphs : option bool;
  maxCharsPerSubject : option nat
}.

Definition opt_sentenceWindow (o : PassageExtractorOptions) : nat :=
  match sentenceWindow o with Some w => w | None => 2 end.

Definition opt_useParagraphs (o : PassageExtractorOptions) : bool :=
  match useParagraphs o with Some b => b | None => false end.

Definition opt_maxCharsPerSubject (o : PassageExtractorOptions) : nat :=
  match maxCharsPerSubject o with Some n => n | None => 12 * 1000 end.

Record Segment : Type := {
  seg_text : string;
  seg_start : nat;
  seg_end : nat
}.

Definition newline : string := String (ascii_of_nat 10) "".

(** The [while (pos < len)] loop of [getSentences] from position [pos];
    [None] when [fuel] turns of the loop do not reach the end. *)
Fixpoint getSentences_from (fuel : nat) (text : string) (pos : nat)
    : option (list Segment) :=
  let len := String.length text in
  if len <=? pos then Some []
  else
    match fuel with
    | 0 => None
    | S fuel' =>
        let nextPeriod := indexOf text ". " pos in
        let nextNewline := indexOf text newline pos in
        let end0 := len in
        let end1 :=
          match nextPeriod with
          | Some k => Nat.min end0 (k + 1)
          | None => end0
          end in
        let end2 :=
          match nextNewline with
          | Some k => Nat.min end1 (k + 1)
          | None => end1
          end in
        let sentence := trim (slice text pos end2) in
        let pos' := if end2 <? len then end2 else len in
        match getSentences_from fuel' text pos' with
        | None => None
        | Some rest =>
            Some (if nonempty sentence
                  then {| seg_text := sentence; seg_start := pos;
                          seg_end := end2 |} :: rest
                  else rest)
        end
    end.

Definition getSentences (text : string) : option (list Segment) :=
  getSentences_from (String.length text) text 0.

(** The loop of [getParagraphs], likewise. *)
Fixpoint getParagraphs_from (fuel : nat) (text : string) (pos : nat)
    : option (list Segment) :=
  let len := String.length text in
  if len <=? pos then Some []
  else
    match fuel with
    | 0 => None
    | S fuel' =>
        let start := pos in
        let nextDouble := indexOf text (newline ++ newline) pos in
        let end1 := match nextDouble with Some k => k | None => len end in
        let paragraph := trim (slice text start end1) in
        let pos' := match nextDouble with Some k => k + 2 | None => len end in
        match getParagraphs_from fuel' text pos' with
        | None => None
        | Some rest =>
            Some (if nonempty paragraph
                  then {| seg_text := paragraph; seg_start := start;
                          seg_end := end1 |} :: rest
                  else rest)
        end
    end.

Definition getParagraphs (text : string) : option (list Segment) :=
  getParagraphs_from (String.length text) text 0.

Definition indexOfPhrase (text phrase : string) : option nat :=
  indexOf (toLowerCase text) (toLowerCase phrase) 0.

Record Range : Type := { r_start : nat; r_end : nat }.

Record Hit : Type := { h_start : nat; h_end : nat; trigger : string }.

(** The comparator [(a, b) => a.start - b.start]. *)
Definition earlier (y x : Range) : bool := r_start y <? r_start x.

(** The loop of [mergeRanges] with [last] the last element of [merged]. *)
Fixpoint merge_from (last : Range) (rest : list Range) : list Range :=
  match rest with
  | [] => [last]
  | cur :: rest' =>
      if r_start cur <=? r_end last + 1
      then merge_from {| r_start := r_start last;
                         r_end := Nat.max (r_end last) (r_end cur) |} rest'
      else last :: merge_from cur rest'
  end.

Definition mergeRanges (ranges : list Range) : list Range :=
  match sort_by earlier ranges with
  | [] => []
  | first :: rest => merge_from first rest
  end.

Definition no_segment : Segment :=
  {| seg_text := ""; seg_start := 0; seg_end := 0 |}.

Definition has_phrase (text phrase : string) : bool :=
  match indexOfPhrase text phrase with Some _ => true | None => false end.

(** What the loop over the segments pushes at index [i].  The indices [lo]
    and [hi] are within the array. *)
Definition hit_at (segments : list Segment) (window : nat)
    (triggers : list string) (i : nat) : option Hit :=
  let seg := nth i segments no_segment in
  match find (has_phrase (seg_text seg)) triggers with
  | Some phrase =>
      let lo := Nat.max 0 (i - window) in
      let hi := Nat.min (List.length segments - 1) (i + window) in
      Some {| h_start := seg_start (nth lo segments no_segment);
              h_end := seg_end (nth hi segments no_segment);
              trigger := phrase |}
  | None => None
  end.

Definition hitRanges (segments : list Segment) (window : nat)
    (triggers : list string) : list Hit :=
  keep_found (hit_at segments window triggers)
             (seq 0 (List.length segments)).

Definition passage_of (fullText subject : string) (hits : list Hit)
    (triggers : list string) (range : Range) : option ExtractedPassage :=
  let text := trim (slice fullText (r_start range) (r_end range)) in
  if nonempty text then
    let found :=
      find (fun h => (h_start h =? r_start range)
                     || ((h_end h =? r_end range)
                         && (h_start h <=? r_start range))) hits in
    Some {| p_start := r_start range;
            p_end := r_end range;
            p_text := text;
            triggerMatched :=
              match found with
              | Some h => trigger h
              | None => hd "" triggers
              end;
            subjectId := subject |}
  else None.

Definition triggers_for (subject : string) : list string :=
  match SUBJECT_TRIGGER_PHRASES subject with
  | Some l => l
  | None =>
      match SUBJECT_TRIGGER_PHRASES "migration" with
      | Some l => l
      | None => []
      end
  end.

Definition passages_of_segments (fullText subject : string)
    (triggers : list string) (window : nat) (segments : list Segment)
    : list ExtractedPassage :=
  let hits := hitRanges segments window triggers in
  let merged :=
    mergeRanges
      (map (fun h => {| r_start := h_start h; r_end := h_end h |}) hits) in
  keep_found (passage_of fullText subject hits triggers) merged.

(** [extractPassagesForSubject(fullText, subjectId, options)]; [None] only
    if a segmentation loop were to run out of turns. *)
Definition extractPassagesForSubject (fullText subject : string)
    (options : PassageExtractorOptions) : option (list ExtractedPassage) :=
  let triggers := triggers_for subject in
  match triggers with
  | [] => Some []
  | _ :: _ =>
      let window := opt_sentenceWindow options in
      let segments :=
        if opt_useParagraphs options then getParagraphs fullText
        else getSentences fullText in
      option_map (passages_of_segments fullText subject triggers window)
                 segments
  end.

End Passages.

(* ------------------------------------------------------------------ *)
(** * Properties of the passage extractor *)

Module PassageProps.

Import Text Passages.

Local Open Scope nat_scope.

(** Segments follow one another from offset [lo] on, each non-empty. *)
Fixpoint chain (lo : nat) (segments : list Segment) : Prop :=
  match segments with
  | [] => True
  | s :: rest => lo <= seg_start s /\ seg_start s < seg_end s /\ chain (seg_end s) rest
  end.

Definition wf_range (r : Range) : Prop := r_start r < r_end r.

(** The next range starts more than one character after the end of this
    one. *)
Definition apart (a b : Range) : Prop := r_end a + 1 < r_start b.

Definition gap_over_one (p q : ExtractedPassage) : Prop :=
  p_end p + 1 < p_start q.

Definition covers (p : ExtractedPassage) (x : nat) : Prop :=
  p_start p <= x < p_end p.

Lemma chain_weaken (lo lo' : nat) (segments : list Segment) :
  lo' <= lo -> chain lo segments -> chain lo' segments.
Proof. destruct segments; simpl; [tauto|]. intros H [H1 H2]. split; [lia|exact H2]. Qed.

Lemma getSentences_from_chain (fuel : nat) (text : string) :
  forall pos segments,
    getSentences_from fuel text pos = Some segments -> chain pos segments.
Proof.
  induction fuel as [|fuel IH]; intros pos segments; cbn [getSentences_from].
  - destruct (String.length text <=? pos); intro H; inversion H. exact I.
  - destruct (String.length text <=? pos) eqn:Hlen.
    + intro H; inversion H. exact I.
    + apply Nat.leb_gt in Hlen.
      set (end1 := match indexOf text ". " pos with
                   | Some k => Nat.min (String.length text) (k + 1)
                   | None => String.length text end).
      set (end2 := match indexOf text newline pos with
                   | Some k => Nat.min end1 (k + 1)
                   | None => end1 end).
      assert (Hend1 : pos < end1).
      { unfold end1. destruct (indexOf text ". " pos) eqn:E; [|lia].
        apply index_bounds in E. lia. }
      assert (Hend2 : pos < end2 /\ end2 <= String.length text).
      { unfold end2. destruct (indexOf text newline pos) eqn:E.
        - apply index_bounds in E. unfold end1 in *.
          destruct (indexOf text ". " pos); lia.
        - unfold end1 in *. destruct (indexOf text ". " pos); lia. }
      destruct (getSentences_from fuel text
                  (if end2 <? String.length text then end2
                   else String.length text)) as [rest|] eqn:Erec;
        [|discriminate].
      apply IH in Erec.
      assert (Hrest : chain end2 rest).
      { destruct (end2 <? String.length text) eqn:El; [exact Erec|].
        apply Nat.ltb_ge in El. eapply chain_weaken; [|exact Erec]. lia. }
      intro H. inversion H; subst; clear H.
      destruct (nonempty (trim (slice text pos end2))).
      * simpl. repeat split; [lia|lia|exact Hrest].
      * eapply chain_weaken; [|exact Hrest]. lia.
Qed.

Lemma getSentences_from_total (fuel : nat) (text : string) :
  forall pos, String.length text - pos <= fuel ->
    exists segments, getSentences_from fuel text pos = Some segments.
Proof.
  induction fuel as [|fuel IH]; intros pos Hfuel; cbn [getSentences_from].
  - assert ((String.length text <=? pos) = true) as -> by (apply Nat.leb_le; lia).
    now exists [].
  - destruct (String.length text <=? pos) eqn:Hlen; [now exists []|].
    apply Nat.leb_gt in Hlen.
    set (end1 := match indexOf text ". " pos with
                 | Some k => Nat.min (String.length text) (k + 1)
                 | None => String.length text end).
    set (end2 := match indexOf text newline pos with
                 | Some k => Nat.min end1 (k + 1)
                 | None => end1 end).
    assert (Hend2 : pos < end2).
    { unfold end2, end1.
      destruct (indexOf text newline pos) eqn:E1;
        destruct (indexOf text ". " pos) eqn:E2;
        try apply index_bounds in E1; try apply index_bounds in E2; lia. }
    destruct (IH (if end2 <? String.length text then end2
                  else String.length text)) as [rest Hrest].
    { destruct (end2 <? String.length text); lia. }
    rewrite Hrest. eauto.
Qed.

Lemma getParagraphs_from_chain (fuel : nat) (text : string) :
  forall pos segments,
    getParagraphs_from fuel text pos = Some segments -> chain pos segments.
Proof.
  induction fuel as [|fuel IH]; intros pos segments; cbn [getParagraphs_from].
  - destruct (String.length text <=? pos); intro H; inversion H. exact I.
  - destruct (String.length text <=? pos) eqn:Hlen.
    + intro H; inversion H. exact I.
    + apply Nat.leb_gt in Hlen.
      destruct (indexOf text (newline ++ newline) pos) as [k|] eqn:E.
      * apply index_bounds in E.
        destruct (getParagraphs_from fuel text (k + 2)) as [rest|] eqn:Erec;
          [|discriminate].
        apply IH in Erec. intro H. inversion H; subst; clear H.
        destruct (nonempty (trim (slice text pos k))) eqn:Hne.
        -- apply slice_nonempty in Hne. simpl. repeat split; [lia|lia|].
           eapply chain_weaken; [|exact Erec]. lia.
        -- eapply chain_weaken; [|exact Erec]. lia.
      * destruct (getParagraphs_from fuel text (String.length text))
          as [rest|] eqn:Erec; [|discriminate].
        apply IH in Erec. intro H. inversion H; subst; clear H.
        destruct (nonempty (trim (slice text pos (String.length text)))).
        -- simpl. repeat split; [lia|lia|exact Erec].
        -- eapply chain_weaken; [|exact Erec]. lia.
Qed.

Lemma getParagraphs_from_total (fuel : nat) (text : string) :
  forall pos, String.length text - pos <= fuel ->
    exists segments, getParagraphs_from fuel text pos = Some segments.
Proof.
  induction fuel as [|fuel IH]; intros pos Hfuel; cbn [getParagraphs_from].
  - assert ((String.length text <=? pos) = true) as -> by (apply Nat.leb_le; lia).
    now exists [].
  - destruct (String.length text <=? pos) eqn:Hlen; [now exists []|].
    apply Nat.leb_gt in Hlen.
    destruct (indexOf text (newline ++ newline) pos) as [k|] eqn:E.
    + apply index_bounds in E.
      destruct (IH (k + 2)) as [rest Hrest]; [lia|].
      rewrite Hrest. eauto.
    + destruct (IH (String.length text)) as [rest Hrest]; [lia|].
      rewrite Hrest. eauto.
Qed.

Lemma chain_lower (lo : nat) (segments : list Segment) (j : nat) :
  chain lo segments -> j < List.length segments ->
  lo <= seg_start (nth j segments no_segment)
  /\ seg_start (nth j segments no_segment) < seg_end (nth j segments no_segment).
Proof.
  revert lo j. induction segments as [|s rest IH]; intros lo j; simpl.
  - lia.
  - intros (H1 & H2 & H3) Hj. destruct j as [|j]; [lia|].
    destruct (IH (seg_end s) j H3) as [Ha Hb]; lia.
Qed.

Lemma chain_monotone (lo : nat) (segments : list Segment) (i j : nat) :
  chain lo segments -> i <= j -> j < List.length segments ->
  seg_start (nth i segments no_segment) <= seg_start (nth j segments no_segment)
  /\ seg_end (nth i segments no_segment) <= seg_end (nth j segments no_segment).
Proof.
  revert lo i j. induction segments as [|s rest IH]; intros lo i j; simpl.
  - lia.
  - intros (H1 & H2 & H3) Hij Hj. destruct j as [|j].
    + assert (i = 0) as -> by lia. lia.
    + destruct i as [|i].
      * destruct (chain_lower (seg_end s) rest j H3) as [Ha Hb]; lia.
      * apply (IH (seg_end s)); [exact H3|lia|lia].
Qed.

Lemma hit_at_wf (lo : nat) (segments : list Segment) (window : nat)
    (triggers : list string) (i : nat) (h : Hit) :
  chain lo segments -> i < List.length segments ->
  hit_at segments window triggers i = Some h -> h_start h < h_end h.
Proof.
  intros Hc Hi. unfold hit_at.
  destruct (find (has_phrase (seg_text (nth i segments no_segment))) triggers);
    [|discriminate].
  intro H. inversion H; subst; clear H. cbn [h_start h_end].
  destruct (chain_monotone lo segments (Nat.max 0 (i - window)) i Hc)
    as [Ha _]; [lia|lia|].
  change (Nat.max 0 (i - window)) with (i - window) in Ha.
  destruct (chain_monotone lo segments i
              (Nat.min (List.length segments - 1) (i + window)) Hc)
    as [_ Hb]; [lia|lia|].
  destruct (chain_lower lo segments i Hc Hi) as [_ Hd]. lia.
Qed.

Lemma hitRanges_wf (lo : nat) (segments : list Segment) (window : nat)
    (triggers : list string) :
  chain lo segments ->
  Forall wf_range
    (map (fun h => {| r_start := h_start h; r_end := h_end h |})
         (hitRanges segments window triggers)).
Proof.
  intro Hc. apply Forall_forall. intros r Hr.
  apply in_map_iff in Hr. destruct Hr as [h [<- Hh]].
  apply keep_found_In in Hh. destruct Hh as [i [Hi Hh]].
  apply in_seq in Hi. unfold wf_range; simpl.
  eapply hit_at_wf; [exact Hc| |exact Hh]. lia.
Qed.

(** The merge loop: whatever the order of its input, each range it emits
    starts more than one character after the end of the one before. *)
Lemma merge_from_apart (rest : list Range) :
  forall last, wf_range last -> Forall wf_range rest ->
    exists first others,
      merge_from last rest = first :: others
      /\ r_start first = r_start last
      /\ Forall wf_range (first :: others)
      /\ Sorted apart (first :: others).
Proof.
  induction rest as [|cur rest IH]; intros last Hlast Hrest; simpl.
  - exists last, []. repeat split; auto.
  - inversion Hrest as [|? ? Hcur Hrest']; subst.
    destruct (r_start cur <=? r_end last + 1) eqn:Hle.
    + destruct (IH {| r_start := r_start last;
                      r_end := Nat.max (r_end last) (r_end cur) |})
        as (first & others & Heq & Hst & Hwf & Hs).
      * unfold wf_range in *; simpl; lia.
      * exact Hrest'.
      * exists first, others. repeat split; auto.
    + apply Nat.leb_gt in Hle.
      destruct (IH cur Hcur Hrest') as (first & others & Heq & Hst & Hwf & Hs).
      exists last, (first :: others). rewrite Heq. repeat split; auto.
      constructor; [exact Hs|]. constructor. unfold apart. lia.
Qed.

Lemma mergeRanges_apart (ranges : list Range) :
  Forall wf_range ranges ->
  Forall wf_range (mergeRanges ranges) /\ Sorted apart (mergeRanges ranges).
Proof.
  intro Hwf. unfold mergeRanges.
  assert (Hs : Forall wf_range (sort_by earlier ranges)).
  { apply Forall_forall. intros r Hr. apply sort_by_In in Hr.
    rewrite Forall_forall in Hwf. now apply Hwf. }
  destruct (sort_by earlier ranges) as [|first rest]; [split; constructor|].
  inversion Hs; subst.
  destruct (merge_from_apart rest first) as (f & o & Heq & _ & Hf & Ho); auto.
  rewrite Heq. now split.
Qed.

(** Among non-empty ranges, consecutive separation is separation of every
    earlier range from every later one. *)
Lemma apart_all_pairs (l : list Range) :
  Forall wf_range l -> Sorted apart l -> StronglySorted apart l.
Proof.
  induction l as [|a l IH]; intros Hwf Hs; [constructor|].
  inversion Hwf as [|? ? Ha Hl]; subst.
  inversion Hs as [|? ? Hs' Hhd]; subst.
  specialize (IH Hl Hs'). constructor; [exact IH|].
  destruct l as [|b l]; [constructor|].
  inversion Hhd as [|? ? Hab]; subst.
  inversion IH as [|? ? _ Hall]; subst.
  inversion Hl as [|? ? Hb _]; subst.
  constructor; [exact Hab|].
  eapply Forall_impl; [|exact Hall].
  intros c Hbc. unfold apart, wf_range in *. lia.
Qed.

Lemma passage_of_bounds (fullText subject : string) (hits : list Hit)
    (triggers : list string) (range : Range) (p : ExtractedPassage) :
  passage_of fullText subject hits triggers range = Some p ->
  p_start p = r_start range /\ p_end p = r_end range.
Proof.
  unfold passage_of.
  destruct (nonempty (trim (slice fullText (r_start range) (r_end range))));
    [|discriminate].
  intro H. inversion H; subst. simpl. auto.
Qed.

Lemma passages_strongly_sorted (fullText subject : string) (hits : list Hit)
    (triggers : list string) (merged : list Range) :
  Forall wf_range merged -> StronglySorted apart merged ->
  let ps := keep_found (passage_of fullText subject hits triggers) merged in
  Forall (fun p => p_start p < p_end p) ps /\ StronglySorted gap_over_one ps.
Proof.
  induction merged as [|r rest IH]; intros Hwf Hs; simpl.
  - split; constructor.
  - inversion Hwf as [|? ? Hr Hrest]; subst.
    inversion Hs as [|? ? Hs' Hall]; subst.
    destruct (IH Hrest Hs') as [IH1 IH2].
    destruct (passage_of fullText subject hits triggers r) as [p|] eqn:E;
      [|split; assumption].
    apply passage_of_bounds in E. destruct E as [E1 E2].
    split; constructor; auto.
    + unfold wf_range in Hr. lia.
    + apply Forall_forall. intros q Hq.
      apply keep_found_In in Hq. destruct Hq as [r' [Hr' Hq]].
      apply passage_of_bounds in Hq. destruct Hq as [Q1 Q2].
      rewrite Forall_forall in Hall. specialize (Hall r' Hr').
      unfold gap_over_one, apart in *. lia.
Qed.

Lemma gap_nth_order (ps : list ExtractedPassage) :
  StronglySorted gap_over_one ps ->
  forall i j p q, i < j -> nth_error ps i = Some p -> nth_error ps j = Some q ->
    gap_over_one p q.
Proof.
  induction 1 as [|a l Hs IH Hall]; intros i j p q Hij Hi Hj.
  - destruct i; discriminate.
  - destruct j as [|j]; [lia|]. simpl in Hj.
    destruct i as [|i]; simpl in Hi.
    + inversion Hi; subst. rewrite Forall_forall in Hall.
      apply Hall. eapply nth_error_In; eassumption.
    + apply (IH i j); [lia|assumption|assumption].
Qed.

Lemma passages_of_segments_sound (fullText subject : string)
    (triggers : list string) (window lo : nat) (segments : list Segment) :
  chain lo segments ->
  let ps := passages_of_segments fullText subject triggers window segments in
  Forall (fun p => p_start p < p_end p) ps /\ StronglySorted gap_over_one ps.
Proof.
  intro Hc. unfold passages_of_segments.
  destruct (mergeRanges_apart _ (hitRanges_wf lo segments window triggers Hc))
    as [Hwf Hs].
  apply passages_strongly_sorted; [exact Hwf|].
  now apply apart_all_pairs.
Qed.

(** Both segmentations run to the end of the text and give segments that
    follow one another. *)
Lemma segmentation_total (fullText : string) (paragraphs : bool) :
  exists segments,
    (if paragraphs then getParagraphs fullText else getSentences fullText)
      = Some segments
    /\ chain 0 segments.
Proof.
  destruct paragraphs.
  - destruct (getParagraphs_from_total (String.length fullText) fullText 0)
      as [segments H]; [lia|].
    exists segments. split; [exact H|].
    eapply getParagraphs_from_chain; exact H.
  - destruct (getSentences_from_total (String.length fullText) fullText 0)
      as [segments H]; [lia|].
    exists segments. split; [exact H|].
    eapply getSentences_from_chain; exact H.
Qed.

(** C9.  For every text, subject and window, [extractPassagesForSubject]
    returns a list of passages; each passage is a non-empty range, every
    passage lies more than one character after the end of every passage
    before it (so the list is sorted and the ranges do not overlap or
    touch), no passage occurs twice, and no character position is covered by
    two of them. *)
Theorem extractPassages_separated :
  forall (fullText subject : string) (options : PassageExtractorOptions),
  exists ps,
    extractPassagesForSubject fullText subject options = Some ps
    /\ Forall (fun p => p_start p < p_end p) ps
    /\ StronglySorted gap_over_one ps
    /\ NoDup ps
    /\ (forall i j p q x,
          nth_error ps i = Some p -> nth_error ps j = Some q ->
          covers p x -> covers q x -> i = j).
Proof.
  intros fullText subject options.
  assert (Hmain : exists ps,
    extractPassagesForSubject fullText subject options = Some ps
    /\ Forall (fun p => p_start p < p_end p) ps
    /\ StronglySorted gap_over_one ps).
  { unfold extractPassagesForSubject.
    destruct (triggers_for subject) as [|t ts] eqn:Et.
    - exists []. repeat split; constructor.
    - destruct (segmentation_total fullText (opt_useParagraphs options))
        as (segments & Hseg & Hc).
      rewrite Hseg. simpl.
      eexists. split; [reflexivity|].
      exact (passages_of_segments_sound fullText subject (t :: ts)
               (opt_sentenceWindow options) 0 segments Hc). }
  destruct Hmain as (ps & Heq & Hne & Hs).
  exists ps. split; [exact Heq|]. split; [exact Hne|]. split; [exact Hs|].
  assert (Hdisj : forall i j p q x,
    nth_error ps i = Some p -> nth_error ps j = Some q ->
    covers p x -> covers q x -> i = j).
  { intros i j p q x Hi Hj Hp Hq.
    destruct (Nat.lt_trichotomy i j) as [Hlt|[Heq'|Hgt]]; [|exact Heq'|].
    - pose proof (gap_nth_order ps Hs i j p q Hlt Hi Hj) as Hg.
      unfold gap_over_one, covers in *. lia.
    - pose proof (gap_nth_order ps Hs j i q p Hgt Hj Hi) as Hg.
      unfold gap_over_one, covers in *. lia. }
  split; [|exact Hdisj].
  apply (proj2 (NoDup_nth_error ps)). intros i j Hi Hij.
  destruct (nth_error ps i) as [p|] eqn:Ep.
  - symmetry in Hij.
    assert (Hp : p_start p < p_end p).
    { rewrite Forall_forall in Hne. apply Hne.
      eapply nth_error_In; exact Ep. }
    apply (Hdisj i j p p (p_start p) Ep Hij); unfold covers; lia.
  - apply nth_error_None in Ep. lia.
Qed.

End PassageProps.

(* ------------------------------------------------------------------ *)
(** * Properties of the keyword classification path *)

Module ClassifierProps.

Import Taxonomy Types Text Num Classifier.

Local Open Scope string_scope.
Local Open Scope Q_scope.

Definition in_band (x : Q) : Prop := 0.3 <= x /\ x <= 0.95.

Definition in_catalog (r : PipelineRespectId) : Prop :=
  In r PIPELINE_RESPECT_IDS.

Lemma catalog_complete (r : PipelineRespectId) : in_catalog r.
Proof. unfold in_catalog. destruct r; simpl; tauto. Qed.

Lemma Qle_const (x y : Q) : Qle_bool x y = true -> x <= y.
Proof. apply Qle_bool_iff. Qed.

Lemma in_band_decide (x : Q) :
  Qle_bool 0.3 x && Qle_bool x 0.95 = true -> in_band x.
Proof.
  intro H. apply andb_true_iff in H. destruct H as [H1 H2].
  split; now apply Qle_bool_iff.
Qed.

Lemma in_band_eq (x y : Q) : x == y -> in_band y -> in_band x.
Proof. intros E [H1 H2]. split; rewrite E; assumption. Qed.

Lemma clamp_in_band (x : Q) : in_band (clamp x 0.3 0.95).
Proof.
  unfold clamp. split.
  - apply Qmin2_glb; [now apply Qle_const|apply Qmax2_lub_l].
  - apply Qmin2_glb_l.
Qed.

Lemma normalizeConfidence_in_band (s m : Q) : in_band (normalizeConfidence s m).
Proof.
  unfold normalizeConfidence. destruct (Qle_bool m 0).
  - now apply in_band_decide.
  - apply clamp_in_band.
Qed.

(** With a positive top score the confidence is the clamped ratio. *)
Lemma normalizeConfidence_clamp (s m : Q) :
  0 < m -> normalizeConfidence s m = clamp (s / Qmax2 m 3) 0.3 0.95.
Proof.
  intro Hm. unfold normalizeConfidence.
  destruct (Qle_bool m 0) eqn:E; [|reflexivity].
  apply Qle_bool_iff in E. exfalso. eapply Qlt_not_le; eassumption.
Qed.

(** Every entry of [scoreText] is the score of a catalog entry, and is
    positive. *)
Lemma scoreText_entry (text : string) (s : Scored) :
  In s (scoreText text) ->
  0 < score s /\ exists r, In r PIPELINE_RESPECTS /\ sc_respect s = r_id r.
Proof.
  unfold scoreText. intro H. apply sort_by_In in H.
  apply filter_In in H. destruct H as [H Hpos].
  apply Qltb_lt in Hpos. split; [exact Hpos|].
  apply in_map_iff in H. destruct H as [r [<- Hr]].
  exists r. split; [exact Hr|reflexivity].
Qed.

Lemma scoreText_top (text : string) (top : Scored) (rest : list Scored) :
  scoreText text = top :: rest -> 0 < score top /\ in_catalog (sc_respect top).
Proof.
  intro E. destruct (scoreText_entry text top) as [Hpos [r [Hr Hid]]].
  - rewrite E. now left.
  - split; [exact Hpos|]. unfold in_catalog, PIPELINE_RESPECT_IDS.
    rewrite Hid. now apply in_map.
Qed.

Definition first_pattern (text : string) : option (list string * PipelineRespectId) :=
  find (fun e => test_any (fst e) text) POLL_RESPECT_MAP.

Definition metric_backlog : RawMetricItem :=
  {| metric_id := "asylum_backlog";
     metric_label := "Asylum backlog";
     unit := "cases";
     latest_value := 90000;
     previous_value := 95000;
     period := "2024-Q4";
     updated_at := "2025-02-27T00:00:00.000Z";
     source_ref := None |}.

(** C7, as stated, fails.  The metric labelled "Asylum backlog" matches
    seeds (the top entry scores 4), yet its confidence is the constant 0.7
    and not the clamped ratio, which is 0.95. *)
Lemma keyword_confidence_not_clamped :
  exists top rest,
    scoreText (metric_text metric_backlog) = top :: rest
    /\ Qeq_bool
         (confidence (classifyMetricItem "2025-03-01T00:00:00.000Z"
                        "small_boats" metric_backlog))
         (clamp (score top / Qmax2 (score top) 3) 0.3 0.95) = false.
Proof.
  eexists. eexists. split; [vm_compute; reflexivity|]. vm_compute. reflexivity.
Qed.

(** C7, amended.  Every item classified by the keyword path has confidence
    in [0.3, 0.95] and a framing of the catalog.  A media item takes the top
    scored framing with the clamped ratio [score / max(score, 3)], and
    [security_border] with 0.5 when no seed matches.  A poll that matches a
    pattern of [POLL_RESPECT_MAP] takes the framing of the first such pattern
    with confidence 0.65, whatever the seeds; otherwise it is classified as a
    media item is.  A metric takes the top scored framing with confidence 0.7,
    and [capacity_delivery] with 0.5 when no seed matches. *)
Theorem keyword_path_confidence :
  forall (now_iso subject : string),
    (forall item : RawMediaItem,
        let c := classifyMediaItem now_iso subject item in
        in_band (confidence c) /\ in_catalog (respect_id c)
        /\ match scoreText (media_text item) with
           | top :: _ =>
               respect_id c = sc_respect top
               /\ confidence c = clamp (score top / Qmax2 (score top) 3) 0.3 0.95
           | [] => respect_id c = security_border /\ confidence c = 0.5
           end)
    /\ (forall item : RawPollItem,
        let c := classifyPollItem now_iso subject item in
        in_band (confidence c) /\ in_catalog (respect_id c)
        /\ match first_pattern (poll_text item) with
           | Some (_, r) => respect_id c = r /\ confidence c = 0.65
           | None =>
               match scoreText (poll_text item) with
               | top :: _ =>
                   respect_id c = sc_respect top
                   /\ confidence c
                      = clamp (score top / Qmax2 (score top) 3) 0.3 0.95
               | [] => respect_id c = security_border /\ confidence c = 0.5
               end
           end)
    /\ (forall item : RawMetricItem,
        let c := classifyMetricItem now_iso subject item in
        in_band (confidence c) /\ in_catalog (respect_id c)
        /\ match scoreText (metric_text item) with
           | top :: _ => respect_id c = sc_respect top /\ confidence c = 0.7
           | [] => respect_id c = capacity_delivery /\ confidence c = 0.5
           end).
Proof.
  intros now_iso subject. split; [|split].
  - intros item c. subst c. unfold classifyMediaItem. cbn [confidence respect_id].
    destruct (scoreText (media_text item)) as [|top rest] eqn:E; cbn [hd_error].
    + split; [now apply in_band_decide|]. split; [apply catalog_complete|].
      split; reflexivity.
    + destruct (scoreText_top _ _ _ E) as [Hpos Hcat].
      rewrite (normalizeConfidence_clamp (score top) (score top) Hpos).
      split; [apply clamp_in_band|]. split; [exact Hcat|]. split; reflexivity.
  - intros item c. subst c. unfold classifyPollItem, first_pattern.
    destruct (find (fun e => test_any (fst e) (poll_text item)) POLL_RESPECT_MAP)
      as [[pats r]|] eqn:F; cbn [confidence respect_id].
    + split; [now apply in_band_decide|]. split; [apply catalog_complete|].
      split; reflexivity.
    + destruct (scoreText (poll_text item)) as [|top rest] eqn:E; cbn [hd_error].
      * split; [now apply in_band_decide|]. split; [apply catalog_complete|].
        split; reflexivity.
      * destruct (scoreText_top _ _ _ E) as [Hpos Hcat].
        rewrite (normalizeConfidence_clamp (score top) (score top) Hpos).
        split; [apply clamp_in_band|]. split; [exact Hcat|]. split; reflexivity.
  - intros item c. subst c. unfold classifyMetricItem. cbn [confidence respect_id].
    destruct (scoreText (metric_text item)) as [|top rest] eqn:E; cbn [hd_error].
    + split; [now apply in_band_decide|]. split; [apply catalog_complete|].
      split; reflexivity.
    + destruct (scoreText_top _ _ _ E) as [Hpos Hcat].
      split; [now apply in_band_decide|]. split; [exact Hcat|]. split; reflexivity.
Qed.

End ClassifierProps.

(* ------------------------------------------------------------------ *)
(** * The oracle path and its fall-back *)

Module OracleProps.

Import Taxonomy Types Text Classifier Oracle.

Local Open Scope string_scope.

Definition headline : RawMediaItem :=
  {| m_id := "news_1";
     outlet := "BBC";
     media_type := None;
     title := "Crackdown on Channel crossings";
     lede := None;
     url := Some "https://www.bbc.co.uk/news/1";
     published_ms := 1740787200000;
     m_respect_id := None |}.

(** A request that throws is caught by the caller, which classifies the
    whole batch by keywords: one classified item per media item. *)
Lemma thrown_reply_falls_back (now_iso subject : string)
    (batch : list RawMediaItem) :
  classify_batch true TransportError now_iso subject batch
  = map (classifyMediaItem now_iso subject) batch.
Proof. destruct batch; reflexivity. Qed.

Lemma bad_shape_reply_falls_back (now_iso subject : string)
    (batch : list RawMediaItem) :
  classify_batch true BadShape now_iso subject batch
  = map (classifyMediaItem now_iso subject) batch.
Proof. destruct batch; reflexivity. Qed.

(** A reply that parses gives one classified item per media item. *)
Lemma oracle_items_length (now_iso subject : string)
    (entries : list (Z * string)) (batch : list RawMediaItem) (i : nat) :
  List.length (oracle_items now_iso subject entries i batch) = List.length batch.
Proof.
  revert i. induction batch as [|m rest IH]; intro i; simpl; [reflexivity|].
  now rewrite IH.
Qed.

(** C3: the code at the failing input.  A reply whose content is not JSON
    makes [classifyMediaWithLLM] return the empty array; nothing throws, so
    the caller does not fall back, and no item of the batch is classified:
    the batch of one headline yields no classified item, where the keyword
    path yields one. *)
Theorem unparseable_reply_drops_batch :
  classify_batch true Unparseable "2025-03-01T00:00:00.000Z" "small_boats"
    [headline] = []
  /\ List.length
       (map (classifyMediaItem "2025-03-01T00:00:00.000Z" "small_boats")
            [headline]) = 1%nat
  /\ classify_media true Unparseable "2025-03-01T00:00:00.000Z" "small_boats"
       [headline] = [].
Proof. repeat split. Qed.

(** The same for every non-empty batch. *)
Lemma unparseable_reply_classifies_nothing (now_iso subject : string)
    (m : RawMediaItem) (rest : list RawMediaItem) :
  classify_batch true Unparseable now_iso subject (m :: rest) = [].
Proof. reflexivity. Qed.

End OracleProps.

(* ------------------------------------------------------------------ *)
(** * Properties of the aggregators *)

Module AggregatorProps.

Import Taxonomy Types Text Num Aggregators.

Local Open Scope string_scope.
Local Open Scope Q_scope.

(** ** Sums of shares *)

Lemma Qsum_scaled {K : Type} (m : list (K * Q)) (total : Q) :
  Qsum (map snd (map (fun e => (fst e, snd e / total)) m))
  == Qsum (map snd m) / total.
Proof.
  induction m as [|[k v] rest IH]; simpl.
  - unfold Qsum; simpl. unfold Qdiv. ring.
  - rewrite !Qsum_cons, IH. unfold Qdiv. ring.
Qed.

Lemma Qsum_positive (l : list Q) :
  l <> [] -> Forall (fun x => 0 < x) l -> 0 < Qsum l.
Proof.
  induction l as [|x rest IH]; intros Hne Hall; [congruence|].
  inversion Hall as [|? ? Hx Hrest]; subst.
  rewrite Qsum_cons. destruct rest as [|y rest'].
  - unfold Qsum; simpl. now rewrite Qplus_0_r.
  - assert (0 < Qsum (y :: rest')) by (apply IH; [discriminate|exact Hrest]).
    rewrite <- (Qplus_0_r 0). apply Qplus_lt_le_compat; [exact Hx|].
    now apply Qlt_le_weak.
Qed.

Lemma or_one_nonzero (x : Q) : ~ x == 0 -> or_one x = x.
Proof.
  intro H. unfold or_one. destruct (Qeq_bool x 0) eqn:E; [|reflexivity].
  apply Qeq_bool_iff in E. contradiction.
Qed.

Lemma shares_of_sum (m : RespectMap.t) :
  Qsum (map snd (shares_of m))
  == Qsum (RespectMap.values m) / or_one (Qsum (RespectMap.values m)).
Proof.
  unfold shares_of.
  rewrite <- (Qsum_scaled m (or_one (Qsum (RespectMap.values m)))).
  apply Qsum_perm, Permutation_map, Permutation_sym, sort_by_perm.
Qed.

Lemma shares_of_nil_inv (m : RespectMap.t) : shares_of m = [] -> m = [].
Proof.
  unfold shares_of. intro H. apply sort_by_nil_inv in H.
  now apply map_eq_nil in H.
Qed.

(** ** Weights *)

Lemma recencyDecay_positive (d : Q) : 0 < recencyDecay d.
Proof.
  unfold recencyDecay.
  apply Qlt_le_trans with (y := 0.1); [reflexivity|apply Qmax2_lub_l].
Qed.

Lemma item_weight_positive (now : Z) (rawMedia : list RawMediaItem)
    (c : ClassifiedItem) :
  0 < confidence c -> 0 < item_weight now rawMedia c.
Proof.
  intro H. unfold item_weight.
  apply Qmult_lt_0_compat; [apply recencyDecay_positive|exact H].
Qed.

Lemma media_byRespect_sum (now : Z) (rawMedia : list RawMediaItem)
    (items : list ClassifiedItem) :
  forall m0,
    Qsum (RespectMap.values
            (fold_left
               (fun m c =>
                  RespectMap.bump (respect_id c) (item_weight now rawMedia c) m)
               items m0))
    == Qsum (RespectMap.values m0)
       + Qsum (map (item_weight now rawMedia) items).
Proof.
  induction items as [|c rest IH]; intro m0; simpl.
  - unfold Qsum at 3; simpl. ring.
  - rewrite IH, RespectMap.values_bump_sum, Qsum_cons. ring.
Qed.

Lemma media_total (now : Z) (rawMedia : list RawMediaItem)
    (items : list ClassifiedItem) :
  Qsum (RespectMap.values (media_byRespect now rawMedia items))
  == Qsum (map (item_weight now rawMedia) items).
Proof.
  unfold media_byRespect. rewrite media_byRespect_sum.
  unfold Qsum at 1; simpl. ring.
Qed.

Lemma media_total_positive (now : Z) (rawMedia : list RawMediaItem)
    (items : list ClassifiedItem) :
  items <> [] -> (forall c, In c items -> 0 < confidence c) ->
  0 < Qsum (RespectMap.values (media_byRespect now rawMedia items)).
Proof.
  intros Hne Hpos. rewrite media_total. apply Qsum_positive.
  - intro H. apply map_eq_nil in H. contradiction.
  - apply Forall_forall. intros x Hx. apply in_map_iff in Hx.
    destruct Hx as [c [<- Hc]]. apply item_weight_positive. now apply Hpos.
Qed.

(** ** Concrete inputs *)

Definition the_now : Z := 1740787200000.

Definition raw_headline (id headline_title : string) (published : Z)
    : RawMediaItem :=
  {| m_id := id;
     outlet := "BBC";
     media_type := None;
     title := headline_title;
     lede := None;
     url := None;
     published_ms := published;
     m_respect_id := None |}.

Definition classified_media (id : string) (r : PipelineRespectId) (conf : Q)
    : ClassifiedItem :=
  {| item_type := media;
     subject_id := "small_boats";
     item_id := id;
     respect_id := r;
     confidence := conf;
     rationale := [];
     extracted_phrases := [];
     timestamp := "2025-03-01T00:00:00.000Z" |}.

Definition one_raw : list RawMediaItem :=
  [raw_headline "n1" "Crackdown on crossings" (the_now - 86400000)].

(** ** The sum of the media shares *)




(** A call made by hand, with a confidence that no classifier of the
    pipeline gives: one classified media item of confidence 0 has weight 0,
    the total 0 is replaced by the floor 1, and the one share is 0. *)
Lemma zero_weight_takes_the_floor :
  let agg :=
    aggregate_media_framing the_now "small_boats"
      [classified_media "n1" security_border 0] one_raw 14 in
  map fst (shares agg) = [security_border]
  /\ Qsum (map snd (shares agg)) == 0.
Proof.
  cbv zeta. split; vm_compute; reflexivity.
Qed.

(** ** C10 *)

(** C10.  With no classified media item the media aggregate still reports a
    dominant framing, [security_border] with share 0.5; with no classified
    poll the public aggregate reports [public_prior] likewise. *)
Theorem empty_input_defaults :
  forall (now : Z) (subject : string)
         (forMedia forPolls : list ClassifiedItem)
         (rawMedia : list RawMediaItem) (rawPolls : list RawPollItem)
         (window_days window_months : nat),
    mediaClassified forMedia = [] ->
    pollClassified forPolls = [] ->
    dominant (aggregate_media_framing now subject forMedia rawMedia window_days)
    = (security_border, 0.5)
    /\ public_prior
         (aggregate_public_polling subject forPolls rawPolls window_months)
       = (security_border, 0.5).
Proof.
  intros now subject forMedia forPolls rawMedia rawPolls wd wm Hm Hp.
  unfold aggregate_media_framing, aggregate_public_polling.
  rewrite Hm, Hp. split; reflexivity.
Qed.

Lemma empty_input_defaults_witness :
  dominant (aggregate_media_framing the_now "small_boats" [] one_raw 14)
  = (security_border, 0.5)
  /\ public_prior (aggregate_public_polling "small_boats" [] [] 6)
     = (security_border, 0.5).
Proof.
  apply (empty_input_defaults the_now "small_boats" [] [] one_raw [] 14 6);
    reflexivity.
Defined.

(** ** C5: the option mapping of a poll *)

Definition is_some {A : Type} (o : option A) : bool :=
  match o with Some _ => true | None => false end.

Definition mapped_to (r : PipelineRespectId) (o : option PipelineRespectId)
    : bool :=
  match o with Some r' => respect_eqb r' r | None => false end.

(** The result shares of the options that the selector [sel] takes, from
    option [i] on, with [0] for a missing result. *)
Fixpoint option_pcts (sel : option PipelineRespectId -> bool)
    (results : list Q) (i : nat) (opts : list string) : list Q :=
  match opts with
  | [] => []
  | opt :: rest =>
      (if sel (option_respect opt) then [nth i results 0] else [])
      ++ option_pcts sel results (S i) rest
  end.

Lemma add_share_at_same (r : PipelineRespectId) (pct : Q) (out : list Share) :
  RespectMap.at_key r (add_share r pct out) == RespectMap.at_key r out + pct.
Proof.
  unfold RespectMap.at_key. induction out as [|[r' s] rest IH]; simpl.
  - rewrite respect_eqb_refl. ring.
  - destruct (respect_eqb r' r) eqn:E; simpl; rewrite E; [reflexivity|exact IH].
Qed.

Lemma add_share_at_other (r r0 : PipelineRespectId) (pct : Q) (out : list Share) :
  r0 <> r ->
  RespectMap.at_key r0 (add_share r pct out) = RespectMap.at_key r0 out.
Proof.
  intro Hne. unfold RespectMap.at_key.
  induction out as [|[r' s] rest IH]; simpl.
  - assert (respect_eqb r r0 = false) as ->
      by (apply respect_eqb_neq; congruence).
    reflexivity.
  - destruct (respect_eqb r' r) eqn:E; simpl.
    + apply respect_eqb_eq in E. subst r'.
      assert (respect_eqb r r0 = false) as ->
        by (apply respect_eqb_neq; congruence).
      reflexivity.
    + destruct (respect_eqb r' r0); [reflexivity|exact IH].
Qed.

Lemma add_share_sum (r : PipelineRespectId) (pct : Q) (out : list Share) :
  Qsum (map snd (add_share r pct out)) == Qsum (map snd out) + pct.
Proof.
  induction out as [|[r' s] rest IH]; simpl.
  - rewrite Qsum_cons. unfold Qsum; simpl. ring.
  - destruct (respect_eqb r' r); simpl; rewrite !Qsum_cons; [ring|].
    rewrite IH. ring.
Qed.

Lemma add_share_not_nil (r : PipelineRespectId) (pct : Q) (out : list Share) :
  add_share r pct out <> [].
Proof. destruct out as [|[r' s] rest]; simpl; [|destruct (respect_eqb r' r)]; discriminate. Qed.

Lemma map_options_at (results : list Q) (r : PipelineRespectId)
    (opts : list string) :
  forall i out,
    RespectMap.at_key r (map_options results i opts out)
    == RespectMap.at_key r out
       + Qsum (option_pcts (mapped_to r) results i opts).
Proof.
  induction opts as [|opt rest IH]; intros i out; simpl.
  - unfold Qsum; simpl. ring.
  - rewrite IH. destruct (option_respect opt) as [r'|]; simpl.
    + destruct (respect_eqb r' r) eqn:E; simpl.
      * apply respect_eqb_eq in E. subst r'.
        rewrite add_share_at_same, Qsum_cons. ring.
      * apply respect_eqb_neq in E.
        rewrite add_share_at_other by congruence. reflexivity.
    + reflexivity.
Qed.

Lemma map_options_sum (results : list Q) (opts : list string) :
  forall i out,
    Qsum (map snd (map_options results i opts out))
    == Qsum (map snd out) + Qsum (option_pcts is_some results i opts).
Proof.
  induction opts as [|opt rest IH]; intros i out; simpl.
  - unfold Qsum at 3; simpl. ring.
  - rewrite IH. destruct (option_respect opt) as [r'|]; simpl.
    + rewrite add_share_sum, Qsum_cons. ring.
    + reflexivity.
Qed.

Lemma map_options_keeps (results : list Q) (opts : list string) :
  forall i out, out <> [] -> map_options results i opts out <> [].
Proof.
  induction opts as [|opt rest IH]; intros i out Hne; simpl; [exact Hne|].
  apply IH. destruct (option_respect opt); [apply add_share_not_nil|exact Hne].
Qed.

Lemma map_options_none (results : list Q) (opts : list string) :
  forall i,
    existsb (fun opt => is_some (option_respect opt)) opts = false ->
    map_options results i opts [] = [].
Proof.
  induction opts as [|opt rest IH]; intros i H; simpl in *; [reflexivity|].
  apply orb_false_iff in H. destruct H as [H1 H2].
  destruct (option_respect opt); [discriminate|]. now apply IH.
Qed.

Lemma map_options_some (results : list Q) (opts : list string) :
  forall i out,
    existsb (fun opt => is_some (option_respect opt)) opts = true ->
    map_options results i opts out <> [].
Proof.
  induction opts as [|opt rest IH]; intros i out H; simpl in *; [discriminate|].
  destruct (option_respect opt) as [r|]; simpl in H.
  - apply map_options_keeps, add_share_not_nil.
  - now apply IH.
Qed.

Definition poll_tougher : RawPollItem :=
  {| p_id := "poll_1";
     pollster := "YouGov";
     question := "Do you support or oppose the government's approach?";
     options := ["Support tougher measures"; "Oppose"];
     results := [0.58; 0.42];
     fieldwork_dates := "2025-02-01 to 2025-02-03";
     p_published_at := "2025-02-05T00:00:00.000Z";
     p_url := None;
     sample_size := Some 2000 |}.

(** C5, as stated, fails.  The option "Oppose" matches no pattern and its
    share 0.42 goes nowhere: the poll maps to [security_border] at 0.58
    alone, and the mapped shares sum to 0.58, not to the 1.00 of the
    results. *)
Lemma unmatched_option_is_dropped :
  option_respect "Oppose" = None
  /\ mapPollToRespectShare poll_tougher = [(security_border, 0.58)]
  /\ ~ Qsum (map snd (mapPollToRespectShare poll_tougher))
        == Qsum (results poll_tougher).
Proof.
  split; [vm_compute; reflexivity|]. split; [vm_compute; reflexivity|].
  intro H. apply Qeq_bool_iff in H. vm_compute in H. discriminate.
Qed.

(** C5, amended.  Each option of a poll goes to the framing of the first
    pattern that matches it and adds its result share there; an option that
    matches no pattern adds nothing.  So every framing holds the sum of the
    shares of the options mapped to it, and the mapped shares sum to the
    shares of the options that match some pattern.  When no option matches
    any pattern the result is the single entry [security_border] at 0.5. *)
Theorem mapPoll_matched_options :
  forall poll : RawPollItem,
    let out := map_options (results poll) 0 (options poll) [] in
    (forall r,
        RespectMap.at_key r out
        == Qsum (option_pcts (mapped_to r) (results poll) 0 (options poll)))
    /\ Qsum (map snd out)
       == Qsum (option_pcts is_some (results poll) 0 (options poll))
    /\ mapPollToRespectShare poll
       = (if existsb (fun opt => is_some (option_respect opt)) (options poll)
          then out
          else [(security_border, 0.5)]).
Proof.
  intros poll out. subst out. split; [|split].
  - intro r. rewrite map_options_at.
    change (RespectMap.at_key r []) with 0. ring.
  - rewrite map_options_sum.
    change (Qsum (map snd (@nil Share))) with 0. ring.
  - unfold mapPollToRespectShare.
    destruct (existsb (fun opt => is_some (option_respect opt)) (options poll))
      eqn:E.
    + pose proof (map_options_some (results poll) (options poll) 0 [] E) as Hne.
      destruct (map_options (results poll) 0 (options poll) []);
        [congruence|reflexivity].
    + now rewrite map_options_none.
Qed.

(** ** C6: exemplars *)

(** What an exemplar carries: the fields of the raw item with its
    identifier, and the framing and confidence of the classified item. *)
Definition carries (rawMedia : list RawMediaItem)
    (items : list ClassifiedItem) (e : MediaExemplar) : Prop :=
  exists m c,
    find_media rawMedia (source_id e) = Some m
    /\ classifiedByItem_get items (source_id e) = Some c
    /\ ex_outlet e = outlet m
    /\ ex_title e = title m
    /\ ex_url e = url m
    /\ ex_published_ms e = published_ms m
    /\ ex_respect_id e = Some (respect_id c)
    /\ ex_confidence e = Some (confidence c).

(** The weights from the heaviest down. *)
Definition descending (a b : string * Q) : Prop := snd b <= snd a.

Definition ranked_weights (now : Z) (rawMedia : list RawMediaItem)
    (items : list ClassifiedItem) : list (string * Q) :=
  sort_by higher (media_itemWeights now rawMedia items).

Lemma firstn_In {A : Type} (n : nat) (l : list A) (x : A) :
  In x (firstn n l) -> In x l.
Proof.
  intro H. rewrite <- (firstn_skipn n l). apply in_or_app. now left.
Qed.

Lemma exemplars_at_most_five (now : Z) (subject : string)
    (classified : list ClassifiedItem) (rawMedia : list RawMediaItem)
    (window_days : nat) :
  (List.length
     (exemplars
        (aggregate_media_framing now subject classified rawMedia window_days))
   <= 5)%nat.
Proof.
  unfold aggregate_media_framing. cbn [exemplars].
  rewrite length_map, length_firstn.
  match goal with
  | |- (Nat.min 6 (List.length (keep_found ?f (firstn 5 ?l))) <= 5)%nat =>
      pose proof (keep_found_length f (firstn 5 l));
      pose proof (firstn_le_length 5 l)
  end.
  lia.
Qed.

Lemma find_media_id (rawMedia : list RawMediaItem) (id : string)
    (m : RawMediaItem) :
  find_media rawMedia id = Some m -> m_id m = id.
Proof.
  unfold find_media. intro H. apply find_some in H.
  destruct H as [_ H]. now apply String.eqb_eq.
Qed.

Lemma classifiedByItem_get_id (items : list ClassifiedItem) (id : string)
    (c : ClassifiedItem) :
  classifiedByItem_get items id = Some c -> item_id c = id.
Proof.
  induction items as [|c0 rest IH]; simpl; [discriminate|].
  destruct (classifiedByItem_get rest id) as [c'|].
  - intro H. inversion H; subst. now apply IH.
  - destruct (String.eqb (item_id c0) id) eqn:E; [|discriminate].
    intro H. inversion H; subst. now apply String.eqb_eq.
Qed.

Lemma classifiedByItem_get_found (items : list ClassifiedItem)
    (c : ClassifiedItem) :
  In c items -> exists c', classifiedByItem_get items (item_id c) = Some c'.
Proof.
  induction items as [|c0 rest IH]; simpl; [tauto|].
  intros [->|Hin].
  - destruct (classifiedByItem_get rest (item_id c)) as [c'|]; [eauto|].
    rewrite String.eqb_refl. eauto.
  - destruct (IH Hin) as [c' Hc']. rewrite Hc'. eauto.
Qed.

Lemma exemplars_of_found (rawMedia : list RawMediaItem)
    (items : list ClassifiedItem) (ws : list (string * Q)) :
  (forall w, In w ws ->
     (exists c, In c items /\ fst w = item_id c)
     /\ exists m, find_media rawMedia (fst w) = Some m) ->
  let ms := keep_found (fun w => find_media rawMedia (fst w)) ws in
  List.length ms = List.length ws
  /\ map source_id (map (exemplar_of items) ms) = map fst ws
  /\ Forall (carries rawMedia items) (map (exemplar_of items) ms).
Proof.
  induction ws as [|w rest IH]; intro H; simpl.
  - repeat split; constructor.
  - destruct (H w (or_introl eq_refl)) as [[c [Hc Hid]] [m Hm]].
    destruct IH as (IH1 & IH2 & IH3).
    { intros w' Hw'. apply H. now right. }
    rewrite Hm. simpl. pose proof (find_media_id _ _ _ Hm) as Hmid.
    split; [now rewrite IH1|]. split; [now rewrite IH2, Hmid|].
    constructor; [|exact IH3].
    destruct (classifiedByItem_get_found items c Hc) as [c' Hc'].
    exists m, c'. unfold exemplar_of; simpl.
    rewrite Hmid, Hid, Hc'. rewrite <- Hid, Hm. simpl. repeat split.
Qed.

Lemma ranked_weights_sorted (now : Z) (rawMedia : list RawMediaItem)
    (items : list ClassifiedItem) :
  StronglySorted descending (ranked_weights now rawMedia items).
Proof.
  unfold ranked_weights. apply sort_by_sorted; unfold descending, higher.
  - intros x y z Hxy Hyz. eapply Qle_trans; eassumption.
  - intros x y H. apply Qltb_lt in H. now apply Qlt_le_weak.
  - intros x y H. now apply Qltb_ge in H.
Qed.

Definition six_raw : list RawMediaItem :=
  [ raw_headline "n1" "Crackdown on crossings" (the_now - 1 * 86400000);
    raw_headline "n2" "Refugee charity warns of drowning" (the_now - 2 * 86400000);
    raw_headline "n3" "Court blocks removal flight" (the_now - 3 * 86400000);
    raw_headline "n4" "Asylum backlog grows" (the_now - 4 * 86400000);
    raw_headline "n5" "Border force intercepts boats" (the_now - 5 * 86400000);
    raw_headline "n6" "Ministers promise tougher measures" (the_now - 6 * 86400000) ].

Definition six_classified : list ClassifiedItem :=
  [ classified_media "n1" security_border 0.8;
    classified_media "n2" humanitarian 0.8;
    classified_media "n3" rule_of_law 0.8;
    classified_media "n4" capacity_delivery 0.8;
    classified_media "n5" security_border 0.8;
    classified_media "n6" security_border 0.8 ].

(** C6, as stated, fails.  Six classified media items, each with its raw
    item: the list of exemplars has five entries, the sixth item in weight
    order being left out. *)
Lemma six_items_five_exemplars :
  let agg :=
    aggregate_media_framing the_now "small_boats" six_classified six_raw 14 in
  List.length
    (filter (fun c => is_some (find_media six_raw (item_id c)))
            (mediaClassified six_classified)) = 6%nat
  /\ map source_id (exemplars agg) = ["n1"; "n2"; "n3"; "n4"; "n5"]
  /\ List.length (exemplars agg) <> 6%nat.
Proof.
  cbv zeta. split; [vm_compute; reflexivity|].
  split; [vm_compute; reflexivity|]. vm_compute. discriminate.
Qed.

(** C6, amended.  When every classified media item has a raw item with its
    identifier and there are at least 5 of them (so also with 6 or more),
    the list of exemplars has exactly 5 entries: the 5 heaviest items, in
    descending order of weight (recency weight times confidence), each with
    the outlet, title, URL and published time stamp of its raw item and the
    framing and confidence of its classification. *)
Theorem exemplars_top_five :
  forall (now : Z) (subject : string) (classified : list ClassifiedItem)
         (rawMedia : list RawMediaItem) (window_days : nat),
    let items := mediaClassified classified in
    let ranked := ranked_weights now rawMedia items in
    let agg :=
      aggregate_media_framing now subject classified rawMedia window_days in
    (forall c, In c items -> exists m, find_media rawMedia (item_id c) = Some m) ->
    (5 <= List.length items)%nat ->
    List.length (exemplars agg) = 5%nat
    /\ map source_id (exemplars agg) = map fst (firstn 5 ranked)
    /\ Permutation (media_itemWeights now rawMedia items) ranked
    /\ StronglySorted descending ranked
    /\ Forall (carries rawMedia items) (exemplars agg).
Proof.
  intros now subject classified rawMedia window_days items ranked agg Hraw Hlen.
  assert (Hranked : List.length ranked = List.length items).
  { unfold ranked, ranked_weights, media_itemWeights.
    now rewrite sort_by_length, length_map. }
  assert (Htop : List.length (firstn 5 ranked) = 5%nat).
  { rewrite length_firstn. lia. }
  destruct (exemplars_of_found rawMedia items (firstn 5 ranked))
    as (H1 & H2 & H3).
  { intros w Hw. apply firstn_In in Hw.
    unfold ranked, ranked_weights in Hw. apply sort_by_In in Hw.
    unfold media_itemWeights in Hw. apply in_map_iff in Hw.
    destruct Hw as [c [<- Hc]]. simpl. split; [eauto|]. now apply Hraw. }
  assert (Hex : exemplars agg
                = map (exemplar_of items)
                    (keep_found (fun w => find_media rawMedia (fst w))
                                (firstn 5 ranked))).
  { unfold agg, aggregate_media_framing. cbn [exemplars].
    fold items. fold (ranked_weights now rawMedia items). fold ranked.
    rewrite firstn_all2; [reflexivity|]. rewrite H1, Htop. lia. }
  rewrite Hex. split; [now rewrite length_map, H1|].
  split; [exact H2|].
  split; [apply sort_by_perm|].
  split; [apply ranked_weights_sorted|exact H3].
Qed.

Lemma exemplars_top_five_witness :
  List.length
    (exemplars
       (aggregate_media_framing the_now "small_boats" six_classified six_raw 14))
  = 5%nat.
Proof.
  refine (proj1
    (exemplars_top_five the_now "small_boats" six_classified six_raw 14 _ _)).
  - intros c Hc. simpl in Hc.
    repeat (destruct Hc as [<-|Hc]; [eexists; vm_compute; reflexivity|]).
    destruct Hc.
  - vm_compute. repeat constructor.
Defined.

End AggregatorProps.

(* ------------------------------------------------------------------ *)
(** * Properties of the dominance engine *)

Module DominanceProps.

Import Taxonomy Types Num Aggregators Dominance.

Local Open Scope string_scope.
Local Open Scope Q_scope.

(** The score of a framing in the map [scores], [0] when it has none. *)
Definition score_of (f : PipelineRespectId) (scores : RespectMap.t) : Q :=
  RespectMap.at_key f scores.

(** The share that a list of shares reports for a framing. *)
Definition reported_share (f : PipelineRespectId) (l : list Share) : Q :=
  RespectMap.at_key f l.

(** The score as the specification words it: over the sources, the share
    that the source reports for the framing times the weight of the source.
    The institutional source reports the whole of its one framing. *)
Definition spec_score (f : PipelineRespectId) (media : MediaFramingAggregate)
    (publicAgg : PublicPollingAggregate) (subject : string) : Q :=
  reported_share f (shares media) * MEDIA_WEIGHT
  + reported_share f (pp_shares publicAgg) * PUBLIC_WEIGHT
  + match INSTITUTIONAL_RESPECT_BY_SUBJECT subject with
    | Some inst =>
        (if respect_eqb (inst_respect inst) f then 1 else 0)
        * INSTITUTIONAL_WEIGHT
    | None => 0
    end.

(** What one source gives a framing: its weighted value when the framing
    is the one the source names, nothing otherwise. *)
Definition vote_for (f named : PipelineRespectId) (v : Q) : Q :=
  if respect_eqb named f then v else 0.

Definition three_way : list Share :=
  [(security_border, 0.5); (humanitarian, 0.42); (rule_of_law, 0.08)].

Definition media_abc : MediaFramingAggregate :=
  {| dominant := (security_border, 0.5);
     shares := three_way;
     exemplars := [];
     source_ids := ["n1"; "n2"; "n3"];
     volume := 3 |}.

Definition public_abc : PublicPollingAggregate :=
  {| public_prior := (security_border, 0.5);
     pp_shares := three_way;
     pp_source_ids := ["poll_1"] |}.

Lemma at_key_bump (f k : PipelineRespectId) (v : Q) (m : RespectMap.t) :
  RespectMap.at_key f (RespectMap.bump k v m)
  == RespectMap.at_key f m + vote_for f k v.
Proof.
  unfold vote_for. destruct (respect_eqb k f) eqn:E.
  - apply respect_eqb_eq in E. subst k.
    rewrite RespectMap.at_key_bump_same. reflexivity.
  - apply respect_eqb_neq in E.
    rewrite RespectMap.at_key_bump_other by congruence. ring.
Qed.

Lemma keys_bump (f k : PipelineRespectId) (v : Q) (m : RespectMap.t) :
  In f (map fst (RespectMap.bump k v m)) -> f = k \/ In f (map fst m).
Proof.
  unfold RespectMap.bump.
  generalize (match RespectMap.get k m with Some x => x | None => 0 end + v).
  intro x. induction m as [|[k' v'] rest IH]; simpl.
  - intros [<-|[]]. now left.
  - destruct (respect_eqb k' k) eqn:E; simpl.
    + tauto.
    + intros [<-|H]; [tauto|]. destruct (IH H); tauto.
Qed.

(** C1, as stated, fails.  The media and the public aggregate both report
    0.42 for [humanitarian], which by the specification scores
    0.42 * 0.45 + 0.42 * 0.35; the engine gives it no entry in the map of
    scores, since each source votes for its top framing only. *)
Lemma second_framing_gets_no_score :
  reported_share humanitarian (shares media_abc) == 0.42
  /\ reported_share humanitarian (pp_shares public_abc) == 0.42
  /\ RespectMap.get humanitarian (vote_scores media_abc public_abc "small_boats")
     = None
  /\ ~ score_of humanitarian (vote_scores media_abc public_abc "small_boats")
       == spec_score humanitarian media_abc public_abc "small_boats".
Proof.
  split; [vm_compute; reflexivity|]. split; [vm_compute; reflexivity|].
  split; [vm_compute; reflexivity|].
  intro H. apply Qeq_bool_iff in H. vm_compute in H. discriminate.
Qed.

(** C1, amended.  For every framing the score is the sum, over the three
    sources, of what the source gives it: the media aggregate gives its
    dominant framing that framing's share times 0.45, the public aggregate
    gives its public prior that share times 0.35, the institutional table
    gives the framing configured for the subject the weight 0.20; a source
    gives nothing to any other framing. *)
Theorem score_is_sum_of_top_votes :
  forall (media : MediaFramingAggregate) (publicAgg : PublicPollingAggregate)
         (subject : string) (f : PipelineRespectId),
    score_of f (vote_scores media publicAgg subject)
    == vote_for f (fst (dominant media)) (snd (dominant media) * MEDIA_WEIGHT)
       + vote_for f (fst (public_prior publicAgg))
           (snd (public_prior publicAgg) * PUBLIC_WEIGHT)
       + match INSTITUTIONAL_RESPECT_BY_SUBJECT subject with
         | Some inst => vote_for f (inst_respect inst) INSTITUTIONAL_WEIGHT
         | None => 0
         end.
Proof.
  intros media publicAgg subject f. unfold score_of, vote_scores.
  destruct (INSTITUTIONAL_RESPECT_BY_SUBJECT subject) as [inst|].
  - rewrite !at_key_bump. change (RespectMap.at_key f []) with 0. ring.
  - rewrite !at_key_bump. change (RespectMap.at_key f []) with 0. ring.
Qed.

(** ** C2: the split flag *)

Definition by_score_down (a b : PipelineRespectId * Q) : Prop := snd b <= snd a.

Definition no_entry : PipelineRespectId * Q := (security_border, 0).

Lemma ranked_sorted (media : MediaFramingAggregate)
    (publicAgg : PublicPollingAggregate) (subject : string) :
  StronglySorted by_score_down (ranked media publicAgg subject).
Proof.
  unfold ranked. apply sort_by_sorted; unfold by_score_down, higher.
  - intros x y z Hxy Hyz. eapply Qle_trans; eassumption.
  - intros x y H. apply Qltb_lt in H. now apply Qlt_le_weak.
  - intros x y H. now apply Qltb_ge in H.
Qed.

Lemma split_of_spec (sorted : list (PipelineRespectId * Q)) :
  split_of sorted = true
  <-> (2 <= List.length sorted)%nat
      /\ Qabs (snd (nth 0 sorted no_entry) - snd (nth 1 sorted no_entry)) < 0.1.
Proof.
  destruct sorted as [|a [|b rest]]; simpl.
  - split; [discriminate|]. intros [H _]. lia.
  - split; [discriminate|]. intros [H _]. lia.
  - rewrite Qltb_lt. split; [intro H; split; [lia|exact H]|tauto].
Qed.

(** C2, as stated, fails.  With the shares 0.5, 0.42 and 0.08 in both
    aggregates and no institutional entry for the subject, the one framing
    with a score is the top one of both: there is no second score, and the
    flag is false. *)
Lemma shared_top_framing_is_not_split :
  INSTITUTIONAL_RESPECT_BY_SUBJECT "channel_tunnel" = None
  /\ map fst (vote_scores media_abc public_abc "channel_tunnel")
     = [security_border]
  /\ split_dominance
       (weightedVote "2025-03-01T00:00:00.000Z" media_abc public_abc
          "channel_tunnel") <> true.
Proof.
  split; [reflexivity|]. split; [vm_compute; reflexivity|].
  vm_compute. discriminate.
Qed.

(** C2, amended.  The flag is true iff at least two framings have a score
    and the absolute gap between the first and the second score in
    descending order is below 0.10; the framings with a score are the top
    framing of the media aggregate, the top framing of the public aggregate
    and the institutional framing of the subject, no others. *)
Theorem split_dominance_iff :
  forall (now_iso : string) (media : MediaFramingAggregate)
         (publicAgg : PublicPollingAggregate) (subject : string),
    let scores := vote_scores media publicAgg subject in
    let sorted := ranked media publicAgg subject in
    Permutation scores sorted
    /\ StronglySorted by_score_down sorted
    /\ (split_dominance (weightedVote now_iso media publicAgg subject) = true
        <-> (2 <= List.length scores)%nat
            /\ Qabs (snd (nth 0 sorted no_entry) - snd (nth 1 sorted no_entry))
               < 0.1)
    /\ (forall f, In f (map fst scores) ->
          f = fst (dominant media)
          \/ f = fst (public_prior publicAgg)
          \/ option_map inst_respect (INSTITUTIONAL_RESPECT_BY_SUBJECT subject)
             = Some f).
Proof.
  intros now_iso media publicAgg subject scores sorted.
  assert (Hperm : Permutation scores sorted) by apply sort_by_perm.
  split; [exact Hperm|]. split; [apply ranked_sorted|]. split.
  - unfold weightedVote. cbn [split_dominance]. fold sorted.
    rewrite split_of_spec. now rewrite (Permutation_length Hperm).
  - intros f Hf. unfold scores, vote_scores in Hf.
    destruct (INSTITUTIONAL_RESPECT_BY_SUBJECT subject) as [inst|]; simpl.
    + apply keys_bump in Hf. destruct Hf as [->|Hf]; [tauto|].
      apply keys_bump in Hf. destruct Hf as [->|Hf]; [tauto|].
      apply keys_bump in Hf. destruct Hf as [->|[]]. tauto.
    + apply keys_bump in Hf. destruct Hf as [->|Hf]; [tauto|].
      apply keys_bump in Hf. destruct Hf as [->|[]]. tauto.
Qed.

(** ** C4: equal scores *)

(** The place of a framing in the catalog. *)
Fixpoint index_in (r : PipelineRespectId) (l : list PipelineRespectId) : nat :=
  match l with
  | [] => 0
  | x :: rest => if respect_eqb x r then 0 else S (index_in r rest)
  end.

Definition catalog_index (r : PipelineRespectId) : nat :=
  index_in r PIPELINE_RESPECT_IDS.

(** The keys of a map after [set] on key [k]: a new key goes last. *)
Definition add_key (k : PipelineRespectId) (keys : list PipelineRespectId)
    : list PipelineRespectId :=
  if existsb (respect_eqb k) keys then keys else (keys ++ [k])%list.

(** The framings in the order in which the sources vote. *)
Definition voting_order (media : MediaFramingAggregate)
    (publicAgg : PublicPollingAggregate) (subject : string)
    : list PipelineRespectId :=
  let keys :=
    add_key (fst (public_prior publicAgg))
      (add_key (fst (dominant media)) []) in
  match INSTITUTIONAL_RESPECT_BY_SUBJECT subject with
  | Some inst => add_key (inst_respect inst) keys
  | None => keys
  end.

Definition scored (s : Q) (e : PipelineRespectId * Q) : bool :=
  Qeq_bool (snd e) s.

Lemma respect_eqb_sym (a b : PipelineRespectId) :
  respect_eqb a b = respect_eqb b a.
Proof. destruct a, b; reflexivity. Qed.

Lemma keys_set (k : PipelineRespectId) (v : Q) (m : RespectMap.t) :
  map fst (RespectMap.set k v m) = add_key k (map fst m).
Proof.
  unfold add_key. induction m as [|[k' v'] rest IH]; simpl; [reflexivity|].
  rewrite (respect_eqb_sym k k').
  destruct (respect_eqb k' k) eqn:E; simpl; [reflexivity|].
  rewrite IH. now destruct (existsb (respect_eqb k) (map fst rest)).
Qed.

Lemma keys_bump_order (k : PipelineRespectId) (v : Q) (m : RespectMap.t) :
  map fst (RespectMap.bump k v m) = add_key k (map fst m).
Proof. unfold RespectMap.bump. apply keys_set. Qed.

Lemma scored_alike (s : Q) (x y : PipelineRespectId * Q) :
  scored s x = true -> scored s y = true -> higher y x = false.
Proof.
  unfold scored, higher. intros Hx Hy.
  apply Qeq_bool_iff in Hx. apply Qeq_bool_iff in Hy.
  apply Qltb_ge. rewrite Hx, Hy. apply Qle_refl.
Qed.

Definition media_h : MediaFramingAggregate :=
  {| dominant := (humanitarian, 0.35);
     shares :=
       [(humanitarian, 0.35); (security_border, 0.33); (rule_of_law, 0.32)];
     exemplars := [];
     source_ids := ["n1"; "n2"; "n3"];
     volume := 3 |}.

Definition public_s : PublicPollingAggregate :=
  {| public_prior := (security_border, 0.45);
     pp_shares :=
       [(security_border, 0.45); (humanitarian, 0.3); (rule_of_law, 0.25)];
     pp_source_ids := ["poll_1"] |}.

(** C4, as stated, fails.  The media aggregate is led by [humanitarian] at
    0.35 and the public aggregate by [security_border] at 0.45: both score
    0.1575.  The winner is [humanitarian], which the media source scored
    first, although [security_border] is the earlier one in the catalog. *)
Lemma tie_won_by_later_catalog_entry :
  let scores := vote_scores media_h public_s "channel_tunnel" in
  let snap :=
    weightedVote "2025-03-01T00:00:00.000Z" media_h public_s "channel_tunnel" in
  score_of humanitarian scores == score_of security_border scores
  /\ (catalog_index security_border < catalog_index humanitarian)%nat
  /\ fst (snap_dominant snap) = humanitarian
  /\ map fst (alternative snap) = [security_border].
Proof.
  cbv zeta. split; [vm_compute; reflexivity|].
  split; [vm_compute; repeat constructor|].
  split; vm_compute; reflexivity.
Qed.

(** With no institutional entry and two different top framings, the media
    framing wins whenever its score is not below the other. *)
Lemma media_framing_wins_ties (now_iso : string)
    (media : MediaFramingAggregate) (publicAgg : PublicPollingAggregate)
    (subject : string) :
  INSTITUTIONAL_RESPECT_BY_SUBJECT subject = None ->
  fst (dominant media) <> fst (public_prior publicAgg) ->
  snd (public_prior publicAgg) * PUBLIC_WEIGHT
  <= snd (dominant media) * MEDIA_WEIGHT ->
  fst (snap_dominant (weightedVote now_iso media publicAgg subject))
  = fst (dominant media).
Proof.
  intros Hinst Hne Hle.
  unfold weightedVote, ranked, vote_scores. rewrite Hinst.
  cbn [snap_dominant]. unfold RespectMap.bump. simpl.
  assert (respect_eqb (fst (dominant media)) (fst (public_prior publicAgg))
          = false) as -> by (now apply respect_eqb_neq).
  simpl. unfold higher at 1. simpl.
  assert (Qltb (0 + snd (dominant media) * MEDIA_WEIGHT)
               (0 + snd (public_prior publicAgg) * PUBLIC_WEIGHT) = false) as ->.
  { apply Qltb_ge. rewrite !Qplus_0_l. exact Hle. }
  reflexivity.
Qed.

(** C4, amended.  The outcome is a function of the two aggregates and the
    subject, the same on every run.  Framings with identical scores keep,
    in the ranking, the order in which they were first scored, and that
    order is: the top framing of the media aggregate, then that of the
    public aggregate, then the institutional framing.  The winner is the
    first of the ranking and the alternatives are the next three.  The
    place of a framing in the catalog plays no part. *)
Theorem ties_keep_voting_order :
  forall (now_iso later_iso : string) (media : MediaFramingAggregate)
         (publicAgg : PublicPollingAggregate) (subject : string) (s : Q),
    let scores := vote_scores media publicAgg subject in
    let sorted := ranked media publicAgg subject in
    let snap := weightedVote now_iso media publicAgg subject in
    let again := weightedVote later_iso media publicAgg subject in
    filter (scored s) sorted = filter (scored s) scores
    /\ map fst scores = voting_order media publicAgg subject
    /\ hd_error sorted = Some (snap_dominant snap)
    /\ alternative snap = firstn 3 (tl sorted)
    /\ snap_dominant again = snap_dominant snap
    /\ alternative again = alternative snap.
Proof.
  intros now_iso later_iso media publicAgg subject s scores sorted snap again.
  split.
  { unfold sorted, ranked. fold scores.
    apply sort_by_stable. intros x y. apply scored_alike. }
  split.
  { unfold scores, vote_scores, voting_order.
    destruct (INSTITUTIONAL_RESPECT_BY_SUBJECT subject) as [inst|];
      now rewrite !keys_bump_order. }
  split.
  { unfold snap, weightedVote. cbn [snap_dominant]. fold sorted.
    destruct sorted as [|e rest] eqn:E; [|reflexivity].
    exfalso. apply sort_by_nil_inv in E. revert E.
    unfold vote_scores.
    destruct (INSTITUTIONAL_RESPECT_BY_SUBJECT subject) as [inst|];
      intro E; apply (f_equal (map fst)) in E;
      rewrite !keys_bump_order in E; simpl in E;
      unfold add_key in E; simpl in E;
      repeat match type of E with
             | context [if ?b then _ else _] => destruct b; simpl in E
             end; discriminate. }
  repeat split.
Qed.

End DominanceProps.

(* ------------------------------------------------------------------ *)
(** * [passage-extractor.ts]: scores of a passage and excerpts *)

Module Excerpts.

Import Taxonomy Text Num Classifier Passages.

Local Open Scope string_scope.
Local Open Scope Q_scope.

(** [if (!matched.includes(seed)) matched.push(seed)] *)
Definition push_new (seed : string) (matched : list string) : list string :=
  if existsb (String.eqb seed) matched then matched
  else (matched ++ [seed])%list.

(** One turn of the loop over the seeds in [scorePassageAgainstRespects]:
    both pushes are guarded. *)
Definition passage_score_seed (lower : string) (tokens : list string)
    (acc : Q * list string) (seed : string) : Q * list string :=
  let seedNorm := toLowerCase seed in
  let acc1 :=
    if existsb (fun t => includes t seedNorm || includes seedNorm t) tokens
    then (fst acc + 1, push_new seed (snd acc))
    else acc in
  if includes lower seedNorm
  then (fst acc1 + 0.5, push_new seed (snd acc1))
  else acc1.

Definition passage_score_respect (passageText : string)
    (tokens : list string) (r : PipelineRespect) : Scored :=
  let lower := toLowerCase passageText in
  let res :=
    fold_left (passage_score_seed lower tokens) (keyword_seeds r) (0, []) in
  {| sc_respect := r_id r; score := fst res; matched := snd res |}.

Definition scorePassageAgainstRespects (passageText : string) : list Scored :=
  let tokens :=
    filter (fun t => (1 <? String.length t)%nat)
           (split_ws (blank_punctuation (toLowerCase passageText))) in
  let scores := map (passage_score_respect passageText tokens) PIPELINE_RESPECTS in
  sort_by higher_score (filter (fun s => Qltb 0 (score s)) scores).

Record ExtractedPassageWithScores : Type := {
  passage : ExtractedPassage;
  respectScores : list Scored;
  suggestedRespect : option PipelineRespectId
}.

Definition with_scores (p : ExtractedPassage) : ExtractedPassageWithScores :=
  let scores := scorePassageAgainstRespects (p_text p) in
  {| passage := p;
     respectScores := scores;
     suggestedRespect :=
       match scores with s :: _ => Some (sc_respect s) | [] => None end |}.

Definition extractPassagesWithScores (fullText subject : string)
    (options : PassageExtractorOptions)
    : option (list ExtractedPassageWithScores) :=
  option_map (map with_scores)
             (extractPassagesForSubject fullText subject options).

(** The separator ["\n\n---\n\n"] and the marker ["\n\n[... truncated]"]. *)
Definition separator : string :=
  newline ++ newline ++ "---" ++ newline ++ newline.

Definition truncated_marker : string :=
  newline ++ newline ++ "[... truncated]".

Definition excerpt_of (maxChars : nat) (passages : list ExtractedPassage)
    : string :=
  let parts := map (fun p => trim (p_text p)) passages in
  let joined := join separator parts in
  if (String.length joined <=? maxChars)%nat then joined
  else slice joined 0 maxChars ++ truncated_marker.

Definition buildRelevantExcerptsForSubject (fullText subject : string)
    (options : PassageExtractorOptions) : option string :=
  option_map (excerpt_of (opt_maxCharsPerSubject options))
             (extractPassagesForSubject fullText subject options).

End Excerpts.

(* ------------------------------------------------------------------ *)
(** * What merging keeps: coverage, end points, fixed points *)

Module MergeProps.

Import Text Passages PassageProps.

Local Open Scope nat_scope.

(** Range [r] lies within range [m]. *)
Definition inside (r m : Range) : Prop :=
  r_start m <= r_start r /\ r_end r <= r_end m.

Definition by_start (a b : Range) : Prop := r_start a <= r_start b.

Lemma inside_refl (r : Range) : inside r r.
Proof. unfold inside. lia. Qed.

Lemma inside_trans (a b c : Range) : inside a b -> inside b c -> inside a c.
Proof. unfold inside. lia. Qed.

Lemma sort_by_start (ranges : list Range) :
  StronglySorted by_start (sort_by earlier ranges).
Proof.
  apply sort_by_sorted; unfold by_start, earlier.
  - intros x y z. lia.
  - intros x y H. apply Nat.ltb_lt in H. lia.
  - intros x y H. apply Nat.ltb_ge in H. lia.
Qed.

Lemma merge_from_contains (rest : list Range) :
  forall last,
    Forall (by_start last) rest -> StronglySorted by_start rest ->
    forall r, In r (last :: rest) ->
      exists m, In m (merge_from last rest) /\ inside r m.
Proof.
  induction rest as [|cur rest IH]; intros last Hlast Hsorted r Hr.
  - destruct Hr as [<-|[]]. exists last. split; [now left|apply inside_refl].
  - inversion Hlast as [|? ? Hcur Hrest]; subst.
    inversion Hsorted as [|? ? Hs Hall]; subst.
    cbn [merge_from]. destruct (r_start cur <=? r_end last + 1) eqn:E.
    + set (joined := {| r_start := r_start last;
                        r_end := Nat.max (r_end last) (r_end cur) |}).
      assert (Hjoined : forall x, In x (joined :: rest) ->
                exists m, In m (merge_from joined rest) /\ inside x m).
      { apply IH; [|exact Hs].
        eapply Forall_impl; [|exact Hrest]. intros x Hx.
        unfold by_start in *. simpl. exact Hx. }
      destruct Hr as [<-|[<-|Hr]].
      * destruct (Hjoined joined (or_introl eq_refl)) as [m [Hm Hin]].
        exists m. split; [exact Hm|].
        eapply inside_trans; [|exact Hin]. unfold inside, joined; simpl. lia.
      * destruct (Hjoined joined (or_introl eq_refl)) as [m [Hm Hin]].
        exists m. split; [exact Hm|].
        eapply inside_trans; [|exact Hin].
        unfold inside, joined, by_start in *; simpl. lia.
      * apply Hjoined. now right.
    + destruct Hr as [<-|Hr].
      * exists last. split; [now left|apply inside_refl].
      * destruct (IH cur Hall Hs r Hr) as [m [Hm Hin]].
        exists m. split; [now right|exact Hin].
Qed.

(** X1.  Merging loses nothing: every range given to [mergeRanges] lies
    within one of the ranges it returns. *)
Theorem mergeRanges_keeps_every_range :
  forall (ranges : list Range) (r : Range),
    In r ranges ->
    exists m, In m (mergeRanges ranges) /\ inside r m.
Proof.
  intros ranges r Hr. unfold mergeRanges.
  pose proof (sort_by_start ranges) as Hs.
  apply (proj2 (sort_by_In _ earlier ranges r)) in Hr.
  destruct (sort_by earlier ranges) as [|first rest]; [destruct Hr|].
  inversion Hs; subst. now apply merge_from_contains.
Qed.

Lemma mergeRanges_keeps_every_range_witness :
  exists m,
    In m (mergeRanges [ {| r_start := 10; r_end := 20 |};
                        {| r_start := 0; r_end := 5 |};
                        {| r_start := 6; r_end := 12 |} ])
    /\ inside {| r_start := 6; r_end := 12 |} m.
Proof.
  apply mergeRanges_keeps_every_range. simpl. tauto.
Defined.

Lemma merge_from_end_points (rest : list Range) :
  forall last m, In m (merge_from last rest) ->
    (exists r, In r (last :: rest) /\ r_start r = r_start m)
    /\ (exists r, In r (last :: rest) /\ r_end r = r_end m).
Proof.
  induction rest as [|cur rest IH]; intros last m Hm.
  - destruct Hm as [<-|[]]. split; exists last; split; auto; now left.
  - cbn [merge_from] in Hm.
    destruct (r_start cur <=? r_end last + 1).
    + apply IH in Hm. destruct Hm as [[r1 [H1 E1]] [r2 [H2 E2]]]. split.
      * destruct H1 as [<-|H1].
        -- exists last. split; [now left|exact E1].
        -- exists r1. split; [right; now right|exact E1].
      * destruct H2 as [<-|H2].
        -- simpl in E2.
           destruct (Nat.max_spec (r_end last) (r_end cur)) as [[_ Hx]|[_ Hx]];
             rewrite Hx in E2.
           ++ exists cur. split; [right; now left|exact E2].
           ++ exists last. split; [now left|exact E2].
        -- exists r2. split; [right; now right|exact E2].
    + destruct Hm as [<-|Hm].
      * split; exists last; split; auto; now left.
      * apply IH in Hm. destruct Hm as [[r1 [H1 E1]] [r2 [H2 E2]]].
        split; [exists r1|exists r2]; split; auto; now right.
Qed.

(** X2.  Merging invents no offset: every range that [mergeRanges] returns
    starts where one of the given ranges starts and ends where one of them
    ends. *)
Theorem mergeRanges_end_points :
  forall (ranges : list Range) (m : Range),
    In m (mergeRanges ranges) ->
    (exists r, In r ranges /\ r_start r = r_start m)
    /\ (exists r, In r ranges /\ r_end r = r_end m).
Proof.
  intros ranges m Hm. unfold mergeRanges in Hm.
  destruct (sort_by earlier ranges) as [|first rest] eqn:E; [destruct Hm|].
  apply merge_from_end_points in Hm.
  destruct Hm as [[r1 [H1 E1]] [r2 [H2 E2]]].
  rewrite <- E in H1, H2. apply sort_by_In in H1. apply sort_by_In in H2.
  split; [exists r1|exists r2]; auto.
Qed.

Lemma mergeRanges_end_points_witness :
  (exists r,
      In r [ {| r_start := 10; r_end := 20 |}; {| r_start := 6; r_end := 12 |} ]
      /\ r_start r = 6)
  /\ (exists r,
      In r [ {| r_start := 10; r_end := 20 |}; {| r_start := 6; r_end := 12 |} ]
      /\ r_end r = 20).
Proof.
  apply (mergeRanges_end_points
           [ {| r_start := 10; r_end := 20 |}; {| r_start := 6; r_end := 12 |} ]
           {| r_start := 6; r_end := 20 |}).
  simpl. tauto.
Defined.

(** A list in which no later element comes strictly before an earlier one
    is left as it is by the sort. *)
Lemma sort_by_fixed {A : Type} (before : A -> A -> bool) (l : list A) :
  StronglySorted (fun a b => before b a = false) l -> sort_by before l = l.
Proof.
  induction 1 as [|a l Hs IH Hall]; [reflexivity|].
  unfold sort_by in *. cbn [fold_right]. rewrite IH.
  destruct l as [|b l']; [reflexivity|]. cbn [insert_by].
  inversion Hall as [|? ? Hb _]; subst. now rewrite Hb.
Qed.

Lemma merge_from_fixed (rest : list Range) :
  forall last, Sorted apart (last :: rest) -> merge_from last rest = last :: rest.
Proof.
  induction rest as [|cur rest IH]; intros last Hs; simpl; [reflexivity|].
  inversion Hs as [|? ? Hs' Hhd]; subst.
  inversion Hhd as [|? ? Hap]; subst.
  assert ((r_start cur <=? r_end last + 1) = false) as ->
    by (apply Nat.leb_gt; unfold apart in Hap; lia).
  now rewrite IH.
Qed.

(** X3.  On non-empty ranges merging is idempotent: merging the merged
    ranges again changes nothing. *)
Theorem mergeRanges_idempotent :
  forall ranges : list Range,
    Forall wf_range ranges ->
    mergeRanges (mergeRanges ranges) = mergeRanges ranges.
Proof.
  intros ranges Hwf.
  destruct (mergeRanges_apart ranges Hwf) as [Hwf' Hs].
  pose proof (apart_all_pairs _ Hwf' Hs) as Hss.
  remember (mergeRanges ranges) as out eqn:Eout. clear Eout.
  unfold mergeRanges. rewrite sort_by_fixed.
  - destruct out as [|first rest]; [reflexivity|]. now apply merge_from_fixed.
  - clear Hs. induction Hss as [|a l Hss IH Hall]; [constructor|].
    inversion Hwf' as [|? ? Ha Hl]; subst.
    constructor; [now apply IH|].
    rewrite Forall_forall in *. intros b Hb.
    specialize (Hall b Hb). specialize (Hl b Hb).
    unfold earlier, apart, wf_range in *. apply Nat.ltb_ge. lia.
Qed.

Lemma mergeRanges_idempotent_witness :
  mergeRanges (mergeRanges [ {| r_start := 10; r_end := 20 |};
                             {| r_start := 0; r_end := 5 |};
                             {| r_start := 6; r_end := 12 |} ])
  = mergeRanges [ {| r_start := 10; r_end := 20 |};
                  {| r_start := 0; r_end := 5 |};
                  {| r_start := 6; r_end := 12 |} ].
Proof.
  apply mergeRanges_idempotent.
  repeat constructor.
Defined.

End MergeProps.

(* ------------------------------------------------------------------ *)
(** * Passages against the text they are cut from *)

Module ExtractionProps.

Import Taxonomy Text Num Classifier Passages PassageProps MergeProps Excerpts.

Local Open Scope string_scope.
Local Open Scope nat_scope.

(** A string has ink when some character of it is not white space. *)
Fixpoint has_ink (s : string) : bool :=
  match s with
  | EmptyString => false
  | String c r => negb (is_space c) || has_ink r
  end.

Lemma nonempty_trimStart (s : string) : nonempty (trimStart s) = has_ink s.
Proof.
  induction s as [|c r IH]; simpl; [reflexivity|].
  destruct (is_space c); simpl; [exact IH|reflexivity].
Qed.

Lemma has_ink_trimStart (s : string) : has_ink (trimStart s) = has_ink s.
Proof.
  induction s as [|c r IH]; simpl; [reflexivity|].
  destruct (is_space c) eqn:E; simpl; [exact IH|]. now rewrite E.
Qed.

Lemma nonempty_trimEnd (s : string) : nonempty (trimEnd s) = has_ink s.
Proof.
  induction s as [|c r IH]; simpl; [reflexivity|].
  rewrite IH. destruct (is_space c), (has_ink r); reflexivity.
Qed.

Lemma nonempty_trim (s : string) : nonempty (trim s) = has_ink s.
Proof. unfold trim. now rewrite nonempty_trimEnd, has_ink_trimStart. Qed.

Lemma has_ink_get (s : string) :
  has_ink s = true <-> exists n c, get n s = Some c /\ is_space c = false.
Proof.
  induction s as [|c r IH]; simpl.
  - split; [discriminate|]. intros (n & c & H & _). destruct n; discriminate.
  - rewrite orb_true_iff, IH, negb_true_iff. split.
    + intros [H|(n & c' & H1 & H2)].
      * exists 0, c. auto.
      * exists (S n), c'. auto.
    + intros (n & c' & H1 & H2). destruct n as [|n].
      * inversion H1; subst. now left.
      * right. exists n, c'. auto.
Qed.

Lemma slice_ink_mono (t : string) (a b s0 e0 : nat) :
  a <= s0 -> e0 <= b ->
  has_ink (slice t s0 e0) = true -> has_ink (slice t a b) = true.
Proof.
  intros Ha Hb H. apply has_ink_get in H. destruct H as (n & c & Hget & Hc).
  apply has_ink_get. unfold slice in *.
  destruct (Nat.lt_ge_cases n (e0 - s0)) as [Hn|Hn].
  - rewrite substring_correct1 in Hget by exact Hn.
    exists (n + s0 - a), c. split; [|exact Hc].
    rewrite substring_correct1 by lia.
    replace (n + s0 - a + a) with (n + s0) by lia. exact Hget.
  - rewrite substring_correct2 in Hget by exact Hn. discriminate.
Qed.

(** A segment is the trimmed, non-empty text between its offsets, within
    the text. *)
Definition seg_ok (text : string) (s : Segment) : Prop :=
  seg_text s = trim (slice text (seg_start s) (seg_end s))
  /\ nonempty (seg_text s) = true
  /\ seg_end s <= String.length text.

Lemma getSentences_from_ok (fuel : nat) (text : string) :
  forall pos segments,
    getSentences_from fuel text pos = Some segments ->
    Forall (seg_ok text) segments.
Proof.
  induction fuel as [|fuel IH]; intros pos segments; cbn [getSentences_from].
  - destruct (String.length text <=? pos); intro H; inversion H. constructor.
  - destruct (String.length text <=? pos) eqn:Hlen.
    + intro H; inversion H. constructor.
    + set (end1 := match indexOf text ". " pos with
                   | Some k => Nat.min (String.length text) (k + 1)
                   | None => String.length text end).
      set (end2 := match indexOf text newline pos with
                   | Some k => Nat.min end1 (k + 1)
                   | None => end1 end).
      assert (Hend2 : end2 <= String.length text).
      { unfold end2, end1.
        destruct (indexOf text newline pos); destruct (indexOf text ". " pos);
          lia. }
      destruct (getSentences_from fuel text
                  (if end2 <? String.length text then end2
                   else String.length text)) as [rest|] eqn:Erec;
        [|discriminate].
      apply IH in Erec. intro H. inversion H; subst; clear H.
      destruct (nonempty (trim (slice text pos end2))) eqn:Hne; [|exact Erec].
      constructor; [|exact Erec]. unfold seg_ok; simpl. auto.
Qed.

Lemma getParagraphs_from_ok (fuel : nat) (text : string) :
  forall pos segments,
    getParagraphs_from fuel text pos = Some segments ->
    Forall (seg_ok text) segments.
Proof.
  induction fuel as [|fuel IH]; intros pos segments; cbn [getParagraphs_from].
  - destruct (String.length text <=? pos); intro H; inversion H. constructor.
  - destruct (String.length text <=? pos) eqn:Hlen.
    + intro H; inversion H. constructor.
    + destruct (indexOf text (newline ++ newline) pos) as [k|] eqn:E.
      * apply index_bounds in E.
        destruct (getParagraphs_from fuel text (k + 2)) as [rest|] eqn:Erec;
          [|discriminate].
        apply IH in Erec. intro H. inversion H; subst; clear H.
        destruct (nonempty (trim (slice text pos k))) eqn:Hne; [|exact Erec].
        constructor; [|exact Erec]. unfold seg_ok; simpl.
        repeat split; auto. lia.
      * destruct (getParagraphs_from fuel text (String.length text))
          as [rest|] eqn:Erec; [|discriminate].
        apply IH in Erec. intro H. inversion H; subst; clear H.
        destruct (nonempty (trim (slice text pos (String.length text))))
          eqn:Hne; [|exact Erec].
        constructor; [|exact Erec]. unfold seg_ok; simpl. auto.
Qed.

(** The segments that [extractPassagesForSubject] works on. *)
Definition segmentation (fullText : string) (options : PassageExtractorOptions)
    : option (list Segment) :=
  if opt_useParagraphs options then getParagraphs fullText
  else getSentences fullText.

Lemma segmentation_sound (fullText : string)
    (options : PassageExtractorOptions) (segments : list Segment) :
  segmentation fullText options = Some segments ->
  chain 0 segments /\ Forall (seg_ok fullText) segments.
Proof.
  unfold segmentation, getParagraphs, getSentences.
  destruct (opt_useParagraphs options); intro H; split.
  - eapply getParagraphs_from_chain; exact H.
  - eapply getParagraphs_from_ok; exact H.
  - eapply getSentences_from_chain; exact H.
  - eapply getSentences_from_ok; exact H.
Qed.

Lemma keep_found_intro {A B : Type} (f : A -> option B) (l : list A)
    (x : A) (y : B) :
  In x l -> f x = Some y -> In y (keep_found f l).
Proof.
  induction l as [|a rest IH]; simpl; [tauto|].
  intros [->|Hin] Hf.
  - rewrite Hf. now left.
  - destruct (f a); [right|]; now apply IH.
Qed.

Definition range_of (h : Hit) : Range :=
  {| r_start := h_start h; r_end := h_end h |}.

Lemma merged_range_contains (ranges : list Range) (r : Range) :
  In r ranges -> exists m, In m (mergeRanges ranges) /\ inside r m.
Proof.
  intro Hr. unfold mergeRanges.
  pose proof (sort_by_start ranges) as Hs.
  apply (proj2 (sort_by_In _ earlier ranges r)) in Hr.
  destruct (sort_by earlier ranges) as [|first rest]; [destruct Hr|].
  inversion Hs; subst. now apply merge_from_contains.
Qed.

Lemma merged_end_is_given (ranges : list Range) (m : Range) :
  In m (mergeRanges ranges) -> exists r, In r ranges /\ r_end r = r_end m.
Proof.
  intro Hm. unfold mergeRanges in Hm.
  destruct (sort_by earlier ranges) as [|first rest] eqn:E; [destruct Hm|].
  apply merge_from_end_points in Hm. destruct Hm as [_ [r [Hr Er]]].
  rewrite <- E in Hr. apply sort_by_In in Hr. eauto.
Qed.

Lemma hit_at_spec (segments : list Segment) (window : nat)
    (triggers : list string) (i : nat) (h : Hit) :
  hit_at segments window triggers i = Some h ->
  In (trigger h) triggers
  /\ h_start h = seg_start (nth (i - window) segments no_segment)
  /\ h_end h
     = seg_end (nth (Nat.min (List.length segments - 1) (i + window))
                    segments no_segment).
Proof.
  unfold hit_at.
  destruct (find (has_phrase (seg_text (nth i segments no_segment))) triggers)
    as [phrase|] eqn:F; [|discriminate].
  intro H. inversion H; subst; clear H. cbn [trigger h_start h_end].
  apply find_some in F. tauto.
Qed.

Lemma passage_of_spec (fullText subject : string) (hits : list Hit)
    (triggers : list string) (range : Range) (p : ExtractedPassage) :
  triggers <> [] ->
  (forall h, In h hits -> In (trigger h) triggers) ->
  passage_of fullText subject hits triggers range = Some p ->
  p_start p = r_start range /\ p_end p = r_end range
  /\ p_text p = trim (slice fullText (r_start range) (r_end range))
  /\ nonempty (p_text p) = true
  /\ subjectId p = subject
  /\ In (triggerMatched p) triggers.
Proof.
  intros Hne Hhits. unfold passage_of.
  destruct (nonempty (trim (slice fullText (r_start range) (r_end range))))
    eqn:E; [|discriminate].
  intro H. inversion H; subst; clear H. cbn.
  repeat split; auto.
  match goal with
  | |- In (match find ?f hits with _ => _ end) _ =>
      destruct (find f hits) as [h|] eqn:F
  end.
  - apply find_some in F. apply Hhits. tauto.
  - destruct triggers; [congruence|now left].
Qed.

Lemma hits_triggers (segments : list Segment) (window : nat)
    (triggers : list string) (h : Hit) :
  In h (hitRanges segments window triggers) -> In (trigger h) triggers.
Proof.
  intro H. apply keep_found_In in H. destruct H as [i [_ H]].
  apply hit_at_spec in H. tauto.
Qed.

(** X4.  No triggered segment is lost: whenever a sentence (or paragraph)
    of the text contains a trigger phrase of the subject, one of the
    returned passages spans that whole segment. *)
Theorem triggered_segment_is_covered :
  forall (fullText subject : string) (options : PassageExtractorOptions)
         (segments : list Segment) (i : nat) (phrase : string),
    segmentation fullText options = Some segments ->
    i < List.length segments ->
    In phrase (triggers_for subject) ->
    has_phrase (seg_text (nth i segments no_segment)) phrase = true ->
    exists ps p,
      extractPassagesForSubject fullText subject options = Some ps
      /\ In p ps
      /\ p_start p <= seg_start (nth i segments no_segment)
      /\ seg_end (nth i segments no_segment) <= p_end p.
Proof.
  intros fullText subject options segments i phrase Hseg Hi Hph Hhas.
  destruct (segmentation_sound _ _ _ Hseg) as [Hc Hok].
  unfold extractPassagesForSubject.
  unfold segmentation in Hseg. rewrite Hseg. cbn [option_map].
  destruct (triggers_for subject) as [|t ts] eqn:Et; [destruct Hph|].
  set (triggers := t :: ts) in *.
  set (w := opt_sentenceWindow options).
  destruct (hit_at segments w triggers i) as [h|] eqn:Hh.
  2:{ unfold hit_at in Hh.
      destruct (find (has_phrase (seg_text (nth i segments no_segment)))
                     triggers) eqn:F; [discriminate|].
      apply (find_none _ _ F) in Hph. congruence. }
  destruct (hit_at_spec _ _ _ _ _ Hh) as (_ & Hs & He).
  assert (Hin : In h (hitRanges segments w triggers)).
  { unfold hitRanges. eapply keep_found_intro; [|exact Hh].
    apply in_seq. lia. }
  destruct (merged_range_contains
              (map range_of (hitRanges segments w triggers)) (range_of h))
    as [m [Hm Hinside]]; [now apply in_map|].
  destruct (chain_monotone 0 segments (i - w) i Hc) as [Ha _]; [lia|lia|].
  destruct (chain_monotone 0 segments i
              (Nat.min (List.length segments - 1) (i + w)) Hc)
    as [_ Hb]; [lia|lia|].
  assert (Hcov : r_start m <= seg_start (nth i segments no_segment)
                 /\ seg_end (nth i segments no_segment) <= r_end m).
  { unfold inside, range_of in Hinside; simpl in Hinside. lia. }
  assert (Hseg_ok : seg_ok fullText (nth i segments no_segment)).
  { rewrite Forall_forall in Hok. apply Hok. now apply nth_In. }
  destruct Hseg_ok as (Htext & Hne & _).
  assert (Hink : nonempty (trim (slice fullText (r_start m) (r_end m))) = true).
  { rewrite nonempty_trim.
    apply slice_ink_mono with (s0 := seg_start (nth i segments no_segment))
                              (e0 := seg_end (nth i segments no_segment));
      [tauto|tauto|].
    rewrite <- nonempty_trim, <- Htext. exact Hne. }
  destruct (passage_of fullText subject (hitRanges segments w triggers)
              triggers m) as [p|] eqn:Hp.
  2:{ unfold passage_of in Hp. rewrite Hink in Hp. discriminate. }
  exists (passages_of_segments fullText subject triggers w segments), p.
  split; [reflexivity|].
  destruct (passage_of_bounds _ _ _ _ _ _ Hp) as [E1 E2].
  split; [|lia].
  unfold passages_of_segments. eapply keep_found_intro; [exact Hm|exact Hp].
Qed.

Definition two_sentences : string :=
  "We will stop the small boats. Taxes stay low.".

Definition window_zero : PassageExtractorOptions :=
  {| sentenceWindow := Some 0;
     useParagraphs := None;
     maxCharsPerSubject := None |}.

Lemma triggered_segment_is_covered_witness :
  exists ps p,
    extractPassagesForSubject two_sentences "small_boats" window_zero = Some ps
    /\ In p ps
    /\ p_start p <= 0
    /\ 29 <= p_end p.
Proof.
  refine (triggered_segment_is_covered two_sentences "small_boats" window_zero
            [ {| seg_text := "We will stop the small boats.";
                 seg_start := 0; seg_end := 29 |};
              {| seg_text := "Taxes stay low.";
                 seg_start := 29; seg_end := 45 |} ]
            0 "small boat" _ _ _ _).
  - vm_compute. reflexivity.
  - simpl. lia.
  - vm_compute. tauto.
  - vm_compute. reflexivity.
Defined.

(** X5.  Every returned passage is cut from the text: its offsets are a
    non-empty range within the text, its text is the trimmed slice between
    them and is not blank, it carries the subject asked for, and the trigger
    it reports is one of the subject's trigger phrases. *)
Theorem passages_are_slices_of_the_text :
  forall (fullText subject : string) (options : PassageExtractorOptions)
         (ps : list ExtractedPassage) (p : ExtractedPassage),
    extractPassagesForSubject fullText subject options = Some ps ->
    In p ps ->
    p_start p < p_end p
    /\ p_end p <= String.length fullText
    /\ p_text p = trim (slice fullText (p_start p) (p_end p))
    /\ nonempty (p_text p) = true
    /\ subjectId p = subject
    /\ In (triggerMatched p) (triggers_for subject).
Proof.
  intros fullText subject options ps p Hex Hp.
  unfold extractPassagesForSubject in Hex.
  destruct (triggers_for subject) as [|t ts] eqn:Et.
  { inversion Hex; subst. destruct Hp. }
  destruct (segmentation fullText options) as [segments|] eqn:Hseg;
    unfold segmentation in Hseg; rewrite Hseg in Hex; [|discriminate].
  cbn [option_map] in Hex. inversion Hex; subst; clear Hex.
  fold (segmentation fullText options) in Hseg.
  destruct (segmentation_sound _ _ _ Hseg) as [Hc Hok].
  set (w := opt_sentenceWindow options) in *.
  unfold passages_of_segments in Hp.
  apply keep_found_In in Hp. destruct Hp as [m [Hm Hp]].
  destruct (passage_of_spec fullText subject
              (hitRanges segments w (t :: ts)) (t :: ts) m p) as
    (E1 & E2 & E3 & E4 & E5 & E6); [discriminate| |exact Hp|].
  { intros h Hh. eapply hits_triggers; exact Hh. }
  rewrite E1, E2. repeat split; auto.
  - apply slice_nonempty with (s := fullText). rewrite <- E3. exact E4.
  - apply merged_end_is_given in Hm. destruct Hm as [r [Hr Er]].
    apply in_map_iff in Hr. destruct Hr as [h [<- Hh]].
    apply keep_found_In in Hh. destruct Hh as [i [Hi Hh]].
    apply in_seq in Hi. apply hit_at_spec in Hh. destruct Hh as (_ & _ & He).
    simpl in Er. rewrite <- Er, He.
    rewrite Forall_forall in Hok.
    assert (Hnth : In (nth (Nat.min (List.length segments - 1) (i + w))
                        segments no_segment) segments)
      by (apply nth_In; lia).
    destruct (Hok _ Hnth) as (_ & _ & Hlen). exact Hlen.
Qed.

Lemma passages_are_slices_of_the_text_witness :
  let p :=
    {| p_start := 0; p_end := 29;
       p_text := "We will stop the small boats.";
       triggerMatched := "small boat";
       subjectId := "small_boats" |} in
  p_start p < p_end p
  /\ p_end p <= String.length two_sentences
  /\ p_text p = trim (slice two_sentences (p_start p) (p_end p))
  /\ nonempty (p_text p) = true
  /\ subjectId p = "small_boats"
  /\ In (triggerMatched p) (triggers_for "small_boats").
Proof.
  refine (passages_are_slices_of_the_text two_sentences "small_boats"
            window_zero _ _ _ _).
  - vm_compute. reflexivity.
  - now left.
Defined.

End ExtractionProps.

(* ------------------------------------------------------------------ *)
(** * Excerpts and passage scores *)

Module ExcerptProps.

Import Taxonomy Text Num Classifier Passages PassageProps Excerpts.

Local Open Scope string_scope.
Local Open Scope nat_scope.

Lemma substring_length_le (s : string) (n m : nat) :
  String.length (substring n m s) <= m.
Proof.
  revert n m. induction s as [|c r IH]; intros n m.
  - destruct n, m; simpl; lia.
  - destruct n as [|n]; destruct m as [|m]; simpl.
    + lia.
    + specialize (IH 0 m). lia.
    + apply IH.
    + apply IH.
Qed.

Lemma append_length (a b : string) :
  String.length (a ++ b) = String.length a + String.length b.
Proof. induction a as [|c r IH]; simpl; [reflexivity|now rewrite IH]. Qed.

Lemma extract_total (fullText subject : string)
    (options : PassageExtractorOptions) :
  exists ps, extractPassagesForSubject fullText subject options = Some ps.
Proof.
  unfold extractPassagesForSubject.
  destruct (triggers_for subject); [eauto|].
  destruct (segmentation_total fullText (opt_useParagraphs options))
    as (segments & Hseg & _).
  rewrite Hseg. simpl. eauto.
Qed.

(** X6.  The excerpt handed to the language model is bounded: for every
    text, subject and options, [buildRelevantExcerptsForSubject] returns a
    string of at most [maxCharsPerSubject] characters plus the 17 characters
    of the truncation marker. *)
Theorem excerpt_within_budget :
  forall (fullText subject : string) (options : PassageExtractorOptions),
  exists excerpt,
    buildRelevantExcerptsForSubject fullText subject options = Some excerpt
    /\ String.length excerpt <= opt_maxCharsPerSubject options + 17.
Proof.
  intros fullText subject options.
  unfold buildRelevantExcerptsForSubject.
  destruct (extract_total fullText subject options) as [ps Hps].
  rewrite Hps. cbn [option_map]. eexists. split; [reflexivity|].
  unfold excerpt_of.
  match goal with
  | |- context [String.length ?j <=? ?m] =>
      destruct (String.length j <=? m) eqn:E
  end.
  - apply Nat.leb_le in E. lia.
  - rewrite append_length.
    change (String.length truncated_marker) with 17.
    unfold slice.
    match goal with
    | |- String.length (substring 0 ?k ?j) + 17 <= _ =>
        pose proof (substring_length_le j 0 k)
    end.
    lia.
Qed.

(** The key of a scored entry: its framing and its score. *)
Definition key (s : Scored) : PipelineRespectId * Q := (sc_respect s, score s).

Definition alike (a b : Scored) : Prop := key a = key b.

Lemma alike_score (a b : Scored) : alike a b -> score a = score b.
Proof. unfold alike, key. congruence. Qed.

Lemma fold_scores_agree (text : string) (tokens : list string)
    (seeds : list string) :
  forall acc acc',
    fst acc = fst acc' ->
    fst (fold_left (score_seed text tokens) seeds acc)
    = fst (fold_left (passage_score_seed (toLowerCase text) tokens) seeds acc').
Proof.
  induction seeds as [|seed rest IH]; intros acc acc' H; simpl; [exact H|].
  apply IH. unfold score_seed, passage_score_seed.
  destruct (existsb _ tokens); destruct (includes _ _); simpl; congruence.
Qed.

Lemma score_respect_alike (text : string) (tokens : list string)
    (r : PipelineRespect) :
  alike (passage_score_respect text tokens r) (score_respect text tokens r).
Proof.
  unfold alike, key, passage_score_respect, score_respect. simpl.
  f_equal. symmetry. now apply fold_scores_agree.
Qed.

Lemma filter_alike (p : Q -> bool) (l l' : list Scored) :
  Forall2 alike l l' ->
  Forall2 alike (filter (fun s => p (score s)) l)
                (filter (fun s => p (score s)) l').
Proof.
  induction 1 as [|a b l l' Hab Hl IH]; simpl; [constructor|].
  rewrite (alike_score a b Hab). destruct (p (score b)); [constructor|]; auto.
Qed.

Lemma insert_alike (x x' : Scored) (l l' : list Scored) :
  alike x x' -> Forall2 alike l l' ->
  Forall2 alike (insert_by higher_score x l) (insert_by higher_score x' l').
Proof.
  intros Hx. induction 1 as [|a b l l' Hab Hl IH]; simpl.
  - repeat constructor. exact Hx.
  - unfold higher_score at 1 3.
    rewrite (alike_score x x' Hx), (alike_score a b Hab).
    destruct (Qltb (score x') (score b)); repeat constructor; auto.
Qed.

Lemma sort_alike (l l' : list Scored) :
  Forall2 alike l l' ->
  Forall2 alike (sort_by higher_score l) (sort_by higher_score l').
Proof.
  induction 1 as [|a b l l' Hab Hl IH]; simpl; [constructor|].
  now apply insert_alike.
Qed.

Lemma alike_keys (l l' : list Scored) :
  Forall2 alike l l' -> map key l = map key l'.
Proof.
  induction 1 as [|a b l l' Hab Hl IH]; simpl; [reflexivity|].
  unfold alike in Hab. congruence.
Qed.

(** X7.  The passage scorer and the classifier agree: on every text,
    [scorePassageAgainstRespects] ranks the same framings with the same
    scores, in the same order, as [scoreText]; the two differ only in the
    list of matched seeds they report. *)
Theorem passage_scores_agree_with_classifier :
  forall text : string,
    map key (scorePassageAgainstRespects text) = map key (scoreText text).
Proof.
  intro text. apply alike_keys.
  unfold scorePassageAgainstRespects, scoreText, tokenize.
  apply sort_alike.
  apply (filter_alike (Qltb 0)).
  induction PIPELINE_RESPECTS as [|r rest IH]; simpl; constructor; auto.
  apply score_respect_alike.
Qed.

End ExcerptProps.

(* ------------------------------------------------------------------ *)
(** * [taxonomy.ts]: look-ups *)

Module Lookup.

Import Taxonomy.

Local Open Scope string_scope.

(** The own keys of [DRCM_TO_PIPELINE_RESPECT], with the run-time strings
    of the pipeline identifiers as values. *)
Definition DRCM_TO_PIPELINE_RESPECT (drcmPoliticalId : string) : option string :=
  if String.eqb drcmPoliticalId "security_border" then Some "security_border"
  else if String.eqb drcmPoliticalId "humanitarian_protection"
  then Some "humanitarian"
  else if String.eqb drcmPoliticalId "legal_procedural" then Some "rule_of_law"
  else if String.eqb drcmPoliticalId "sovereignty_control"
  then Some "sovereignty_control"
  else if String.eqb drcmPoliticalId "economic_labour"
  then Some "economy_prosperity"
  else if String.eqb drcmPoliticalId "administrative_capacity"
  then Some "capacity_delivery"
  else None.

(** The result is a string: an identifier that the table does not know is
    passed through by the cast. *)
Definition getPipelineRespectIdFromDRCM (drcmPoliticalId : string) : string :=
  match DRCM_TO_PIPELINE_RESPECT drcmPoliticalId with
  | Some v => v
  | None => drcmPoliticalId
  end.

Definition getPipelineRespectById (id : PipelineRespectId)
    : option PipelineRespect :=
  find (fun r => respect_eqb (r_id r) id) PIPELINE_RESPECTS.

Definition getPipelineRespectLabel (id : string) : string :=
  match find (fun x => String.eqb (respect_name (r_id x)) id) PIPELINE_RESPECTS with
  | Some r => label r
  | None => id
  end.

End Lookup.

(* ------------------------------------------------------------------ *)
(** * Properties of the catalog, the tokens and the ranking *)

Module CatalogProps.

Import Taxonomy Types Text Num Classifier Lookup.

Local Open Scope string_scope.

Lemma catalog_ids_distinct : NoDup PIPELINE_RESPECT_IDS.
Proof.
  unfold PIPELINE_RESPECT_IDS. simpl.
  repeat (constructor; [simpl; intuition discriminate|]). constructor.
Qed.

(** X8.  The catalog is a bijection: its identifiers are pairwise
    different, every identifier has an entry that [getPipelineRespectById]
    finds, the run-time string of an identifier leads back to it, and
    [getPipelineRespectLabel] gives that entry's label for it. *)
Theorem catalog_lookup_round_trip :
  NoDup PIPELINE_RESPECT_IDS
  /\ forall id : PipelineRespectId,
       respect_of_name (respect_name id) = Some id
       /\ exists entry,
            getPipelineRespectById id = Some entry
            /\ r_id entry = id
            /\ getPipelineRespectLabel (respect_name id) = label entry.
Proof.
  split.
  - exact catalog_ids_distinct.
  - intro id. split; [destruct id; reflexivity|].
    destruct id; eexists; (split; [reflexivity|split; reflexivity]).
Qed.

(** X9.  Translating a manifesto framing identifier is idempotent, and it
    leaves every pipeline identifier as it is: a second translation of an
    identifier already translated changes nothing. *)
Theorem drcm_translation_idempotent :
  (forall s : string,
      getPipelineRespectIdFromDRCM (getPipelineRespectIdFromDRCM s)
      = getPipelineRespectIdFromDRCM s)
  /\ (forall r : PipelineRespectId,
      getPipelineRespectIdFromDRCM (respect_name r) = respect_name r).
Proof.
  split.
  - intro s. unfold getPipelineRespectIdFromDRCM at 2.
    unfold DRCM_TO_PIPELINE_RESPECT.
    destruct (String.eqb s "security_border") eqn:E1;
      [apply String.eqb_eq in E1; subst; reflexivity|].
    destruct (String.eqb s "humanitarian_protection") eqn:E2;
      [apply String.eqb_eq in E2; subst; reflexivity|].
    destruct (String.eqb s "legal_procedural") eqn:E3;
      [apply String.eqb_eq in E3; subst; reflexivity|].
    destruct (String.eqb s "sovereignty_control") eqn:E4;
      [apply String.eqb_eq in E4; subst; reflexivity|].
    destruct (String.eqb s "economic_labour") eqn:E5;
      [apply String.eqb_eq in E5; subst; reflexivity|].
    destruct (String.eqb s "administrative_capacity") eqn:E6;
      [apply String.eqb_eq in E6; subst; reflexivity|].
    unfold getPipelineRespectIdFromDRCM, DRCM_TO_PIPELINE_RESPECT.
    now rewrite E1, E2, E3, E4, E5, E6.
  - intro r. destruct r; reflexivity.
Qed.

(** ** Tokens *)

Fixpoint all_chars (p : ascii -> bool) (s : string) : bool :=
  match s with
  | EmptyString => true
  | String c r => p c && all_chars p r
  end.

(** A character of a token: a lower-case letter, a digit or the underscore. *)
Definition token_char (c : ascii) : bool :=
  is_lower c || is_digit c || (nat_of_ascii c =? 95)%nat.

Definition space_or_token (c : ascii) : bool := is_space c || token_char c.

Lemma all_chars_map (p : ascii -> bool) (f : ascii -> ascii) (s : string) :
  all_chars p (map_chars f s) = all_chars (fun c => p (f c)) s.
Proof. induction s as [|c r IH]; simpl; [reflexivity|now rewrite IH]. Qed.

Lemma all_chars_true (p : ascii -> bool) (s : string) :
  (forall c, p c = true) -> all_chars p s = true.
Proof.
  intro H. induction s as [|c r IH]; simpl; [reflexivity|].
  now rewrite H, IH.
Qed.

Lemma all_chars_snoc (p : ascii -> bool) (s : string) (c : ascii) :
  all_chars p (s ++ String c "") = all_chars p s && p c.
Proof.
  induction s as [|d r IH]; simpl.
  - now rewrite andb_true_r.
  - rewrite IH. now rewrite andb_assoc.
Qed.

Lemma normalised_char (c : ascii) :
  space_or_token
    (if is_word (lower_char c) || is_space (lower_char c)
     then lower_char c else " "%char) = true.
Proof.
  destruct c as [b0 b1 b2 b3 b4 b5 b6 b7].
  destruct b0, b1, b2, b3, b4, b5, b6, b7; reflexivity.
Qed.

Lemma normalised_text (text : string) :
  all_chars space_or_token (blank_punctuation (toLowerCase text)) = true.
Proof.
  unfold blank_punctuation, toLowerCase. rewrite !all_chars_map.
  apply all_chars_true. intro c. apply normalised_char.
Qed.

Lemma split_pieces (s : string) :
  forall cur in_run,
    all_chars space_or_token s = true ->
    all_chars token_char cur = true ->
    Forall (fun t => all_chars token_char t = true)
           (split_ws_from s cur in_run).
Proof.
  induction s as [|c r IH]; intros cur in_run Hs Hcur; simpl.
  - constructor; [exact Hcur|constructor].
  - simpl in Hs. apply andb_true_iff in Hs. destruct Hs as [Hc Hr].
    destruct (is_space c) eqn:E.
    + destruct in_run; [|constructor; [exact Hcur|]]; now apply IH.
    + apply IH; [exact Hr|]. rewrite all_chars_snoc, Hcur.
      unfold space_or_token in Hc. now rewrite E in Hc.
Qed.

(** X10.  Every token that the classifier matches seeds against has at
    least two characters, each a lower-case letter, a digit or the
    underscore: no token holds white space, punctuation or a capital. *)
Theorem tokens_are_lowercase_words :
  forall text : string,
    Forall (fun t => (2 <= String.length t)%nat
                     /\ all_chars token_char t = true)
           (tokenize text).
Proof.
  intro text. unfold tokenize. apply Forall_forall. intros t Ht.
  apply filter_In in Ht. destruct Ht as [Ht Hlen].
  apply Nat.ltb_lt in Hlen. split; [lia|].
  pose proof (split_pieces (blank_punctuation (toLowerCase text)) "" false
                (normalised_text text) eq_refl) as H.
  rewrite Forall_forall in H. now apply H.
Qed.

(** ** The ranking of [scoreText] *)

Definition score_down (a b : Scored) : Prop := (score b <= score a)%Q.

Lemma NoDup_map_filter {A B : Type} (g : A -> B) (p : A -> bool) (l : list A) :
  NoDup (map g l) -> NoDup (map g (filter p l)).
Proof.
  induction l as [|x rest IH]; simpl; intro H; [constructor|].
  inversion H as [|? ? Hx Hrest]; subst.
  destruct (p x); simpl; [|now apply IH].
  constructor; [|now apply IH].
  intro Hin. apply Hx. apply in_map_iff in Hin.
  destruct Hin as [y [Hy Hin]]. apply filter_In in Hin.
  apply in_map_iff. exists y. tauto.
Qed.

(** X11.  The ranking of [scoreText] is well formed for every text: the
    scores descend, every score is positive, no framing occurs twice, and
    there are at most as many entries as the catalog has framings. *)
Theorem scoreText_ranking :
  forall text : string,
    StronglySorted score_down (scoreText text)
    /\ Forall (fun s => (0 < score s)%Q) (scoreText text)
    /\ NoDup (map sc_respect (scoreText text))
    /\ (List.length (scoreText text) <= List.length PIPELINE_RESPECTS)%nat.
Proof.
  intro text. unfold scoreText.
  set (scores := map (score_respect text (tokenize text)) PIPELINE_RESPECTS).
  set (kept := filter (fun s => Qltb 0 (score s)) scores).
  split; [|split; [|split]].
  - apply sort_by_sorted; unfold score_down, higher_score.
    + intros x y z Hxy Hyz. eapply Qle_trans; eassumption.
    + intros x y H. apply Qltb_lt in H. now apply Qlt_le_weak.
    + intros x y H. now apply Qltb_ge in H.
  - apply Forall_forall. intros s Hs. apply sort_by_In in Hs.
    unfold kept in Hs. apply filter_In in Hs. now apply Qltb_lt.
  - apply (Permutation_NoDup
             (Permutation_map sc_respect (sort_by_perm _ higher_score kept))).
    unfold kept. apply NoDup_map_filter.
    unfold scores. rewrite map_map. simpl.
    exact catalog_ids_distinct.
  - rewrite sort_by_length. unfold kept.
    eapply Nat.le_trans; [apply filter_length_le|].
    unfold scores. now rewrite length_map.
Qed.

End CatalogProps.

(* ------------------------------------------------------------------ *)
(** * The media step of the refresh: who gets classified, and how *)

Module RefreshProps.

Import Taxonomy Types Text Num Classifier Oracle Aggregators.
Import ClassifierProps AggregatorProps.

Local Open Scope string_scope.
Local Open Scope Q_scope.

(** The framing that the reply gives item [i]: the name replied last for
    the index when the catalog has it, [security_border] otherwise. *)
Definition replied_respect (entries : list (Z * string)) (i : nat)
    : PipelineRespectId :=
  match byIndex_get entries (Z.of_nat i) with
  | Some name =>
      match respect_of_name name with
      | Some r => r
      | None => security_border
      end
  | None => security_border
  end.

Lemma oracle_items_ids (now_iso subject : string)
    (entries : list (Z * string)) (items : list RawMediaItem) :
  forall i,
    map item_id (oracle_items now_iso subject entries i items)
    = map m_id items.
Proof.
  induction items as [|m rest IH]; intro i; simpl; [reflexivity|].
  now rewrite IH.
Qed.

Lemma oracle_items_nth (now_iso subject : string)
    (entries : list (Z * string)) (items : list RawMediaItem) :
  forall start i c,
    nth_error (oracle_items now_iso subject entries start items) i = Some c ->
    item_type c = media
    /\ subject_id c = subject
    /\ confidence c = 0.8
    /\ respect_id c = replied_respect entries (start + i).
Proof.
  induction items as [|m rest IH]; intros start i c; simpl.
  - destruct i; discriminate.
  - destruct i as [|i]; simpl.
    + intro H. inversion H; subst; clear H. simpl.
      rewrite Nat.add_0_r. repeat split.
    + intro H. apply IH in H.
      replace (start + S i)%nat with (S start + i)%nat by lia. exact H.
Qed.

(** X12.  A reply that parses classifies the whole batch in order: the
    result has the identifiers of the items, in the order of the items, each
    item typed [media] with confidence 0.8 and the framing of the last
    replied entry for its index; an index without entry, or a name outside
    the catalog, gives [security_border]. *)
Theorem parsed_reply_classifies_in_order :
  forall (now_iso subject : string)
         (classifications : option (list (Z * string)))
         (m : RawMediaItem) (rest : list RawMediaItem),
  exists out,
    classifyMediaWithLLM true (Parsed classifications) now_iso subject
      (m :: rest) = Returned out
    /\ map item_id out = map m_id (m :: rest)
    /\ forall i c,
         nth_error out i = Some c ->
         item_type c = media
         /\ subject_id c = subject
         /\ confidence c = 0.8
         /\ respect_id c
            = replied_respect
                (match classifications with Some l => l | None => [] end) i.
Proof.
  intros now_iso subject classifications m rest.
  eexists. split; [reflexivity|]. split.
  - apply oracle_items_ids.
  - intros i c H. apply oracle_items_nth in H. exact H.
Qed.

(** ** One classified item for each media item *)

Lemma filter_split {A : Type} (p : A -> bool) (l : list A) :
  Permutation (filter p l ++ filter (fun x => negb (p x)) l) l.
Proof.
  induction l as [|x rest IH]; simpl; [constructor|].
  destruct (p x); simpl.
  - now constructor.
  - apply Permutation_sym, Permutation_cons_app, Permutation_sym, IH.
Qed.

Lemma prelabelled_ids (now_iso subject : string) (l : list RawMediaItem) :
  map item_id (flat_map (prelabelled now_iso subject) (filter has_label l))
  = map m_id (filter has_label l).
Proof.
  induction l as [|m rest IH]; simpl; [reflexivity|].
  destruct (has_label m) eqn:Hl; [|exact IH].
  simpl. unfold has_label in Hl. unfold prelabelled at 1.
  destruct (m_respect_id m); [|discriminate]. simpl. now rewrite IH.
Qed.

Lemma keyword_ids (now_iso subject : string) (l : list RawMediaItem) :
  map item_id (map (classifyMediaItem now_iso subject) l) = map m_id l.
Proof. rewrite map_map. apply map_ext. reflexivity. Qed.

Lemma classify_batch_ids (api_key : bool) (reply : OracleReply)
    (now_iso subject : string) (batch : list RawMediaItem) :
  api_key = false \/ reply <> Unparseable ->
  map item_id (classify_batch api_key reply now_iso subject batch)
  = map m_id batch.
Proof.
  intro H. destruct batch as [|m rest]; [reflexivity|].
  unfold classify_batch. destruct api_key.
  - destruct reply; try apply keyword_ids.
    + destruct H; [discriminate|congruence].
    + cbn. now rewrite oracle_items_ids.
  - apply keyword_ids.
Qed.

(** X13.  Unless the key is set and the reply is not JSON, the refresh
    classifies every media item exactly once: the identifiers of the
    classified items are those of the raw media items, each as often as it
    occurs there. *)
Theorem every_media_item_classified_once :
  forall (api_key : bool) (reply : OracleReply) (now_iso subject : string)
         (rawMedia : list RawMediaItem),
    api_key = false \/ reply <> Unparseable ->
    Permutation
      (map item_id (classify_media api_key reply now_iso subject rawMedia))
      (map m_id rawMedia).
Proof.
  intros api_key reply now_iso subject rawMedia H.
  unfold classify_media, mediaToClassify.
  rewrite map_app, prelabelled_ids, (classify_batch_ids _ _ _ _ _ H).
  rewrite <- map_app. apply Permutation_map, filter_split.
Qed.

Lemma every_media_item_classified_once_witness :
  Permutation
    (map item_id
       (classify_media true TransportError "2025-03-01T00:00:00.000Z"
          "small_boats" six_raw))
    (map m_id six_raw).
Proof.
  apply every_media_item_classified_once. right. discriminate.
Defined.

(** ** What the refresh classifies can be aggregated *)

Lemma in_band_positive (x : Q) : in_band x -> 0 < x.
Proof. intros [H _]. eapply Qlt_le_trans; [|exact H]. reflexivity. Qed.

Lemma classifyMediaItem_positive (now_iso subject : string)
    (m : RawMediaItem) :
  0 < confidence (classifyMediaItem now_iso subject m).
Proof.
  unfold classifyMediaItem. cbn [confidence].
  destruct (scoreText (media_text m)); cbn [hd_error]; [reflexivity|].
  apply in_band_positive, normalizeConfidence_in_band.
Qed.

Lemma classify_media_items (api_key : bool) (reply : OracleReply)
    (now_iso subject : string) (rawMedia : list RawMediaItem)
    (c : ClassifiedItem) :
  In c (classify_media api_key reply now_iso subject rawMedia) ->
  item_type c = media /\ 0 < confidence c.
Proof.
  unfold classify_media. intro H. apply in_app_or in H. destruct H as [H|H].
  - apply in_flat_map in H. destruct H as [m [_ H]].
    unfold prelabelled in H. destruct (m_respect_id m); [|destruct H].
    destruct H as [<-|[]]. split; reflexivity.
  - assert (Hkw : In c (map (classifyMediaItem now_iso subject)
                          (mediaToClassify rawMedia)) ->
                  item_type c = media /\ 0 < confidence c).
    { intro Hc. apply in_map_iff in Hc. destruct Hc as [m [<- _]].
      split; [reflexivity|apply classifyMediaItem_positive]. }
    unfold classify_batch in H.
    destruct (mediaToClassify rawMedia) as [|m rest] eqn:E; [destruct H|].
    destruct api_key; [|now apply Hkw].
    destruct reply as [| | |classifications].
    + now apply Hkw.
    + destruct H.
    + now apply Hkw.
    + change (In c (oracle_items now_iso subject
                      match classifications with Some l => l | None => [] end
                      0 (m :: rest))) in H.
      apply In_nth_error in H. destruct H as [i H].
      apply oracle_items_nth in H. destruct H as (H1 & _ & H3 & _).
      split; [exact H1|]. rewrite H3. reflexivity.
Qed.

(** X14.  Classification and aggregation compose: whenever the refresh
    classifies at least one media item (pre-labelled, by the oracle or by
    keywords), every confidence is positive, the aggregate's shares are not
    empty and sum to 1, and the dominant framing is the first of them. *)
Theorem refresh_media_shares_sum_to_one :
  forall (api_key : bool) (reply : OracleReply) (now_iso subject : string)
         (rawMedia : list RawMediaItem) (now : Z) (window_days : nat),
    classify_media api_key reply now_iso subject rawMedia <> [] ->
    let classified := classify_media api_key reply now_iso subject rawMedia in
    let agg :=
      aggregate_media_framing now subject classified rawMedia window_days in
    Forall (fun c => 0 < confidence c) classified
    /\ Qsum (map snd (shares agg)) == 1
    /\ hd_error (shares agg) = Some (dominant agg).
Proof.
  intros api_key reply now_iso subject rawMedia now window_days Hne
         classified agg.
  assert (Hall : forall c, In c classified ->
                   item_type c = media /\ 0 < confidence c)
    by (intros c Hc; eapply classify_media_items; exact Hc).
  assert (Hmedia : mediaClassified classified = classified).
  { unfold mediaClassified. apply forallb_filter_id.
    apply forallb_forall. intros c Hc.
    destruct (Hall c Hc) as [-> _]. reflexivity. }
  assert (Htot : 0 < Qsum (RespectMap.values
                             (media_byRespect now rawMedia classified))).
  { apply media_total_positive; [exact Hne|]. intros c Hc. now apply Hall. }
  assert (Hnz : ~ Qsum (RespectMap.values
                          (media_byRespect now rawMedia classified)) == 0).
  { intro H. rewrite H in Htot. exact (Qlt_irrefl 0 Htot). }
  split; [apply Forall_forall; intros c Hc; now apply Hall|].
  unfold agg, aggregate_media_framing. cbn [shares dominant].
  rewrite Hmedia. split.
  - rewrite shares_of_sum, or_one_nonzero by exact Hnz.
    now apply Qmult_inv_r.
  - destruct (shares_of (media_byRespect now rawMedia classified)) eqn:E;
      [|reflexivity].
    apply shares_of_nil_inv in E. rewrite E in Htot.
    exfalso. exact (Qlt_irrefl 0 Htot).
Qed.

Lemma refresh_media_shares_sum_to_one_witness :
  Qsum (map snd
          (shares
             (aggregate_media_framing the_now "small_boats"
                (classify_media false TransportError
                   "2025-03-01T00:00:00.000Z" "small_boats" one_raw)
                one_raw 14))) == 1.
Proof.
  refine (proj1 (proj2
    (refresh_media_shares_sum_to_one false TransportError
       "2025-03-01T00:00:00.000Z" "small_boats" one_raw the_now 14 _))).
  vm_compute. discriminate.
Defined.

End RefreshProps.

(* ------------------------------------------------------------------ *)
(** * [refresh.ts]: everything that is classified, and its media aggregate *)

Module Refresh.

Import Taxonomy Types Text Num Classifier Oracle Aggregators.


End Refresh.

Module PipelineProps.

Import Taxonomy Types Text Num Classifier Oracle Aggregators Refresh.
Import AggregatorProps RefreshProps.

Local Open Scope Q_scope.





End PipelineProps.

(* ------------------------------------------------------------------ *)
(** * [refresh.ts]: merging media and party positions *)

Module Ingest.

Import Types Text.

Local Open Scope string_scope.

(** A raw media item with the ISO text of [published_at], which
    [RawMediaItem] keeps parsed; the text may be missing at run time. *)
Record DatedMedia : Type := {
  item : RawMediaItem;
  published_at : option string
}.

(** [s.replace(/\s+/g, " ")] *)
Fixpoint collapse_ws (s : string) (in_run : bool) : string :=
  match s with
  | EmptyString => EmptyString
  | String c r =>
      if is_space c
      then if in_run then collapse_ws r true
           else String " " (collapse_ws r true)
      else String c (collapse_ws r false)
  end.

Definition composite_key (d : DatedMedia) : string :=
  let day :=
    slice (match published_at d with Some p => p | None => "" end) 0 10 in
  collapse_ws
    (toLowerCase (title (item d) ++ "|" ++ outlet (item d) ++ "|" ++ day))
    false.

(** [mediaKey]: the URL when there is one that starts with [http], else
    title, outlet and day. *)
Definition mediaKey (d : DatedMedia) : string :=
  match url (item d) with
  | Some u => if nonempty u && prefix "http" u then u else composite_key d
  | None => composite_key d
  end.

Section Dedupe.

Variable A : Type.
Variable key : A -> string.

(** One turn of a de-duplicating loop on the pair of the set [seen] and the
    array built so far. *)
Definition dedupe_step (st : list string * list A) (m : A)
    : list string * list A :=
  let k := key m in
  if existsb (String.eqb k) (fst st) then st
  else (k :: fst st, (snd st ++ [m])%list).

(** Loops over several arrays in turn that share the set [seen]. *)
Definition dedupe_lists (batches : list (list A)) : list A :=
  snd (fold_left (fun st batch => fold_left dedupe_step batch st)
                 batches ([], [])).

End Dedupe.

Arguments dedupe_step {A} key st m.
Arguments dedupe_lists {A} key batches.

(** [rawMedia] of [refresh_small_boats]: the stored items first, then what
    the connectors returned. *)
Definition merge_media (stored fetched : list DatedMedia) : list DatedMedia :=
  dedupe_lists mediaKey [stored; fetched].

(** [mergedItems]: News API, then Guardian, then GNews. *)
Definition merge_api (newsApi guardian gnews : list DatedMedia)
    : list DatedMedia :=
  dedupe_lists mediaKey [newsApi; guardian; gnews].

Section PartyPositions.

(** A party position, with its [subject_id] and [actor_id]. *)
Variable Position : Type.
Variable pos_subject : Position -> string.
Variable pos_actor : Position -> string.

Definition position_key (p : Position) : string :=
  pos_subject p ++ ":" ++ pos_actor p.

(** [m.set(k, v)] on a [Map] with string keys. *)
Fixpoint smap_set (k : string) (v : Position) (m : list (string * Position))
    : list (string * Position) :=
  match m with
  | [] => [(k, v)]
  | (k', v') :: rest =>
      if String.eqb k' k then (k', v) :: rest
      else (k', v') :: smap_set k v rest
  end.

Fixpoint smap_get (k : string) (m : list (string * Position))
    : option Position :=
  match m with
  | [] => None
  | (k', v) :: rest => if String.eqb k' k then Some v else smap_get k rest
  end.

Definition set_position (m : list (string * Position)) (p : Position)
    : list (string * Position) :=
  smap_set (position_key p) p m.

(** The new value of [drcmData.assessments.party_positions]. *)
Definition mergePartyPositionsIntoDRCM (positions existing : list Position)
    : list Position :=
  map snd (fold_left set_position positions
             (fold_left set_position existing [])).

End PartyPositions.

Arguments position_key {Position} pos_subject pos_actor p.
Arguments smap_set {Position} k v m.
Arguments smap_get {Position} k m.
Arguments set_position {Position} pos_subject pos_actor m p.
Arguments mergePartyPositionsIntoDRCM {Position} pos_subject pos_actor
  positions existing.

End Ingest.

(* ------------------------------------------------------------------ *)
(** * Properties of the merges *)

Module IngestProps.

Import Types Text Ingest.

Local Open Scope string_scope.
Local Open Scope list_scope.

Lemma find_app {A : Type} (f : A -> bool) (l1 l2 : list A) :
  find f (l1 ++ l2)
  = match find f l1 with Some x => Some x | None => find f l2 end.
Proof.
  induction l1 as [|x rest IH]; simpl; [reflexivity|].
  destruct (f x); [reflexivity|exact IH].
Qed.

Section DedupeFacts.

Variable A : Type.
Variable key : A -> string.

Definition same_key (m x : A) : bool := String.eqb (key x) (key m).

(** What the loop keeps true after the items [seen_items]. *)
Definition dedupe_inv (st : list string * list A) (seen_items : list A)
    : Prop :=
  (forall k, In k (fst st) <-> In k (map key (snd st)))
  /\ NoDup (map key (snd st))
  /\ (forall m, In m (snd st) -> find (same_key m) seen_items = Some m)
  /\ (forall x, In x seen_items -> In (key x) (map key (snd st))).

Lemma dedupe_step_inv (st : list string * list A) (pre : list A) (m : A) :
  dedupe_inv st pre -> dedupe_inv (dedupe_step key st m) (pre ++ [m]).
Proof.
  intros (Hseen & Hnd & Hfirst & Hall). unfold dedupe_step.
  destruct (existsb (String.eqb (key m)) (fst st)) eqn:E.
  - apply existsb_exists in E. destruct E as [k [Hk Ek]].
    apply String.eqb_eq in Ek. subst k.
    split; [exact Hseen|]. split; [exact Hnd|]. split.
    + intros x Hx. rewrite find_app, (Hfirst x Hx). reflexivity.
    + intros x Hx. apply in_app_or in Hx. destruct Hx as [Hx|[<-|[]]].
      * now apply Hall.
      * now apply Hseen.
  - assert (Hnew : ~ In (key m) (map key (snd st))).
    { intro H. apply Hseen in H.
      assert (existsb (String.eqb (key m)) (fst st) = true).
      { apply existsb_exists. exists (key m). split; [exact H|].
        apply String.eqb_refl. }
      congruence. }
    unfold dedupe_inv. cbn [fst snd]. rewrite map_app. cbn [map].
    split; [|split; [|split]].
    + intro k. simpl. rewrite in_app_iff, Hseen. simpl. tauto.
    + apply NoDup_app; [exact Hnd|repeat constructor; simpl; tauto|].
      intros k Hk [<-|[]]. contradiction.
    + intros x Hx. apply in_app_or in Hx. rewrite find_app.
      destruct Hx as [Hx|[<-|[]]].
      * now rewrite (Hfirst x Hx).
      * destruct (find (same_key m) pre) as [y|] eqn:F.
        -- apply find_some in F. destruct F as [Hy Ey].
           unfold same_key in Ey. apply String.eqb_eq in Ey.
           exfalso. apply Hnew. rewrite <- Ey. now apply Hall.
        -- simpl. unfold same_key. now rewrite String.eqb_refl.
    + intros x Hx. rewrite in_app_iff. apply in_app_or in Hx.
      destruct Hx as [Hx|[<-|[]]]; [left; now apply Hall|right; now left].
Qed.

Lemma dedupe_batch_inv (batch : list A) :
  forall st pre,
    dedupe_inv st pre ->
    dedupe_inv (fold_left (dedupe_step key) batch st) (pre ++ batch).
Proof.
  induction batch as [|m rest IH]; intros st pre H; simpl.
  - now rewrite app_nil_r.
  - replace (pre ++ m :: rest) with ((pre ++ [m]) ++ rest)
      by (now rewrite <- app_assoc).
    apply IH. now apply dedupe_step_inv.
Qed.

Lemma dedupe_batches_inv (batches : list (list A)) :
  forall st pre,
    dedupe_inv st pre ->
    dedupe_inv
      (fold_left (fun st batch => fold_left (dedupe_step key) batch st)
                 batches st)
      (pre ++ List.concat batches).
Proof.
  induction batches as [|b rest IH]; intros st pre H; simpl.
  - now rewrite app_nil_r.
  - rewrite app_assoc. apply IH. now apply dedupe_batch_inv.
Qed.

Lemma dedupe_lists_spec (batches : list (list A)) :
  let out := dedupe_lists key batches in
  NoDup (map key out)
  /\ (forall m, In m out -> find (same_key m) (List.concat batches) = Some m)
  /\ (forall x, In x (List.concat batches) -> In (key x) (map key out)).
Proof.
  assert (H0 : dedupe_inv ([], []) []).
  { repeat split; simpl; try tauto. constructor. }
  pose proof (dedupe_batches_inv batches ([], []) [] H0) as H.
  simpl in H. destruct H as (_ & H1 & H2 & H3). now repeat split.
Qed.

End DedupeFacts.

Definition first_with_key (m : DatedMedia) (l : list DatedMedia)
    : option DatedMedia :=
  find (fun x => String.eqb (mediaKey x) (mediaKey m)) l.

(** X15.  Merging stored and fetched media keeps one item for each key, the
    first seen: no two kept items share a [mediaKey], every stored or
    fetched item has its key among the kept ones, and each kept item is the
    first with its key in the stored items followed by the fetched ones, so
    a stored item is never given up for a fetched one. *)
Theorem merge_media_first_seen_wins :
  forall stored fetched : list DatedMedia,
    let out := merge_media stored fetched in
    NoDup (map mediaKey out)
    /\ (forall m, In m out -> first_with_key m (stored ++ fetched) = Some m)
    /\ (forall x, In x (stored ++ fetched) ->
          In (mediaKey x) (map mediaKey out)).
Proof.
  intros stored fetched out.
  pose proof (dedupe_lists_spec DatedMedia mediaKey [stored; fetched]) as H.
  cbv zeta in H. cbn [List.concat] in H. rewrite app_nil_r in H.
  exact H.
Qed.

Section PartyFacts.

Variable Position : Type.
Variable pos_subject pos_actor : Position -> string.

Let pkey : Position -> string := position_key pos_subject pos_actor.

Definition has_key (k : string) (p : Position) : bool := String.eqb (pkey p) k.

Definition last_with_key (k : string) (l : list Position) : option Position :=
  find (has_key k) (rev l).

Definition party_inv (m : list (string * Position)) (pre : list Position)
    : Prop :=
  (forall e, In e m -> fst e = pkey (snd e))
  /\ NoDup (map fst m)
  /\ (forall k, smap_get k m = last_with_key k pre).

Lemma smap_get_set (k j : string) (v : Position)
    (m : list (string * Position)) :
  smap_get j (smap_set k v m)
  = if String.eqb k j then Some v else smap_get j m.
Proof.
  induction m as [|[k' v'] rest IH]; simpl.
  - reflexivity.
  - destruct (String.eqb k' k) eqn:E; simpl.
    + apply String.eqb_eq in E. subst k'.
      destruct (String.eqb k j); reflexivity.
    + destruct (String.eqb k' j) eqn:Ej.
      * apply String.eqb_eq in Ej. subst k'.
        rewrite String.eqb_sym in E. now rewrite E.
      * exact IH.
Qed.

Lemma smap_set_keys (k : string) (v : Position)
    (m : list (string * Position)) (j : string) :
  In j (map fst (smap_set k v m)) <-> j = k \/ In j (map fst m).
Proof.
  induction m as [|[k' v'] rest IH]; simpl.
  - intuition.
  - destruct (String.eqb k' k) eqn:E; simpl.
    + apply String.eqb_eq in E. subst k'. intuition.
    + rewrite IH. intuition.
Qed.

Lemma smap_set_nodup (k : string) (v : Position)
    (m : list (string * Position)) :
  NoDup (map fst m) -> NoDup (map fst (smap_set k v m)).
Proof.
  induction m as [|[k' v'] rest IH]; simpl; intro H.
  - repeat constructor. simpl. tauto.
  - inversion H as [|? ? Hk Hrest]; subst.
    destruct (String.eqb k' k) eqn:E; simpl.
    + now constructor.
    + constructor; [|now apply IH].
      rewrite smap_set_keys. intros [->|Hin]; [|contradiction].
      now rewrite String.eqb_refl in E.
Qed.

Lemma smap_set_entries (k : string) (v : Position)
    (m : list (string * Position)) (e : string * Position) :
  In e (smap_set k v m) -> e = (k, v) \/ In e m.
Proof.
  induction m as [|[k' v'] rest IH]; simpl.
  - intros [<-|[]]. now left.
  - destruct (String.eqb k' k) eqn:E; simpl.
    + apply String.eqb_eq in E. subst k'. intros [<-|H]; tauto.
    + intros [H|H]; [tauto|]. destruct (IH H); tauto.
Qed.

Lemma set_position_inv (m : list (string * Position)) (pre : list Position)
    (p : Position) :
  party_inv m pre ->
  party_inv (set_position pos_subject pos_actor m p) (pre ++ [p]).
Proof.
  intros (Hkeys & Hnd & Hget). unfold set_position. fold pkey.
  split; [|split].
  - intros e He. apply smap_set_entries in He.
    destruct He as [->|He]; [reflexivity|now apply Hkeys].
  - now apply smap_set_nodup.
  - intro k. rewrite smap_get_set. unfold last_with_key.
    rewrite rev_app_distr. simpl. unfold has_key at 1.
    destruct (String.eqb (pkey p) k); [reflexivity|apply Hget].
Qed.

Lemma fold_position_inv (l : list Position) :
  forall m pre,
    party_inv m pre ->
    party_inv (fold_left (set_position pos_subject pos_actor) l m) (pre ++ l).
Proof.
  induction l as [|p rest IH]; intros m pre H; simpl.
  - now rewrite app_nil_r.
  - replace (pre ++ p :: rest) with ((pre ++ [p]) ++ rest)
      by (now rewrite <- app_assoc).
    apply IH. now apply set_position_inv.
Qed.

Lemma find_values (k : string) (m : list (string * Position)) :
  (forall e, In e m -> fst e = pkey (snd e)) ->
  find (has_key k) (map snd m) = smap_get k m.
Proof.
  induction m as [|[k' v] rest IH]; intro H; simpl; [reflexivity|].
  unfold has_key at 1.
  pose proof (H (k', v) (or_introl eq_refl)) as Hk. simpl in Hk.
  rewrite <- Hk.
  destruct (String.eqb k' k); [reflexivity|].
  apply IH. intros e He. apply H. now right.
Qed.

Lemma merged_positions_spec (positions existing : list Position) :
  let out :=
    mergePartyPositionsIntoDRCM pos_subject pos_actor positions existing in
  NoDup (map pkey out)
  /\ forall k,
       find (has_key k) out = last_with_key k (existing ++ positions).
Proof.
  assert (H0 : party_inv [] []).
  { repeat split; simpl; try tauto. constructor. }
  pose proof (fold_position_inv existing [] [] H0) as H1. simpl in H1.
  pose proof (fold_position_inv positions _ _ H1) as (Hkeys & Hnd & Hget).
  unfold mergePartyPositionsIntoDRCM. split.
  - rewrite map_map.
    erewrite map_ext_in; [exact Hnd|].
    intros e He. symmetry. now apply Hkeys.
  - intro k. rewrite find_values by exact Hkeys. apply Hget.
Qed.

End PartyFacts.

(** X16.  Merging extracted party positions into the stored ones gives one
    position for each subject and actor: no two positions of the result
    share a key, and the position found under a key is the last one with
    that key among the stored positions followed by the extracted ones, so
    an extracted position replaces the stored one and the others stay. *)
Theorem merged_positions_last_wins :
  forall (Position : Type) (pos_subject pos_actor : Position -> string)
         (positions existing : list Position) (k : string),
    let out :=
      mergePartyPositionsIntoDRCM pos_subject pos_actor positions existing in
    NoDup (map (position_key pos_subject pos_actor) out)
    /\ find (fun p => String.eqb (position_key pos_subject pos_actor p) k) out
       = find (fun p => String.eqb (position_key pos_subject pos_actor p) k)
              (rev (existing ++ positions)).
Proof.
  intros Position pos_subject pos_actor positions existing k out.
  destruct (merged_positions_spec Position pos_subject pos_actor
              positions existing) as [H1 H2].
  split; [exact H1|]. apply (H2 k).
Qed.

End IngestProps.

(* ------------------------------------------------------------------ *)
(** * Shares: order, range and framings *)

Module ShareProps.

Import Taxonomy Types Text Num Aggregators AggregatorProps DominanceProps.

Local Open Scope string_scope.
Local Open Scope Q_scope.

Lemma Qmax2_least (x y z : Q) : x <= z -> y <= z -> Qmax2 x y <= z.
Proof. unfold Qmax2. now destruct (Qle_bool x y). Qed.

Lemma Qmax2_mono (x y y' : Q) : y <= y' -> Qmax2 x y <= Qmax2 x y'.
Proof.
  intro H. apply Qmax2_least; [apply Qmax2_lub_l|].
  eapply Qle_trans; [exact H|apply Qmax2_lub_r].
Qed.

(** X17.  The recency weight of an item that is not dated in the future
    lies between the floor 0.1 and 1, and an older item never weighs more
    than a newer one. *)
Theorem recency_weight_bounds :
  forall d d' : Q,
    0 <= d -> d <= d' ->
    0.1 <= recencyDecay d'
    /\ recencyDecay d' <= recencyDecay d
    /\ recencyDecay d <= 1.
Proof.
  intros d d' Hd Hdd'. unfold recencyDecay. split; [apply Qmax2_lub_l|].
  split.
  - apply Qmax2_mono. unfold Qdiv. change (/ 14) with (1 # 14). lra.
  - apply Qmax2_least; [vm_compute; discriminate|].
    unfold Qdiv. change (/ 14) with (1 # 14). lra.
Qed.

Lemma recency_weight_bounds_witness :
  0.1 <= recencyDecay 20
  /\ recencyDecay 20 <= recencyDecay 3
  /\ recencyDecay 3 <= 1.
Proof.
  apply recency_weight_bounds; vm_compute; discriminate.
Defined.

(** ** Keys of the maps *)

Definition share_down (a b : Share) : Prop := snd b <= snd a.

Lemma add_key_nodup (k : PipelineRespectId) (keys : list PipelineRespectId) :
  NoDup keys -> NoDup (add_key k keys).
Proof.
  intro H. unfold add_key.
  destruct (existsb (respect_eqb k) keys) eqn:E; [exact H|].
  apply NoDup_app; [exact H|repeat constructor; simpl; tauto|].
  intros x Hx [<-|[]].
  assert (existsb (respect_eqb k) keys = true).
  { apply existsb_exists. exists k. split; [exact Hx|apply respect_eqb_refl]. }
  congruence.
Qed.

Lemma add_key_in (k x : PipelineRespectId) (keys : list PipelineRespectId) :
  In x (add_key k keys) <-> x = k \/ In x keys.
Proof.
  unfold add_key. destruct (existsb (respect_eqb k) keys) eqn:E.
  - apply existsb_exists in E. destruct E as [y [Hy Ey]].
    apply respect_eqb_eq in Ey. subst y. split; [tauto|].
    intros [->|H]; assumption.
  - rewrite in_app_iff. simpl. intuition.
Qed.

Lemma shares_of_keys (m : RespectMap.t) :
  Permutation (map fst (shares_of m)) (map fst m).
Proof.
  unfold shares_of.
  eapply perm_trans;
    [apply Permutation_map, Permutation_sym, sort_by_perm|].
  rewrite map_map. simpl. apply Permutation_refl.
Qed.

Lemma shares_of_sorted (m : RespectMap.t) :
  StronglySorted share_down (shares_of m).
Proof.
  unfold shares_of. apply sort_by_sorted; unfold share_down, higher.
  - intros x y z Hxy Hyz. eapply Qle_trans; eassumption.
  - intros x y H. apply Qltb_lt in H. now apply Qlt_le_weak.
  - intros x y H. now apply Qltb_ge in H.
Qed.

Lemma head_leads (l : list Share) (d : Share) :
  StronglySorted share_down l ->
  Forall (fun s => snd s <= snd (match l with s0 :: _ => s0 | [] => d end)) l.
Proof.
  intro H. destruct l as [|s0 rest]; [constructor|].
  inversion H; subst. constructor; [apply Qle_refl|assumption].
Qed.

Lemma media_keys (now : Z) (rawMedia : list RawMediaItem)
    (items : list ClassifiedItem) :
  forall m0,
    map fst
      (fold_left
         (fun m c =>
            RespectMap.bump (respect_id c) (item_weight now rawMedia c) m)
         items m0)
    = fold_left (fun keys c => add_key (respect_id c) keys) items (map fst m0).
Proof.
  induction items as [|c rest IH]; intro m0; simpl; [reflexivity|].
  now rewrite IH, keys_bump_order.
Qed.

Lemma fold_add_key_nodup (items : list ClassifiedItem) :
  forall keys,
    NoDup keys ->
    NoDup (fold_left (fun keys c => add_key (respect_id c) keys) items keys).
Proof.
  induction items as [|c rest IH]; intros keys H; simpl; [exact H|].
  now apply IH, add_key_nodup.
Qed.

Lemma fold_add_key_in (items : list ClassifiedItem) (f : PipelineRespectId) :
  forall keys,
    In f (fold_left (fun keys c => add_key (respect_id c) keys) items keys)
    <-> In f keys \/ exists c, In c items /\ respect_id c = f.
Proof.
  induction items as [|c rest IH]; intro keys; simpl.
  - split; [tauto|]. intros [H|[c [[] _]]]. exact H.
  - rewrite IH, add_key_in. split.
    + intros [[->|H]|[c' [Hc' E]]]; eauto.
    + intros [H|[c' [[->|Hc'] E]]]; eauto.
Qed.

(** X18.  In every media aggregate the shares descend, no framing occurs
    twice, the framings are exactly those assigned to some classified media
    item, and no share exceeds that of the dominant framing. *)
Theorem media_dominant_leads :
  forall (now : Z) (subject : string) (classified : list ClassifiedItem)
         (rawMedia : list RawMediaItem) (window_days : nat),
    let agg :=
      aggregate_media_framing now subject classified rawMedia window_days in
    StronglySorted share_down (shares agg)
    /\ NoDup (map fst (shares agg))
    /\ (forall f,
          In f (map fst (shares agg))
          <-> exists c, In c (mediaClassified classified) /\ respect_id c = f)
    /\ Forall (fun s => snd s <= snd (dominant agg)) (shares agg).
Proof.
  intros now subject classified rawMedia window_days agg.
  unfold agg, aggregate_media_framing. cbn [shares dominant].
  set (items := mediaClassified classified).
  set (m := media_byRespect now rawMedia items).
  assert (Hkeys : map fst m
                  = fold_left (fun keys c => add_key (respect_id c) keys)
                              items []).
  { unfold m, media_byRespect. now rewrite media_keys. }
  split; [apply shares_of_sorted|]. split; [|split].
  - apply (Permutation_NoDup (Permutation_sym (shares_of_keys m))).
    rewrite Hkeys. apply fold_add_key_nodup. constructor.
  - intro f. split.
    + intro H. apply (Permutation_in f (shares_of_keys m)) in H.
      rewrite Hkeys in H. apply fold_add_key_in in H.
      destruct H as [[]|H]. exact H.
    + intro H. apply (Permutation_in f (Permutation_sym (shares_of_keys m))).
      rewrite Hkeys. apply fold_add_key_in. now right.
  - apply head_leads, shares_of_sorted.
Qed.

(** ** Shares as proportions *)

Definition nonneg (m : RespectMap.t) : Prop := Forall (fun e => 0 <= snd e) m.

Lemma at_key_nonneg (k : PipelineRespectId) (m : RespectMap.t) :
  nonneg m -> 0 <= RespectMap.at_key k m.
Proof.
  unfold nonneg, RespectMap.at_key.
  induction 1 as [|[k' v] rest Hv Hrest IH]; simpl; [apply Qle_refl|].
  destruct (respect_eqb k' k); [exact Hv|exact IH].
Qed.

Lemma set_nonneg (k : PipelineRespectId) (v : Q) (m : RespectMap.t) :
  0 <= v -> nonneg m -> nonneg (RespectMap.set k v m).
Proof.
  intros Hv. unfold nonneg.
  induction 1 as [|[k' v'] rest Hv' Hrest IH]; simpl.
  - repeat constructor. exact Hv.
  - destruct (respect_eqb k' k); constructor; auto.
Qed.

Lemma bump_nonneg (k : PipelineRespectId) (v : Q) (m : RespectMap.t) :
  0 <= v -> nonneg m -> nonneg (RespectMap.bump k v m).
Proof.
  intros Hv Hm. unfold RespectMap.bump. apply set_nonneg; [|exact Hm].
  pose proof (at_key_nonneg k m Hm) as H. unfold RespectMap.at_key in H.
  lra.
Qed.

Lemma Qsum_nonneg (l : list Q) : Forall (fun x => 0 <= x) l -> 0 <= Qsum l.
Proof.
  induction 1 as [|x rest Hx Hrest IH].
  - unfold Qsum; simpl. apply Qle_refl.
  - rewrite Qsum_cons. lra.
Qed.

Lemma Qsum_member_le (l : list Q) (x : Q) :
  Forall (fun y => 0 <= y) l -> In x l -> x <= Qsum l.
Proof.
  induction 1 as [|y rest Hy Hrest IH]; intro Hin; [destruct Hin|].
  rewrite Qsum_cons. pose proof (Qsum_nonneg rest Hrest) as Hs.
  destruct Hin as [->|Hin]; [lra|]. specialize (IH Hin). lra.
Qed.

Lemma proportion (v total : Q) :
  0 < total -> 0 <= v -> v <= total -> 0 <= v / total /\ v / total <= 1.
Proof.
  intros Ht Hv Hle. split.
  - apply Qle_shift_div_l; [exact Ht|lra].
  - apply Qle_shift_div_r; [exact Ht|lra].
Qed.

Lemma shares_of_proportions (m : RespectMap.t) :
  nonneg m ->
  Forall (fun s => 0 <= snd s /\ snd s <= 1) (shares_of m).
Proof.
  intro Hm. apply Forall_forall. intros s Hs.
  unfold shares_of in Hs. apply sort_by_In in Hs. apply in_map_iff in Hs.
  destruct Hs as [e [<- He]]. simpl.
  assert (Hvals : Forall (fun y => 0 <= y) (RespectMap.values m)).
  { unfold RespectMap.values. apply Forall_forall. intros y Hy.
    apply in_map_iff in Hy. destruct Hy as [e' [<- He']].
    unfold nonneg in Hm. rewrite Forall_forall in Hm. now apply Hm. }
  pose proof (Qsum_nonneg _ Hvals) as Hsum.
  assert (Hle : snd e <= Qsum (RespectMap.values m)).
  { apply Qsum_member_le; [exact Hvals|]. unfold RespectMap.values.
    now apply in_map. }
  assert (He0 : 0 <= snd e).
  { unfold nonneg in Hm. rewrite Forall_forall in Hm. now apply Hm. }
  unfold or_one. destruct (Qeq_bool (Qsum (RespectMap.values m)) 0) eqn:E.
  - apply Qeq_bool_iff in E. apply proportion; lra.
  - apply proportion; [|exact He0|exact Hle].
    destruct (Qlt_le_dec 0 (Qsum (RespectMap.values m))) as [Hlt|Hge];
      [exact Hlt|].
    assert (Hz : Qsum (RespectMap.values m) == 0) by lra.
    apply Qeq_bool_iff in Hz. congruence.
Qed.

Lemma media_byRespect_nonneg (now : Z) (rawMedia : list RawMediaItem)
    (items : list ClassifiedItem) :
  (forall c, In c items -> 0 <= confidence c) ->
  forall m0, nonneg m0 ->
    nonneg (fold_left
              (fun m c =>
                 RespectMap.bump (respect_id c) (item_weight now rawMedia c) m)
              items m0).
Proof.
  induction items as [|c rest IH]; intros Hconf m0 Hm0; simpl; [exact Hm0|].
  apply IH; [intros c' Hc'; apply Hconf; now right|].
  apply bump_nonneg; [|exact Hm0].
  unfold item_weight. apply Qmult_le_0_compat.
  - apply Qlt_le_weak, recencyDecay_positive.
  - apply Hconf. now left.
Qed.

(** X19.  When no classified media item has a negative confidence, every
    share of the media aggregate is a proportion between 0 and 1, also when
    the total weight is 0 and the floor 1 divides. *)
Theorem media_shares_are_proportions :
  forall (now : Z) (subject : string) (classified : list ClassifiedItem)
         (rawMedia : list RawMediaItem) (window_days : nat),
    (forall c, In c (mediaClassified classified) -> 0 <= confidence c) ->
    Forall (fun s => 0 <= snd s /\ snd s <= 1)
      (shares
         (aggregate_media_framing now subject classified rawMedia window_days)).
Proof.
  intros now subject classified rawMedia window_days Hconf.
  unfold aggregate_media_framing. cbn [shares].
  apply shares_of_proportions. unfold media_byRespect.
  apply media_byRespect_nonneg; [exact Hconf|constructor].
Qed.

Lemma media_shares_are_proportions_witness :
  Forall (fun s => 0 <= snd s /\ snd s <= 1)
    (shares
       (aggregate_media_framing the_now "small_boats" six_classified
          six_raw 14)).
Proof.
  apply media_shares_are_proportions.
  intros c Hc. simpl in Hc.
  repeat (destruct Hc as [<-|Hc]; [vm_compute; discriminate|]).
  destruct Hc.
Defined.

End ShareProps.

(* ------------------------------------------------------------------ *)
(** * The polling aggregate and the source identifiers *)

Module PollingProps.

Import Taxonomy Types Text Num Aggregators AggregatorProps DominanceProps.
Import ShareProps.

Local Open Scope string_scope.
Local Open Scope Q_scope.

(** The framings that a pattern of [POLL_OPTION_TO_RESPECT] names. *)
Definition pattern_framings : list PipelineRespectId :=
  [security_border; humanitarian; rule_of_law; sovereignty_control].

Definition only_pattern_framings (keys : list PipelineRespectId) : Prop :=
  forall f, In f keys -> In f pattern_framings.

Lemma option_respect_pattern (opt : string) (r : PipelineRespectId) :
  option_respect opt = Some r -> In r pattern_framings.
Proof.
  unfold option_respect.
  destruct (find (fun e => test_any (fst e) opt) POLL_OPTION_TO_RESPECT)
    as [[pats r']|] eqn:F; [|discriminate].
  intro H. inversion H; subst; clear H.
  apply find_some in F. destruct F as [F _].
  unfold POLL_OPTION_TO_RESPECT in F. simpl in F.
  destruct F as [F|[F|[F|[F|[]]]]]; inversion F; subst; simpl; tauto.
Qed.

Lemma add_share_keys (r : PipelineRespectId) (pct : Q) (out : list Share) :
  map fst (add_share r pct out) = add_key r (map fst out).
Proof.
  unfold add_key. induction out as [|[r' s] rest IH]; simpl; [reflexivity|].
  rewrite (respect_eqb_sym r r').
  destruct (respect_eqb r' r) eqn:E; simpl; [reflexivity|].
  rewrite IH. now destruct (existsb (respect_eqb r) (map fst rest)).
Qed.

Lemma map_options_keys (results : list Q) (opts : list string) :
  forall i out,
    NoDup (map fst out) -> only_pattern_framings (map fst out) ->
    NoDup (map fst (map_options results i opts out))
    /\ only_pattern_framings (map fst (map_options results i opts out)).
Proof.
  induction opts as [|opt rest IH]; intros i out Hnd Hin; simpl; [tauto|].
  destruct (option_respect opt) as [r|] eqn:E; [|now apply IH].
  apply IH.
  - rewrite add_share_keys. now apply add_key_nodup.
  - rewrite add_share_keys. intros f Hf. apply add_key_in in Hf.
    destruct Hf as [->|Hf]; [eapply option_respect_pattern; exact E|].
    now apply Hin.
Qed.

Lemma mapPoll_keys (p : RawPollItem) :
  NoDup (map fst (mapPollToRespectShare p))
  /\ only_pattern_framings (map fst (mapPollToRespectShare p)).
Proof.
  unfold mapPollToRespectShare.
  destruct (map_options_keys (results p) (options p) 0 (@nil Share))
    as [H1 H2]; [constructor|intros f []|].
  revert H1 H2.
  destruct (map_options (results p) 0 (options p) (@nil Share))
    as [|e rest]; intros H1 H2.
  - split; [repeat constructor; simpl; tauto|].
    intros f [<-|[]]. simpl. tauto.
  - split; [exact H1|exact H2].
Qed.

(** X20.  The option mapping of a poll is never empty, names no framing
    twice, and names only the four framings that the option patterns know
    (security, humanitarian, rule of law, sovereignty): at most four
    entries. *)
Theorem mapPoll_result_shape :
  forall p : RawPollItem,
    mapPollToRespectShare p <> []
    /\ NoDup (map fst (mapPollToRespectShare p))
    /\ only_pattern_framings (map fst (mapPollToRespectShare p))
    /\ (List.length (mapPollToRespectShare p) <= 4)%nat.
Proof.
  intro p. destruct (mapPoll_keys p) as [Hnd Hin].
  split; [|split; [exact Hnd|split; [exact Hin|]]].
  - unfold mapPollToRespectShare.
    destruct (map_options (results p) 0 (options p) []); discriminate.
  - pose proof (NoDup_incl_length Hnd Hin) as H.
    rewrite length_map in H. exact H.
Qed.

Lemma bump_fold_keys (c : ClassifiedItem) (l : list Share) :
  forall m,
    NoDup (map fst m) -> only_pattern_framings (map fst m) ->
    only_pattern_framings (map fst l) ->
    NoDup (map fst
             (fold_left
                (fun m' e => RespectMap.bump (fst e) (snd e * confidence c) m')
                l m))
    /\ only_pattern_framings
         (map fst
            (fold_left
               (fun m' e => RespectMap.bump (fst e) (snd e * confidence c) m')
               l m)).
Proof.
  induction l as [|e rest IH]; intros m Hnd Hin Hl; simpl; [tauto|].
  apply IH.
  - rewrite keys_bump_order. now apply add_key_nodup.
  - rewrite keys_bump_order. intros f Hf. apply add_key_in in Hf.
    destruct Hf as [->|Hf]; [apply Hl; now left|now apply Hin].
  - intros f Hf. apply Hl. now right.
Qed.

Lemma poll_fold_keys (rawPolls : list RawPollItem) (items : list ClassifiedItem) :
  forall m,
    NoDup (map fst m) -> only_pattern_framings (map fst m) ->
    NoDup (map fst (fold_left (poll_step rawPolls) items m))
    /\ only_pattern_framings
         (map fst (fold_left (poll_step rawPolls) items m)).
Proof.
  induction items as [|c rest IH]; intros m Hnd Hin; simpl; [tauto|].
  unfold poll_step at 2 4.
  destruct (find_poll rawPolls (item_id c)) as [found|]; [|now apply IH].
  destruct (bump_fold_keys c (mapPollToRespectShare found) m Hnd Hin)
    as [H1 H2]; [apply mapPoll_keys|].
  now apply IH.
Qed.

Lemma perm_only (l l' : list PipelineRespectId) :
  Permutation l l' -> only_pattern_framings l' -> only_pattern_framings l.
Proof.
  intros Hp H f Hf. apply H. eapply Permutation_in; eassumption.
Qed.

(** X21.  In every public polling aggregate the reported shares descend,
    name no framing twice and name only the four framings of the option
    patterns, so the cut at five shares never drops one; no share exceeds
    that of the public prior. *)
Theorem public_prior_leads :
  forall (subject : string) (classified : list ClassifiedItem)
         (rawPolls : list RawPollItem) (window_months : nat),
    let agg :=
      aggregate_public_polling subject classified rawPolls window_months in
    StronglySorted share_down (pp_shares agg)
    /\ NoDup (map fst (pp_shares agg))
    /\ only_pattern_framings (map fst (pp_shares agg))
    /\ (List.length (pp_shares agg) <= 4)%nat
    /\ Forall (fun s => snd s <= snd (public_prior agg)) (pp_shares agg).
Proof.
  intros subject classified rawPolls window_months agg.
  unfold agg, aggregate_public_polling. cbn [pp_shares public_prior].
  set (m := fold_left (poll_step rawPolls) (pollClassified classified) []).
  destruct (poll_fold_keys rawPolls (pollClassified classified) [])
    as [Hnd Hin]; [constructor|intros f []|]. fold m in Hnd, Hin.
  assert (Hnd' : NoDup (map fst (shares_of m)))
    by (apply (Permutation_NoDup (Permutation_sym (shares_of_keys m))), Hnd).
  assert (Hin' : only_pattern_framings (map fst (shares_of m)))
    by (apply (perm_only _ _ (shares_of_keys m)), Hin).
  assert (Hlen : (List.length (shares_of m) <= 4)%nat).
  { pose proof (NoDup_incl_length Hnd' Hin') as H.
    rewrite length_map in H. exact H. }
  rewrite firstn_all2 by lia.
  split; [apply shares_of_sorted|]. split; [exact Hnd'|].
  split; [exact Hin'|]. split; [exact Hlen|].
  apply head_leads, shares_of_sorted.
Qed.

(** ** Source identifiers *)

Lemma dedup_spec (ids : list string) :
  forall seen,
    NoDup (dedup seen ids)
    /\ forall x, In x (dedup seen ids) <-> In x ids /\ ~ In x seen.
Proof.
  induction ids as [|y rest IH]; intro seen; simpl.
  - split; [constructor|]. tauto.
  - destruct (existsb (String.eqb y) seen) eqn:E.
    + apply existsb_exists in E. destruct E as [z [Hz Ez]].
      apply String.eqb_eq in Ez. subst z.
      destruct (IH seen) as [H1 H2]. split; [exact H1|].
      intro x. rewrite H2. split; [tauto|].
      intros [[->|H] Hn]; [contradiction|tauto].
    + assert (Hy : ~ In y seen).
      { intro H.
        assert (existsb (String.eqb y) seen = true).
        { apply existsb_exists. exists y. split; [exact H|].
          apply String.eqb_refl. }
        congruence. }
      destruct (IH (y :: seen)) as [H1 H2]. split.
      * constructor; [|exact H1]. rewrite H2. simpl. tauto.
      * intro x. simpl. rewrite H2. simpl. split.
        -- intros [<-|[H Hn]]; tauto.
        -- intros [[<-|H] Hn]; [tauto|].
           destruct (string_dec y x) as [->|Hne]; [tauto|]. right. tauto.
Qed.

(** X22.  The source identifiers of both aggregates are the identifiers of
    the raw items without repetition: none occurs twice, each raw item's
    identifier is there and nothing else is; the media volume counts the
    raw items, repetitions included. *)
Theorem source_ids_are_the_distinct_ids :
  forall (now : Z) (subject : string) (classified : list ClassifiedItem)
         (rawMedia : list RawMediaItem) (rawPolls : list RawPollItem)
         (window_days window_months : nat),
    let media :=
      aggregate_media_framing now subject classified rawMedia window_days in
    let polls :=
      aggregate_public_polling subject classified rawPolls window_months in
    NoDup (source_ids media)
    /\ (forall id, In id (source_ids media) <-> In id (map m_id rawMedia))
    /\ volume media = List.length rawMedia
    /\ NoDup (pp_source_ids polls)
    /\ (forall id, In id (pp_source_ids polls) <-> In id (map p_id rawPolls)).
Proof.
  intros now subject classified rawMedia rawPolls wd wm media polls.
  unfold media, polls, aggregate_media_framing, aggregate_public_polling.
  cbn [source_ids volume pp_source_ids].
  destruct (dedup_spec (map m_id rawMedia) []) as [M1 M2].
  destruct (dedup_spec (map p_id rawPolls) []) as [P1 P2].
  split; [exact M1|]. split; [intro id; rewrite M2; simpl; tauto|].
  split; [reflexivity|]. split; [exact P1|].
  intro id. rewrite P2. simpl. tauto.
Qed.

End PollingProps.

(* ------------------------------------------------------------------ *)
(** * [aggregators.ts]: reality metrics *)

Module Metrics.

Import Taxonomy Types Text Num Aggregators.

Local Open Scope string_scope.
Local Open Scope Q_scope.

Inductive Direction : Set := up | down | flat.

Definition direction_name (d : Direction) : string :=
  match d with up => "up" | down => "down" | flat => "flat" end.

Record RealityMetricReading : Type := {
  rd_respect_id : PipelineRespectId;
  rd_text : string
}.

Record RealityMetricEntry : Type := {
  e_metric_id : string;
  e_label : string;
  e_unit : string;
  latest : Q;
  previous : Q;
  delta : Q;
  delta_pct : Q;
  direction : Direction;
  readings : list RealityMetricReading;
  e_source_id : option string
}.

Record RealityMetricsAggregate : Type := {
  rm_updated_at : string;
  metrics : list RealityMetricEntry;
  rm_source_ids : list string
}.

Definition SMALL_BOATS_READING_TEMPLATES (r : PipelineRespectId)
    : option (RawMetricItem -> Direction -> string) :=
  match r with
  | security_border =>
      Some (fun _ dir =>
              match dir with
              | down => "Deterrence working; still a threat, need to sustain."
              | _ => "Routes riskier; deterrence message."
              end)
  | humanitarian =>
      Some (fun _ dir =>
              match dir with
              | up => "Safe routes would save lives; humanitarian frame gains."
              | _ => "Route more dangerous; need safe pathways."
              end)
  | rule_of_law => Some (fun _ _ => "System failure intensifies legal risk.")
  | capacity_delivery =>
      Some (fun m _ =>
              "Backlog and processing: " ++ metric_label m ++ " "
              ++ (if Qltb (previous_value m) (latest_value m)
                  then "worsening" else "improving") ++ ".")
  | _ => None
  end.

Definition reading_respects : list PipelineRespectId :=
  [security_border; humanitarian; rule_of_law].

Definition reading_of (m : RawMetricItem) (dir : Direction)
    (r : PipelineRespectId) : RealityMetricReading :=
  {| rd_respect_id := r;
     rd_text :=
       match SMALL_BOATS_READING_TEMPLATES r with
       | Some template => template m dir
       | None => respect_name r ++ ": metric " ++ direction_name dir ++ "."
       end |}.

Definition entry_of (m : RawMetricItem) : RealityMetricEntry :=
  let d := latest_value m - previous_value m in
  let dir := if Qltb 0 d then up else if Qltb d 0 then down else flat in
  {| e_metric_id := metric_id m;
     e_label := metric_label m;
     e_unit := unit m;
     latest := latest_value m;
     previous := previous_value m;
     delta := d;
     delta_pct :=
       if Qeq_bool (previous_value m) 0 then 0
       else d / previous_value m * 100;
     direction := dir;
     readings := map (reading_of m dir) reading_respects;
     e_source_id := source_ref m |}.

(** The default comparator of [Array.prototype.sort] on strings. *)
Definition string_before (y x : string) : bool := String.ltb y x.

(** [l.sort().reverse()[0]], with [now_iso] for the empty array. *)
Definition latest_stamp (now_iso : string) (stamps : list string) : string :=
  match stamps with
  | [] => now_iso
  | _ :: _ => hd now_iso (rev (sort_by string_before stamps))
  end.

(** [source_ref] when it is a non-empty string. *)
Definition truthy_ref (m : RawMetricItem) : option string :=
  match source_ref m with
  | Some s => if nonempty s then Some s else None
  | None => None
  end.

Definition aggregate_reality_metrics (now_iso subject : string)
    (rawMetrics : list RawMetricItem) : RealityMetricsAggregate :=
  {| rm_updated_at := latest_stamp now_iso (map updated_at rawMetrics);
     metrics := map entry_of rawMetrics;
     rm_source_ids := dedup [] (keep_found truthy_ref rawMetrics) |}.

End Metrics.

(* ------------------------------------------------------------------ *)
(** * Properties of the reality metrics *)

Module MetricProps.

Import Taxonomy Types Text Num Aggregators Metrics.

Local Open Scope string_scope.
Local Open Scope Q_scope.

(** What an entry says of its metric: the change, its sign and its
    percentage. *)
Definition entry_describes (m : RawMetricItem) (e : RealityMetricEntry)
    : Prop :=
  e_metric_id e = metric_id m
  /\ previous e + delta e == latest e
  /\ latest e = latest_value m /\ previous e = previous_value m
  /\ (direction e = up <-> previous_value m < latest_value m)
  /\ (direction e = down <-> latest_value m < previous_value m)
  /\ (direction e = flat <-> latest_value m == previous_value m)
  /\ (if Qeq_bool (previous_value m) 0 then delta_pct e = 0
      else delta_pct e * previous_value m == delta e * 100)
  /\ map rd_respect_id (readings e) = reading_respects.

Lemma entry_of_describes (m : RawMetricItem) : entry_describes m (entry_of m).
Proof.
  unfold entry_describes, entry_of. cbn.
  split; [reflexivity|]. split; [ring|]. split; [reflexivity|].
  split; [reflexivity|].
  destruct (Qltb 0 (latest_value m - previous_value m)) eqn:E1.
  - apply Qltb_lt in E1.
    split; [split; [intros _; lra|reflexivity]|].
    split; [split; [discriminate|intro; lra]|].
    split; [split; [discriminate|intro; lra]|].
    split; [|reflexivity].
    destruct (Qeq_bool (previous_value m) 0) eqn:E; [reflexivity|].
    field. intro H. apply Qeq_bool_iff in H. congruence.
  - apply Qltb_ge in E1.
    destruct (Qltb (latest_value m - previous_value m) 0) eqn:E2.
    + apply Qltb_lt in E2.
      split; [split; [discriminate|intro; lra]|].
      split; [split; [intros _; lra|reflexivity]|].
      split; [split; [discriminate|intro; lra]|].
      split; [|reflexivity].
      destruct (Qeq_bool (previous_value m) 0) eqn:E; [reflexivity|].
      field. intro H. apply Qeq_bool_iff in H. congruence.
    + apply Qltb_ge in E2.
      split; [split; [discriminate|intro; lra]|].
      split; [split; [discriminate|intro; lra]|].
      split; [split; [intros _; lra|reflexivity]|].
      split; [|reflexivity].
      destruct (Qeq_bool (previous_value m) 0) eqn:E; [reflexivity|].
      field. intro H. apply Qeq_bool_iff in H. congruence.
Qed.

(** X23.  The metrics aggregate has one entry for each metric, in order:
    the entry's delta is latest minus previous, its direction is up, down
    or flat exactly as latest is above, below or equal to previous, its
    percentage is 0 for a previous value of 0 and otherwise delta over
    previous times 100, and it is read through the same three framings. *)
Theorem metric_entries_describe_their_metrics :
  forall (now_iso subject : string) (rawMetrics : list RawMetricItem),
    Forall2 entry_describes rawMetrics
      (metrics (aggregate_reality_metrics now_iso subject rawMetrics)).
Proof.
  intros now_iso subject rawMetrics. cbn [aggregate_reality_metrics metrics].
  induction rawMetrics as [|m rest IH]; simpl; constructor; auto.
  apply entry_of_describes.
Qed.

(** ** The latest time stamp *)

Definition at_most (a b : string) : Prop := String.leb a b = true.

Lemma leb_spec (a b : string) :
  at_most a b <-> String_as_OT.lt a b \/ a = b.
Proof.
  unfold at_most, String.leb.
  pose proof (String_as_OT.cmp_lt a b) as Hlt.
  pose proof (String_as_OT.cmp_eq a b) as Heq.
  change (String_as_OT.cmp a b) with (String.compare a b) in *.
  destruct (String.compare a b) eqn:E.
  - split; [intros _; right; now apply Heq|reflexivity].
  - split; [intros _; left; now apply Hlt|reflexivity].
  - split; [discriminate|].
    intros [H|H]; [apply Hlt in H|apply Heq in H]; discriminate.
Qed.

Lemma at_most_refl (a : string) : at_most a a.
Proof. apply leb_spec. now right. Qed.

Lemma at_most_trans (a b c : string) :
  at_most a b -> at_most b c -> at_most a c.
Proof.
  rewrite !leb_spec. intros [H1 | ->] [H2 | ->]; auto.
  left. eapply String_as_OT.lt_trans; eassumption.
Qed.

Lemma before_at_most (x y : string) : string_before y x = true -> at_most y x.
Proof.
  unfold string_before, String.ltb, at_most, String.leb.
  destruct (String.compare y x); congruence.
Qed.

Lemma not_before_at_most (x y : string) :
  string_before y x = false -> at_most x y.
Proof.
  unfold string_before, String.ltb, at_most, String.leb.
  rewrite (String.compare_antisym y x).
  destruct (String.compare x y); simpl; congruence.
Qed.

Lemma sorted_last_is_greatest (l : list string) (z : string) :
  StronglySorted at_most (l ++ [z]) -> Forall (fun x => at_most x z) l.
Proof.
  induction l as [|a rest IH]; simpl; intro H; [constructor|].
  inversion H as [|? ? Hs Hall]; subst. constructor; [|now apply IH].
  rewrite Forall_forall in Hall. apply Hall. apply in_or_app. right. now left.
Qed.

(** X24.  With at least one metric, the aggregate's [updated_at] is the
    latest of the metrics' time stamps in the order of strings: it is the
    time stamp of one of the metrics and none of them is above it. *)
Theorem updated_at_is_latest :
  forall (now_iso subject : string) (rawMetrics : list RawMetricItem),
    rawMetrics <> [] ->
    let agg := aggregate_reality_metrics now_iso subject rawMetrics in
    In (rm_updated_at agg) (map updated_at rawMetrics)
    /\ forall m, In m rawMetrics -> at_most (updated_at m) (rm_updated_at agg).
Proof.
  intros now_iso subject rawMetrics Hne agg.
  unfold agg, aggregate_reality_metrics. cbn [rm_updated_at].
  set (stamps := map updated_at rawMetrics).
  assert (Hstamps : stamps <> []).
  { unfold stamps. destruct rawMetrics; [congruence|discriminate]. }
  unfold latest_stamp. destruct stamps as [|s0 rest] eqn:Es; [congruence|].
  rewrite <- Es. clear Hstamps.
  pose proof (sort_by_sorted _ string_before at_most at_most_trans
                before_at_most not_before_at_most stamps) as Hsorted.
  pose proof (sort_by_In _ string_before stamps) as Hin.
  assert (Hnil : sort_by string_before stamps <> []).
  { intro H. apply sort_by_nil_inv in H. rewrite Es in H. discriminate. }
  destruct (exists_last Hnil) as [front [z Ez]].
  rewrite Ez in Hsorted. rewrite Ez, rev_app_distr. cbn [rev app hd].
  split.
  - apply Hin. rewrite Ez. apply in_or_app. right. now left.
  - intros m Hm.
    assert (Hx : In (updated_at m) (front ++ [z])).
    { rewrite <- Ez. apply Hin. unfold stamps. now apply in_map. }
    apply in_app_or in Hx. destruct Hx as [Hx|[<-|[]]].
    + pose proof (sorted_last_is_greatest front z Hsorted) as Hall.
      rewrite Forall_forall in Hall. now apply Hall.
    + apply at_most_refl.
Qed.

Lemma updated_at_is_latest_witness :
  let agg :=
    aggregate_reality_metrics "2025-03-01T00:00:00.000Z" "small_boats"
      [ClassifierProps.metric_backlog] in
  In (rm_updated_at agg) (map updated_at [ClassifierProps.metric_backlog])
  /\ forall m, In m [ClassifierProps.metric_backlog] ->
       at_most (updated_at m) (rm_updated_at agg).
Proof.
  apply updated_at_is_latest. discriminate.
Defined.

End MetricProps.

(* ------------------------------------------------------------------ *)
(** * The snapshot: winner, alternatives and bounds *)

Module VoteProps.

Import Taxonomy Types Num Aggregators Dominance DominanceProps ShareProps.

Local Open Scope string_scope.
Local Open Scope Q_scope.

Lemma vote_keys (media : MediaFramingAggregate)
    (publicAgg : PublicPollingAggregate) (subject : string) :
  map fst (vote_scores media publicAgg subject)
  = voting_order media publicAgg subject.
Proof.
  unfold vote_scores, voting_order.
  destruct (INSTITUTIONAL_RESPECT_BY_SUBJECT subject);
    now rewrite !keys_bump_order.
Qed.

Lemma add_key_length (k : PipelineRespectId) (keys : list PipelineRespectId) :
  (List.length keys <= List.length (add_key k keys) <= S (List.length keys))%nat.
Proof.
  unfold add_key. destruct (existsb (respect_eqb k) keys).
  - lia.
  - rewrite length_app. simpl. lia.
Qed.

Lemma voting_order_shape (media : MediaFramingAggregate)
    (publicAgg : PublicPollingAggregate) (subject : string) :
  NoDup (voting_order media publicAgg subject)
  /\ (1 <= List.length (voting_order media publicAgg subject) <= 3)%nat.
Proof.
  unfold voting_order.
  set (k1 := add_key (fst (dominant media)) []).
  set (k2 := add_key (fst (public_prior publicAgg)) k1).
  assert (H1 : NoDup k1) by (apply add_key_nodup; constructor).
  assert (H2 : NoDup k2) by (now apply add_key_nodup).
  assert (L1 : List.length k1 = 1%nat) by reflexivity.
  pose proof (add_key_length (fst (public_prior publicAgg)) k1) as L2.
  fold k2 in L2.
  destruct (INSTITUTIONAL_RESPECT_BY_SUBJECT subject) as [inst|].
  - split; [now apply add_key_nodup|].
    pose proof (add_key_length (inst_respect inst) k2). lia.
  - split; [exact H2|lia].
Qed.

(** X25.  In every snapshot the winner and the alternatives are the scored
    framings, each once: no alternative scores above the winner, the
    alternatives descend, and since only three sources vote there are at
    most two of them. *)
Theorem winner_outranks_alternatives :
  forall (now_iso : string) (media : MediaFramingAggregate)
         (publicAgg : PublicPollingAggregate) (subject : string),
    let snap := weightedVote now_iso media publicAgg subject in
    Forall (fun a => snd a <= snd (snap_dominant snap)) (alternative snap)
    /\ StronglySorted by_score_down (alternative snap)
    /\ NoDup (map fst (snap_dominant snap :: alternative snap))
    /\ Permutation (map fst (snap_dominant snap :: alternative snap))
                   (voting_order media publicAgg subject)
    /\ (List.length (alternative snap) <= 2)%nat.
Proof.
  intros now_iso media publicAgg subject snap.
  destruct (voting_order_shape media publicAgg subject) as [Hnd Hlen].
  pose proof (ranked_sorted media publicAgg subject) as Hs.
  assert (Hperm : Permutation (map fst (ranked media publicAgg subject))
                    (voting_order media publicAgg subject)).
  { rewrite <- vote_keys. unfold ranked.
    apply Permutation_map, Permutation_sym, sort_by_perm. }
  unfold snap, weightedVote. cbn [snap_dominant alternative].
  revert Hperm Hs.
  destruct (ranked media publicAgg subject) as [|e rest]; intros Hperm Hs.
  { apply Permutation_length in Hperm. cbn [map List.length] in Hperm.
    exfalso. clear - Hlen Hperm. lia. }
  assert (Hrest : (List.length rest <= 2)%nat).
  { apply Permutation_length in Hperm. cbn [map List.length] in Hperm.
    rewrite length_map in Hperm. lia. }
  cbn [skipn]. rewrite firstn_all2 by lia.
  inversion Hs as [|? ? Hs' Hall]; subst.
  split; [exact Hall|]. split; [exact Hs'|].
  split; [apply (Permutation_NoDup (Permutation_sym Hperm)), Hnd|].
  split; [exact Hperm|exact Hrest].
Qed.

(** X26.  When the sources agree there is no contest: if the public prior
    names the framing of the media aggregate, and so does the institutional
    entry when the subject has one, the winner is that framing, there is no
    alternative and the split flag is off. *)
Theorem unanimous_sources_no_split :
  forall (now_iso : string) (media : MediaFramingAggregate)
         (publicAgg : PublicPollingAggregate) (subject : string),
    fst (public_prior publicAgg) = fst (dominant media) ->
    (forall inst, INSTITUTIONAL_RESPECT_BY_SUBJECT subject = Some inst ->
                  inst_respect inst = fst (dominant media)) ->
    let snap := weightedVote now_iso media publicAgg subject in
    fst (snap_dominant snap) = fst (dominant media)
    /\ alternative snap = []
    /\ split_dominance snap = false.
Proof.
  intros now_iso media publicAgg subject Hp Hi snap.
  assert (Hkeys : voting_order media publicAgg subject
                  = [fst (dominant media)]).
  { assert (Hsame : forall a, add_key a [a] = [a]).
    { intro a. unfold add_key. simpl. now rewrite respect_eqb_refl. }
    unfold voting_order. rewrite Hp.
    change (add_key (fst (dominant media)) []) with [fst (dominant media)].
    destruct (INSTITUTIONAL_RESPECT_BY_SUBJECT subject) as [inst|] eqn:E.
    - rewrite (Hi inst eq_refl). now rewrite !Hsame.
    - apply Hsame. }
  assert (Hperm : Permutation (map fst (ranked media publicAgg subject))
                    [fst (dominant media)]).
  { rewrite <- Hkeys, <- vote_keys. unfold ranked.
    apply Permutation_map, Permutation_sym, sort_by_perm. }
  unfold snap, weightedVote. cbn [snap_dominant alternative split_dominance].
  revert Hperm.
  destruct (ranked media publicAgg subject) as [|e [|e' rest]]; intro Hperm.
  - apply Permutation_length in Hperm. discriminate.
  - apply Permutation_length_1_inv in Hperm. simpl in Hperm.
    inversion Hperm. repeat split; reflexivity.
  - apply Permutation_length in Hperm. discriminate.
Qed.

Lemma unanimous_sources_no_split_witness :
  let snap :=
    weightedVote "2025-03-01T00:00:00.000Z" media_abc public_abc
      "small_boats" in
  fst (snap_dominant snap) = security_border
  /\ alternative snap = []
  /\ split_dominance snap = false.
Proof.
  apply (unanimous_sources_no_split "2025-03-01T00:00:00.000Z" media_abc
           public_abc "small_boats").
  - reflexivity.
  - intros inst H. vm_compute in H. inversion H. reflexivity.
Defined.

Lemma vote_scores_nonneg (media : MediaFramingAggregate)
    (publicAgg : PublicPollingAggregate) (subject : string) :
  0 <= snd (dominant media) -> 0 <= snd (public_prior publicAgg) ->
  nonneg (vote_scores media publicAgg subject).
Proof.
  intros Hm Hp. unfold vote_scores, MEDIA_WEIGHT, PUBLIC_WEIGHT.
  assert (H1 : 0 <= snd (dominant media) * 0.45)
    by (apply Qmult_le_0_compat; [exact Hm|vm_compute; discriminate]).
  assert (H2 : 0 <= snd (public_prior publicAgg) * 0.35)
    by (apply Qmult_le_0_compat; [exact Hp|vm_compute; discriminate]).
  destruct (INSTITUTIONAL_RESPECT_BY_SUBJECT subject).
  - apply bump_nonneg; [vm_compute; discriminate|].
    apply bump_nonneg; [exact H2|]. apply bump_nonneg; [exact H1|constructor].
  - apply bump_nonneg; [exact H2|]. apply bump_nonneg; [exact H1|constructor].
Qed.

Lemma vote_scores_total (media : MediaFramingAggregate)
    (publicAgg : PublicPollingAggregate) (subject : string) :
  Qsum (RespectMap.values (vote_scores media publicAgg subject))
  == snd (dominant media) * MEDIA_WEIGHT
     + snd (public_prior publicAgg) * PUBLIC_WEIGHT
     + match INSTITUTIONAL_RESPECT_BY_SUBJECT subject with
       | Some _ => INSTITUTIONAL_WEIGHT
       | None => 0
       end.
Proof.
  unfold vote_scores.
  destruct (INSTITUTIONAL_RESPECT_BY_SUBJECT subject);
    rewrite !RespectMap.values_bump_sum;
    change (Qsum (RespectMap.values [])) with 0; ring.
Qed.

(** X27.  When the two top shares are proportions, the scores are too: the
    scores of all framings add up to 0.45 times the media share plus 0.35
    times the public share plus 0.20 for a configured subject, every score
    lies between 0 and 1, and so does the score of the winner. *)
Theorem scores_are_bounded :
  forall (now_iso : string) (media : MediaFramingAggregate)
         (publicAgg : PublicPollingAggregate) (subject : string),
    0 <= snd (dominant media) <= 1 ->
    0 <= snd (public_prior publicAgg) <= 1 ->
    let snap := weightedVote now_iso media publicAgg subject in
    Qsum (RespectMap.values (vote_scores media publicAgg subject))
    == snd (dominant media) * MEDIA_WEIGHT
       + snd (public_prior publicAgg) * PUBLIC_WEIGHT
       + match INSTITUTIONAL_RESPECT_BY_SUBJECT subject with
         | Some _ => INSTITUTIONAL_WEIGHT
         | None => 0
         end
    /\ Forall (fun e => 0 <= snd e /\ snd e <= 1)
              (snap_dominant snap :: alternative snap).
Proof.
  intros now_iso media publicAgg subject [Hm0 Hm1] [Hp0 Hp1] snap.
  pose proof (vote_scores_total media publicAgg subject) as Htot.
  split; [exact Htot|].
  pose proof (vote_scores_nonneg media publicAgg subject Hm0 Hp0) as Hnn.
  assert (Hle1 : Qsum (RespectMap.values (vote_scores media publicAgg subject))
                 <= 1).
  { rewrite Htot. unfold MEDIA_WEIGHT, PUBLIC_WEIGHT, INSTITUTIONAL_WEIGHT.
    destruct (INSTITUTIONAL_RESPECT_BY_SUBJECT subject); lra. }
  assert (Hall : forall e, In e (ranked media publicAgg subject) ->
                   0 <= snd e /\ snd e <= 1).
  { intros e He. unfold ranked in He. apply sort_by_In in He.
    unfold nonneg in Hnn. rewrite Forall_forall in Hnn. split; [now apply Hnn|].
    eapply Qle_trans; [|exact Hle1].
    apply Qsum_member_le.
    - unfold RespectMap.values. apply Forall_forall. intros y Hy.
      apply in_map_iff in Hy. destruct Hy as [e' [<- He']]. now apply Hnn.
    - unfold RespectMap.values. now apply in_map. }
  unfold snap, weightedVote. cbn [snap_dominant alternative].
  revert Hall.
  destruct (ranked media publicAgg subject) as [|e rest]; intro Hall.
  - constructor; [simpl; split; vm_compute; discriminate|constructor].
  - apply Forall_forall. intros x Hx. apply Hall.
    destruct Hx as [<-|Hx]; [now left|].
    right. cbn [skipn] in Hx. eapply AggregatorProps.firstn_In. exact Hx.
Qed.

Lemma scores_are_bounded_witness :
  Forall (fun e => 0 <= snd e /\ snd e <= 1)
    (snap_dominant
       (weightedVote "2025-03-01T00:00:00.000Z" media_h public_s
          "small_boats")
     :: alternative
          (weightedVote "2025-03-01T00:00:00.000Z" media_h public_s
             "small_boats")).
Proof.
  refine (proj2
    (scores_are_bounded "2025-03-01T00:00:00.000Z" media_h public_s
       "small_boats" _ _)); split; vm_compute; discriminate.
Defined.

End VoteProps.

(* ------------------------------------------------------------------ *)
(** * [aggregators.ts]: top phrases of the headlines *)

Module TopPhrases.

Import Text Ingest.

Local Open Scope string_scope.

Definition STOPWORDS : list string :=
  ["the"; "a"; "an"; "and"; "or"; "but"; "in"; "on"; "at"; "to"; "for"; "of";
   "with"; "by"; "is"; "are"; "was"; "were"; "be"; "been"; "being"; "have";
   "has"; "had"; "do"; "does"; "did"; "will"; "would"; "could"; "should";
   "may"; "might"; "must"; "can"; "new"; "says"].

Definition is_stopword (t : string) : bool := existsb (String.eqb t) STOPWORDS.

(** The tokens of one title that are counted. *)
Definition phrase_tokens (headline : string) : list string :=
  filter (fun t => (2 <? String.length t)%nat && negb (is_stopword t))
         (split_ws (blank_punctuation (toLowerCase headline))).

(** [counts.set(t, (counts.get(t) ?? 0) + 1)] *)
Definition count_token (counts : list (string * nat)) (t : string)
    : list (string * nat) :=
  smap_set t (match smap_get t counts with Some c => c | None => 0 end + 1)
           counts.

Definition count_tokens (titles : list string) : list (string * nat) :=
  fold_left (fun counts h => fold_left count_token (phrase_tokens h) counts)
            titles [].

(** The comparator [(a, b) => b[1] - a[1]] on counts. *)
Definition more_often (y x : string * nat) : bool := (snd x <? snd y)%nat.

Definition topPhrasesFromHeadlines (titles : list string) (n : nat)
    : list string :=
  map fst (firstn n (sort_by more_often (count_tokens titles))).

End TopPhrases.

Module TopPhraseProps.

Import Text Ingest IngestProps TopPhrases CatalogProps.

Local Open Scope string_scope.
Local Open Scope list_scope.

(** A counted word: it comes from a title, has three characters or more,
    all lower-case letters, digits or underscores, and is no stop word. *)
Definition counted_word (titles : list string) (t : string) : Prop :=
  (exists h, In h titles /\ In t (phrase_tokens h))
  /\ (3 <= String.length t)%nat
  /\ is_stopword t = false
  /\ all_chars token_char t = true.

Lemma phrase_token_spec (h t : string) :
  In t (phrase_tokens h) ->
  (3 <= String.length t)%nat /\ is_stopword t = false
  /\ all_chars token_char t = true.
Proof.
  unfold phrase_tokens. intro H. apply filter_In in H. destruct H as [H Hk].
  apply andb_true_iff in Hk. destruct Hk as [Hlen Hstop].
  apply Nat.ltb_lt in Hlen. apply negb_true_iff in Hstop.
  split; [lia|]. split; [exact Hstop|].
  pose proof (split_pieces (blank_punctuation (toLowerCase h)) "" false
                (normalised_text h) eq_refl) as Hp.
  rewrite Forall_forall in Hp. now apply Hp.
Qed.

Lemma count_set_keys (k : string) (v : nat) (m : list (string * nat))
    (j : string) :
  In j (map fst (smap_set k v m)) <-> j = k \/ In j (map fst m).
Proof.
  induction m as [|[k' v'] rest IH]; simpl.
  - intuition.
  - destruct (String.eqb k' k) eqn:E; simpl.
    + apply String.eqb_eq in E. subst k'. intuition.
    + rewrite IH. intuition.
Qed.

Lemma count_set_nodup (k : string) (v : nat) (m : list (string * nat)) :
  NoDup (map fst m) -> NoDup (map fst (smap_set k v m)).
Proof.
  induction m as [|[k' v'] rest IH]; simpl; intro H.
  - repeat constructor. simpl. tauto.
  - inversion H as [|? ? Hk Hrest]; subst.
    destruct (String.eqb k' k) eqn:E; simpl.
    + apply String.eqb_eq in E. subst k'. now constructor.
    + constructor; [|now apply IH].
      rewrite count_set_keys. intros [->|Hin]; [|now apply Hk].
      now rewrite String.eqb_refl in E.
Qed.

Definition keys_from (tokens : list string) (counts : list (string * nat))
    : Prop :=
  NoDup (map fst counts) /\ forall k, In k (map fst counts) -> In k tokens.

Lemma count_token_keys (tokens : list string) (counts : list (string * nat))
    (t : string) :
  In t tokens -> keys_from tokens counts ->
  keys_from tokens (count_token counts t).
Proof.
  intros Ht [Hnd Hin]. unfold count_token. split.
  - now apply count_set_nodup.
  - intros k Hk. apply count_set_keys in Hk.
    destruct Hk as [->|Hk]; [exact Ht|now apply Hin].
Qed.

Lemma count_fold_keys (all : list string) (tokens : list string) :
  forall counts,
    (forall t, In t tokens -> In t all) ->
    keys_from all counts ->
    keys_from all (fold_left count_token tokens counts).
Proof.
  induction tokens as [|t rest IH]; intros counts Hsub H; simpl; [exact H|].
  apply IH; [intros x Hx; apply Hsub; now right|].
  apply count_token_keys; [apply Hsub; now left|exact H].
Qed.

Lemma count_titles_keys (all : list string) (titles : list string) :
  forall counts,
    (forall h t, In h titles -> In t (phrase_tokens h) -> In t all) ->
    keys_from all counts ->
    keys_from all
      (fold_left (fun counts h => fold_left count_token (phrase_tokens h) counts)
                 titles counts).
Proof.
  induction titles as [|h rest IH]; intros counts Hsub H0; simpl; [exact H0|].
  apply IH.
  - intros h' t Hh'. apply Hsub. now right.
  - apply count_fold_keys; [|exact H0].
    intros t Ht. apply (Hsub h t); [now left|exact Ht].
Qed.

Lemma count_tokens_keys (titles : list string) :
  keys_from (flat_map phrase_tokens titles) (count_tokens titles).
Proof.
  unfold count_tokens. apply count_titles_keys.
  - intros h t Hh Ht. apply in_flat_map. eauto.
  - split; [constructor|intros k []].
Qed.

Lemma NoDup_firstn {A : Type} (n : nat) (l : list A) :
  NoDup l -> NoDup (firstn n l).
Proof.
  revert n. induction l as [|x rest IH]; intros n H.
  - now rewrite firstn_nil.
  - destruct n as [|n]; simpl; [constructor|].
    inversion H as [|? ? Hx Hrest]; subst. constructor; [|now apply IH].
    intro Hin. apply Hx. eapply AggregatorProps.firstn_In. exact Hin.
Qed.

(** X28.  The top phrases are at most [n] different counted words: no
    phrase occurs twice, each comes from one of the titles, has at least
    three characters, all lower-case letters, digits or underscores, and
    none is a stop word. *)
Theorem top_phrases_shape :
  forall (titles : list string) (n : nat),
    (List.length (topPhrasesFromHeadlines titles n) <= n)%nat
    /\ NoDup (topPhrasesFromHeadlines titles n)
    /\ Forall (counted_word titles) (topPhrasesFromHeadlines titles n).
Proof.
  intros titles n. unfold topPhrasesFromHeadlines.
  destruct (count_tokens_keys titles) as [Hnd Hin].
  set (sorted := sort_by more_often (count_tokens titles)).
  assert (Hperm : Permutation (map fst (count_tokens titles)) (map fst sorted))
    by (apply Permutation_map, sort_by_perm).
  split; [rewrite length_map; apply firstn_le_length|].
  split.
  - rewrite <- firstn_map. apply NoDup_firstn.
    exact (Permutation_NoDup Hperm Hnd).
  - apply Forall_forall. intros t Ht. rewrite <- firstn_map in Ht.
    apply AggregatorProps.firstn_In in Ht.
    apply (Permutation_in t (Permutation_sym Hperm)) in Ht.
    apply Hin in Ht. apply in_flat_map in Ht. destruct Ht as [h [Hh Ht]].
    destruct (phrase_token_spec h t Ht) as (H1 & H2 & H3).
    split; [eauto|]. now repeat split.
Qed.

(** How often a counted word occurs in the titles. *)
Definition occurrences (titles : list string) (t : string) : nat :=
  count_occ string_dec (flat_map phrase_tokens titles) t.

Definition freq (counts : list (string * nat)) (k : string) : nat :=
  match smap_get k counts with Some c => c | None => 0 end.

Lemma count_get_set (k : string) (v : nat) (m : list (string * nat))
    (j : string) :
  smap_get j (smap_set k v m)
  = if String.eqb k j then Some v else smap_get j m.
Proof.
  induction m as [|[k' v'] rest IH]; simpl.
  - now rewrite String.eqb_sym.
  - destruct (String.eqb k' k) eqn:E; simpl.
    + apply String.eqb_eq in E. subst k'. now destruct (String.eqb k j).
    + rewrite IH. destruct (String.eqb k' j) eqn:E1; [|reflexivity].
      apply String.eqb_eq in E1. subst k'. now rewrite String.eqb_sym, E.
Qed.

Lemma freq_count_token (counts : list (string * nat)) (t k : string) :
  freq (count_token counts t) k
  = (freq counts k + if String.eqb t k then 1 else 0)%nat.
Proof.
  unfold freq, count_token. rewrite count_get_set.
  destruct (String.eqb t k) eqn:E; [|lia].
  apply String.eqb_eq in E. now subst t.
Qed.

Lemma freq_fold (tokens : list string) (k : string) :
  forall counts,
    freq (fold_left count_token tokens counts) k
    = (freq counts k + count_occ string_dec tokens k)%nat.
Proof.
  induction tokens as [|t rest IH]; intro counts; simpl; [lia|].
  rewrite IH, freq_count_token.
  destruct (string_dec t k) as [->|Hne].
  - rewrite String.eqb_refl. lia.
  - apply String.eqb_neq in Hne. rewrite Hne. lia.
Qed.

Lemma freq_titles (titles : list string) (k : string) :
  forall counts,
    freq (fold_left (fun counts h =>
                       fold_left count_token (phrase_tokens h) counts)
                    titles counts) k
    = (freq counts k
       + count_occ string_dec (flat_map phrase_tokens titles) k)%nat.
Proof.
  induction titles as [|h rest IH]; intro counts; simpl; [lia|].
  rewrite IH, freq_fold, count_occ_app. lia.
Qed.

Lemma freq_is_occurrences (titles : list string) (k : string) :
  freq (count_tokens titles) k = occurrences titles k.
Proof.
  unfold count_tokens, occurrences. now rewrite freq_titles.
Qed.

Lemma entry_freq (m : list (string * nat)) (k : string) (c : nat) :
  NoDup (map fst m) -> In (k, c) m -> freq m k = c.
Proof.
  unfold freq. induction m as [|[k' v'] rest IH]; simpl; intros Hnd Hin.
  - destruct Hin.
  - inversion Hnd as [|? ? Hk Hrest]; subst.
    destruct Hin as [E|Hin].
    + inversion E; subst. now rewrite String.eqb_refl.
    + destruct (String.eqb k' k) eqn:E; [|now apply IH].
      apply String.eqb_eq in E. subst k'. exfalso. apply Hk.
      now apply (in_map fst rest (k, c)).
Qed.

Lemma freq_entry (m : list (string * nat)) (k : string) :
  (0 < freq m k)%nat -> In (k, freq m k) m.
Proof.
  unfold freq. induction m as [|[k' v'] rest IH]; simpl; intro H; [lia|].
  destruct (String.eqb k' k) eqn:E.
  - apply String.eqb_eq in E. subst k'. now left.
  - right. now apply IH.
Qed.

Definition at_least_as_often (y x : string * nat) : Prop :=
  (snd x <= snd y)%nat.

Lemma sorted_app_order {A : Type} (R : A -> A -> Prop) (front back : list A) :
  StronglySorted R (front ++ back) ->
  forall x y, In x front -> In y back -> R x y.
Proof.
  induction front as [|a rest IH]; simpl; intros Hs x y Hx Hy; [destruct Hx|].
  inversion Hs as [|? ? Hrest Hall]; subst.
  destruct Hx as [<-|Hx]; [|now apply IH].
  rewrite Forall_forall in Hall. apply Hall, in_or_app. now right.
Qed.

(** X29.  The top phrases are the most frequent counted words: a counted
    word of the titles that is left out occurs no more often than any
    phrase that was kept. *)
Theorem top_phrases_most_frequent :
  forall (titles : list string) (n : nat) (p q : string),
    In p (topPhrasesFromHeadlines titles n) ->
    In q (flat_map phrase_tokens titles) ->
    ~ In q (topPhrasesFromHeadlines titles n) ->
    (occurrences titles q <= occurrences titles p)%nat.
Proof.
  intros titles n p q Hp Hq Hout. unfold topPhrasesFromHeadlines in *.
  destruct (count_tokens_keys titles) as [Hnd _].
  set (counts := count_tokens titles) in *.
  set (sorted := sort_by more_often counts) in *.
  assert (Hperm : Permutation sorted counts)
    by (apply Permutation_sym, sort_by_perm).
  assert (Hsorted : StronglySorted at_least_as_often sorted).
  { apply sort_by_sorted; unfold at_least_as_often, more_often.
    - intros x y z; lia.
    - intros x y H. apply Nat.ltb_lt in H. lia.
    - intros x y H. apply Nat.ltb_ge in H. lia. }
  rewrite <- (firstn_skipn n sorted) in Hsorted.
  apply in_map_iff in Hp. destruct Hp as [[p' cp] [Ep Hp]].
  simpl in Ep. subst p'.
  assert (Hcp : cp = occurrences titles p).
  { rewrite <- freq_is_occurrences. symmetry. apply entry_freq; [exact Hnd|].
    apply (Permutation_in _ Hperm).
    eapply AggregatorProps.firstn_In. exact Hp. }
  assert (Hpos : (0 < freq counts q)%nat).
  { unfold counts. rewrite freq_is_occurrences. unfold occurrences.
    now apply count_occ_In. }
  apply freq_entry in Hpos.
  apply (Permutation_in _ (Permutation_sym Hperm)) in Hpos.
  rewrite <- (firstn_skipn n sorted) in Hpos.
  apply in_app_or in Hpos. destruct Hpos as [Hin|Hin].
  - exfalso. apply Hout.
    now apply (in_map fst (firstn n sorted) (q, freq counts q)).
  - pose proof (sorted_app_order at_least_as_often _ _ Hsorted
                  (p, cp) (q, freq counts q) Hp Hin) as H.
    unfold at_least_as_often in H. simpl in H.
    unfold counts in H. rewrite freq_is_occurrences in H. lia.
Qed.

Lemma top_phrases_most_frequent_witness :
  (occurrences ["Small boats crossing"; "Boats stopped"] "small"
   <= occurrences ["Small boats crossing"; "Boats stopped"] "boats")%nat.
Proof.
  apply (top_phrases_most_frequent
           ["Small boats crossing"; "Boats stopped"] 1 "boats" "small").
  - vm_compute. now left.
  - vm_compute. now left.
  - vm_compute. intros [H|[]]. discriminate H.
Defined.

End TopPhraseProps.

(* ------------------------------------------------------------------ *)
(** * [aggregators.ts]: the breakdown of the headlines by media type *)

Module Breakdown.

Import Taxonomy Types Text Num Aggregators.

Local Open Scope string_scope.

Definition OUTLET_TO_MEDIA_TYPE : list (string * MediaType) :=
  [("bbc", broadcast); ("sky news", broadcast); ("sky", broadcast);
   ("the guardian", broadsheet); ("guardian", broadsheet);
   ("the times", broadsheet); ("times", broadsheet);
   ("the telegraph", broadsheet); ("telegraph", broadsheet);
   ("financial times", broadsheet);
   ("the independent", broadsheet); ("independent", broadsheet);
   ("daily mail", tabloid); ("mail", tabloid); ("the sun", tabloid);
   ("sun", tabloid); ("mirror", tabloid); ("express", tabloid);
   ("reuters", wire); ("pa media", wire); ("press association", wire)].

(** [key.replace(/^the\s+/, "")] *)
Definition drop_leading_the (s : string) : string :=
  match s with
  | String "t" (String "h" (String "e" (String c r))) =>
      if is_space c then trimStart r else s
  | _ => s
  end.

(** The table is read by its own keys; an outlet whose key names a member
    that every object inherits (such as [constructor]) is not covered. *)
Definition getMediaType (item : RawMediaItem) : MediaType :=
  match media_type item with
  | Some t => t
  | None =>
      let key := drop_leading_the (trim (toLowerCase (outlet item))) in
      match find (fun e => String.eqb (fst e) key) OUTLET_TO_MEDIA_TYPE with
      | Some e => snd e
      | None => online
      end
  end.

Definition same_media_type (a b : MediaType) : bool :=
  match a, b with
  | broadcast, broadcast | broadsheet, broadsheet | tabloid, tabloid
  | online, online | wire, wire => true
  | _, _ => false
  end.

(** A value of the map [byMediaType]. *)
Record TypeGroup : Type := {
  g_items : list RawMediaItem;
  g_classified : list ClassifiedItem
}.

Record MediaTypeBreakdown (K : Type) : Type := {
  b_media_type : K;
  b_n : nat;
  b_weight : Q;
  b_shares : list Share
}.

Arguments b_media_type {K} _.
Arguments b_n {K} _.
Arguments b_weight {K} _.
Arguments b_shares {K} _.

Definition Qnat (n : nat) : Q := inject_Z (Z.of_nat n).

(** The grouping loops use [getMediaType] as a key only, so they are written
    for any key function [kind_of] and any equality [same] on its keys. *)
Section Grouping.

Context {K : Type}.
Variable same : K -> K -> bool.
Variable kind_of : RawMediaItem -> K.

(** [byMediaType.has(k)] *)
Definition has_kind (k : K) (m : list (K * TypeGroup)) : bool :=
  existsb (fun e => same (fst e) k) m.

(** A change of the value stored under [k]; nothing happens without one. *)
Fixpoint update_kind (k : K) (f : TypeGroup -> TypeGroup)
    (m : list (K * TypeGroup)) : list (K * TypeGroup) :=
  match m with
  | [] => []
  | (k', g) :: rest =>
      if same k' k then (k', f g) :: rest
      else (k', g) :: update_kind k f rest
  end.

Definition push_item (item : RawMediaItem) (g : TypeGroup) : TypeGroup :=
  {| g_items := (g_items g ++ [item])%list; g_classified := g_classified g |}.

Definition push_classified (c : ClassifiedItem) (g : TypeGroup) : TypeGroup :=
  {| g_items := g_items g; g_classified := (g_classified g ++ [c])%list |}.

(** One turn of the loop over [rawMedia]. *)
Definition add_item (m : list (K * TypeGroup)) (item : RawMediaItem)
    : list (K * TypeGroup) :=
  let mt := kind_of item in
  let m' :=
    if has_kind mt m then m
    else (m ++ [(mt, {| g_items := []; g_classified := [] |})])%list in
  update_kind mt (push_item item) m'.

(** One turn of the loop over [mediaClassified]. *)
Definition add_classified (rawMedia : list RawMediaItem)
    (m : list (K * TypeGroup)) (c : ClassifiedItem) : list (K * TypeGroup) :=
  match find_media rawMedia (item_id c) with
  | Some raw => update_kind (kind_of raw) (push_classified c) m
  | None => m
  end.

Definition byMediaType (rawMedia : list RawMediaItem)
    (items : list ClassifiedItem) : list (K * TypeGroup) :=
  fold_left (add_classified rawMedia) items (fold_left add_item rawMedia []).

Definition breakdown_entry (now : Z) (nTotal : nat) (e : K * TypeGroup)
    : MediaTypeBreakdown K :=
  let typeItems := g_items (snd e) in
  let typeClassified := g_classified (snd e) in
  {| b_media_type := fst e;
     b_n := List.length typeItems;
     b_weight :=
       if (0 <? nTotal)%nat
       then (Qnat (List.length typeItems) / Qnat nTotal)%Q
       else 0%Q;
     b_shares := shares_of (media_byRespect now typeItems typeClassified) |}.

(** The comparator [(a, b) => b.n - a.n]. *)
Definition more_items (y x : MediaTypeBreakdown K) : bool :=
  (b_n x <? b_n y)%nat.

Definition breakdown_by (now : Z) (classified : list ClassifiedItem)
    (rawMedia : list RawMediaItem) : list (MediaTypeBreakdown K) :=
  sort_by more_items
    (map (breakdown_entry now (List.length rawMedia))
         (byMediaType rawMedia (mediaClassified classified))).

End Grouping.

(** The field [media_type_breakdown] of [aggregate_media_framing]. *)
Definition media_type_breakdown (now : Z) (classified : list ClassifiedItem)
    (rawMedia : list RawMediaItem) : list (MediaTypeBreakdown MediaType) :=
  breakdown_by same_media_type getMediaType now classified rawMedia.

End Breakdown.

Module BreakdownProps.

Import Taxonomy Types Text Num Aggregators Breakdown.

Local Open Scope list_scope.

Lemma list_sum_perm (l1 l2 : list nat) :
  Permutation l1 l2 -> list_sum l1 = list_sum l2.
Proof. induction 1; simpl; lia. Qed.

Lemma Qnat_add (a b : nat) : (Qnat (a + b) == Qnat a + Qnat b)%Q.
Proof. unfold Qnat. now rewrite Nat2Z.inj_add, inject_Z_plus. Qed.

Lemma Qsum_ratios (d : Q) (l : list nat) :
  (Qsum (map (fun k => Qnat k / d) l) == Qnat (list_sum l) / d)%Q.
Proof.
  induction l as [|k rest IH]; simpl.
  - unfold Qsum, Qnat. simpl. unfold Qdiv. ring.
  - rewrite Qsum_cons, IH, Qnat_add. unfold Qdiv. ring.
Qed.

Section GroupingFacts.

Context {K : Type}.
Variable same : K -> K -> bool.
Variable kind_of : RawMediaItem -> K.
Hypothesis same_spec : forall a b, same a b = true <-> a = b.

Lemma same_refl (k : K) : same k k = true.
Proof. now apply same_spec. Qed.

Lemma same_sym (a b : K) : same a b = same b a.
Proof.
  destruct (same a b) eqn:E1, (same b a) eqn:E2; try reflexivity.
  - apply same_spec in E1. subst. now rewrite same_refl in E2.
  - apply same_spec in E2. subst. now rewrite same_refl in E1.
Qed.

Lemma has_kind_in (k : K) (m : list (K * TypeGroup)) :
  has_kind same k m = true <-> In k (map fst m).
Proof.
  unfold has_kind. rewrite existsb_exists, in_map_iff. split.
  - intros [e [He Hs]]. apply same_spec in Hs. eauto.
  - intros [e [He Hs]]. exists e. split; [exact Hs|]. rewrite He.
    apply same_refl.
Qed.

Lemma update_keys (k : K) (f : TypeGroup -> TypeGroup)
    (m : list (K * TypeGroup)) :
  map fst (update_kind same k f m) = map fst m.
Proof.
  induction m as [|[k' g] rest IH]; simpl; [reflexivity|].
  destruct (same k' k); simpl; [reflexivity|now rewrite IH].
Qed.

(** With distinct keys, [update_kind] changes the value under [k] and no
    other. *)
Lemma update_in (k : K) (f : TypeGroup -> TypeGroup)
    (m : list (K * TypeGroup)) (k' : K) (g' : TypeGroup) :
  NoDup (map fst m) ->
  In (k', g') (update_kind same k f m) ->
  exists g, In (k', g) m /\ g' = if same k' k then f g else g.
Proof.
  induction m as [|[k0 g0] rest IH]; simpl; intros Hnd Hin; [destruct Hin|].
  inversion Hnd as [|? ? Hk0 Hrest]; subst.
  destruct (same k0 k) eqn:E.
  - destruct Hin as [Heq|Hin].
    + inversion Heq; subst. exists g0. rewrite E. split; [now left|reflexivity].
    + exists g'. split; [now right|].
      destruct (same k' k) eqn:E'; [|reflexivity].
      apply same_spec in E, E'. subst. exfalso. apply Hk0.
      now apply (in_map fst rest (k, g')).
  - destruct Hin as [Heq|Hin].
    + inversion Heq; subst. exists g'. rewrite E. split; [now left|reflexivity].
    + destruct (IH Hrest Hin) as [g [Hg Eg]]. exists g. split; [now right|].
      exact Eg.
Qed.

Definition size (e : K * TypeGroup) : nat := List.length (g_items (snd e)).

Lemma update_size_push (k : K) (item : RawMediaItem)
    (m : list (K * TypeGroup)) :
  has_kind same k m = true ->
  list_sum (map size (update_kind same k (push_item item) m))
  = S (list_sum (map size m)).
Proof.
  unfold has_kind.
  induction m as [|[k' g] rest IH]; simpl; intro H; [discriminate|].
  destruct (same k' k) eqn:E; simpl.
  - unfold size at 1 3. simpl. rewrite length_app. simpl. lia.
  - rewrite IH; [lia|exact H].
Qed.

Lemma update_size_same (k : K) (f : TypeGroup -> TypeGroup)
    (m : list (K * TypeGroup)) :
  (forall g, g_items (f g) = g_items g) ->
  map size (update_kind same k f m) = map size m.
Proof.
  intro Hf. induction m as [|[k' g] rest IH]; simpl; [reflexivity|].
  destruct (same k' k); simpl; [|now rewrite IH].
  unfold size at 1 3. simpl. now rewrite Hf.
Qed.

Definition of_kind (k : K) (x : RawMediaItem) : bool := same (kind_of x) k.

(** The state of [byMediaType] once the items [done] have been read. *)
Definition grouped (done : list RawMediaItem) (m : list (K * TypeGroup))
    : Prop :=
  NoDup (map fst m)
  /\ (forall k g, In (k, g) m ->
        g_items g = filter (of_kind k) done /\ g_items g <> [])
  /\ (forall x, In x done -> In (kind_of x) (map fst m))
  /\ list_sum (map size m) = List.length done.

Lemma filter_none (k : K) (done : list RawMediaItem)
    (m : list (K * TypeGroup)) :
  (forall x, In x done -> In (kind_of x) (map fst m)) ->
  ~ In k (map fst m) ->
  filter (of_kind k) done = [].
Proof.
  intros Hall Hk. induction done as [|x rest IH]; simpl; [reflexivity|].
  destruct (of_kind k x) eqn:E.
  - unfold of_kind in E. apply same_spec in E. subst k. exfalso.
    apply Hk, Hall. now left.
  - apply IH. intros y Hy. apply Hall. now right.
Qed.

Lemma add_item_grouped (done : list RawMediaItem) (m : list (K * TypeGroup))
    (item : RawMediaItem) :
  grouped done m -> grouped (done ++ [item]) (add_item same kind_of m item).
Proof.
  intros (Hnd & Hitems & Hall & Hsum). unfold add_item.
  set (mt := kind_of item).
  set (m' := if has_kind same mt m then m
             else m ++ [(mt, {| g_items := []; g_classified := [] |})]).
  assert (Hhas : has_kind same mt m' = true).
  { unfold m'. destruct (has_kind same mt m) eqn:E; [exact E|].
    apply has_kind_in. rewrite map_app. apply in_or_app. right. now left. }
  assert (Hnd' : NoDup (map fst m')).
  { unfold m'. destruct (has_kind same mt m) eqn:E; [exact Hnd|].
    rewrite map_app. simpl.
    apply (Permutation_NoDup (Permutation_cons_append (map fst m) mt)).
    constructor; [|exact Hnd].
    intro Hin. apply has_kind_in in Hin. congruence. }
  assert (Hkeys : forall k, In k (map fst m) -> In k (map fst m')).
  { intros k Hk. unfold m'. destruct (has_kind same mt m); [exact Hk|].
    rewrite map_app. apply in_or_app. now left. }
  assert (Hsum' : list_sum (map size m') = List.length done).
  { unfold m'. destruct (has_kind same mt m); [exact Hsum|].
    rewrite map_app, list_sum_app, Hsum. simpl. lia. }
  assert (Hitems' : forall k g, In (k, g) m' ->
            g_items g = filter (of_kind k) done
            /\ (g_items g <> [] \/ k = mt)).
  { intros k g Hin. unfold m' in Hin.
    destruct (has_kind same mt m) eqn:E.
    - destruct (Hitems k g Hin) as [H1 H2]. split; [exact H1|now left].
    - apply in_app_or in Hin. destruct Hin as [Hin|[Heq|[]]].
      + destruct (Hitems k g Hin) as [H1 H2]. split; [exact H1|now left].
      + inversion Heq; subst. simpl. split; [|now right].
        symmetry. apply (filter_none _ done m Hall).
        intro Hin. apply has_kind_in in Hin. congruence. }
  repeat split.
  - rewrite update_keys. exact Hnd'.
  - apply (update_in _ _ _ _ _ Hnd') in H.
    destruct H as [g0 [Hg0 Eg]]. destruct (Hitems' k g0 Hg0) as [H1 _].
    rewrite filter_app. simpl. unfold of_kind at 2. fold mt.
    rewrite (same_sym mt k). subst g.
    destruct (same k mt); simpl; [now rewrite H1|].
    now rewrite app_nil_r.
  - apply (update_in _ _ _ _ _ Hnd') in H.
    destruct H as [g0 [Hg0 Eg]]. destruct (Hitems' k g0 Hg0) as [_ H2].
    subst g. destruct (same k mt) eqn:E; simpl.
    + intro Hnil. now destruct (g_items g0).
    + destruct H2 as [H2| ->]; [exact H2|]. now rewrite same_refl in E.
  - intros x Hx. rewrite update_keys. apply in_app_or in Hx.
    destruct Hx as [Hx|[<-|[]]]; [now apply Hkeys, Hall|].
    now apply has_kind_in.
  - rewrite (update_size_push _ _ _ Hhas), Hsum', length_app. simpl. lia.
Qed.

Lemma add_items_grouped (todo : list RawMediaItem) :
  forall done m,
    grouped done m ->
    grouped (done ++ todo) (fold_left (add_item same kind_of) todo m).
Proof.
  induction todo as [|x rest IH]; intros done m H; simpl.
  - now rewrite app_nil_r.
  - replace (done ++ x :: rest) with ((done ++ [x]) ++ rest)
      by now rewrite <- app_assoc.
    apply IH. now apply add_item_grouped.
Qed.

Lemma add_classified_grouped (rawMedia done : list RawMediaItem)
    (m : list (K * TypeGroup)) (c : ClassifiedItem) :
  grouped done m -> grouped done (add_classified same kind_of rawMedia m c).
Proof.
  intros (Hnd & Hitems & Hall & Hsum). unfold add_classified.
  destruct (find_media rawMedia (item_id c)) as [raw|];
    [|exact (conj Hnd (conj Hitems (conj Hall Hsum)))].
  assert (Hsame : forall k g,
            In (k, g) (update_kind same (kind_of raw) (push_classified c) m) ->
            exists g0, In (k, g0) m /\ g_items g = g_items g0).
  { intros k g Hin. apply (update_in _ _ _ _ _ Hnd) in Hin.
    destruct Hin as [g0 [Hg0 Eg]]. exists g0. split; [exact Hg0|].
    subst g. now destruct (same k (kind_of raw)). }
  repeat split.
  - rewrite update_keys. exact Hnd.
  - destruct (Hsame k g H) as [g0 [Hg0 ->]]. now apply (Hitems k g0).
  - destruct (Hsame k g H) as [g0 [Hg0 ->]]. now apply (Hitems k g0).
  - intros x Hx. rewrite update_keys. now apply Hall.
  - rewrite update_size_same; [exact Hsum|reflexivity].
Qed.

Lemma byMediaType_grouped (rawMedia : list RawMediaItem)
    (items : list ClassifiedItem) :
  grouped rawMedia (byMediaType same kind_of rawMedia items).
Proof.
  unfold byMediaType.
  assert (H : grouped rawMedia (fold_left (add_item same kind_of) rawMedia [])).
  { apply (add_items_grouped rawMedia [] []).
    repeat split; simpl; try constructor; intros; contradiction. }
  revert H. generalize (fold_left (add_item same kind_of) rawMedia []).
  induction items as [|c rest IH]; intros m H; simpl; [exact H|].
  apply IH. now apply add_classified_grouped.
Qed.

Definition no_more_items (y x : MediaTypeBreakdown K) : Prop :=
  (b_n x <= b_n y)%nat.

Lemma breakdown_by_spec (now : Z) (classified : list ClassifiedItem)
    (rawMedia : list RawMediaItem) :
  let bd := breakdown_by same kind_of now classified rawMedia in
  NoDup (map b_media_type bd)
  /\ (forall b, In b bd ->
        b_n b = List.length (filter (of_kind (b_media_type b)) rawMedia)
        /\ (1 <= b_n b)%nat)
  /\ list_sum (map b_n bd) = List.length rawMedia
  /\ StronglySorted no_more_items bd
  /\ (rawMedia <> [] -> (Qsum (map b_weight bd) == 1)%Q).
Proof.
  intro bd. unfold bd, breakdown_by.
  set (m := byMediaType same kind_of rawMedia (mediaClassified classified)).
  set (entries := map (breakdown_entry now (List.length rawMedia)) m).
  destruct (byMediaType_grouped rawMedia (mediaClassified classified))
    as (Hnd & Hitems & _ & Hsum). fold m in Hnd, Hitems, Hsum.
  assert (Hperm : Permutation entries (sort_by more_items entries))
    by apply sort_by_perm.
  assert (Hn : map b_n entries = map size m).
  { unfold entries. rewrite map_map. reflexivity. }
  split; [|split; [|split; [|split]]].
  - apply (Permutation_NoDup (Permutation_map b_media_type Hperm)).
    unfold entries. rewrite map_map. exact Hnd.
  - intros b Hb. apply (Permutation_in b (Permutation_sym Hperm)) in Hb.
    unfold entries in Hb. apply in_map_iff in Hb.
    destruct Hb as [[k g] [<- Hin]]. simpl.
    destruct (Hitems k g Hin) as [H1 H2]. rewrite <- H1. split; [reflexivity|].
    destruct (g_items g); [congruence|simpl; lia].
  - rewrite <- (list_sum_perm _ _ (Permutation_map b_n Hperm)), Hn.
    exact Hsum.
  - apply sort_by_sorted; unfold no_more_items, more_items.
    + intros x y z; lia.
    + intros x y H. apply Nat.ltb_lt in H. lia.
    + intros x y H. apply Nat.ltb_ge in H. lia.
  - intro Hne.
    rewrite <- (Qsum_perm _ _ (Permutation_map b_weight Hperm)).
    assert (Hpos : (0 < List.length rawMedia)%nat)
      by (destruct rawMedia; [congruence|simpl; lia]).
    assert (Hw : map b_weight entries
                 = map (fun k => (Qnat k / Qnat (List.length rawMedia))%Q)
                       (map size m)).
    { unfold entries. rewrite !map_map. apply map_ext. intro e.
      unfold breakdown_entry. cbn [b_weight].
      apply Nat.ltb_lt in Hpos. now rewrite Hpos. }
    rewrite Hw, Qsum_ratios, Hsum. apply Qmult_inv_r.
    unfold Qnat. intro H. apply (Qeq_bool_iff) in H.
    destruct (List.length rawMedia); [lia|discriminate H].
Qed.

End GroupingFacts.

Lemma same_media_type_spec (a b : MediaType) :
  same_media_type a b = true <-> a = b.
Proof. destruct a, b; simpl; split; congruence. Qed.

(** X30.  The breakdown by media type partitions the headlines: each media
    type occurs once, with the number of headlines of that type (at least
    one) as [n]; the numbers add up to the volume, the entries come in
    descending order of [n], and the weights of a non-empty input add up
    to one. *)
Theorem breakdown_partitions_the_volume :
  forall (now : Z) (classified : list ClassifiedItem)
         (rawMedia : list RawMediaItem),
    let bd := media_type_breakdown now classified rawMedia in
    NoDup (map b_media_type bd)
    /\ (forall b, In b bd ->
          b_n b = List.length
                    (filter (fun m => same_media_type (getMediaType m)
                                                      (b_media_type b))
                            rawMedia)
          /\ (1 <= b_n b)%nat)
    /\ list_sum (map b_n bd) = List.length rawMedia
    /\ StronglySorted (fun y x => (b_n x <= b_n y)%nat) bd
    /\ (rawMedia <> [] -> (Qsum (map b_weight bd) == 1)%Q).
Proof.
  intros now classified rawMedia.
  exact (breakdown_by_spec same_media_type getMediaType same_media_type_spec
           now classified rawMedia).
Qed.

End BreakdownProps.
